(** * Scheduler AI: scheduling engine contracts and frontend dispatch logic

    The development has two layers.

    - [Engine] and [Endpoint]: the temporal engine (overlap test, recurrence
      expansion, conflict-aware bulk insertion, reminder due-polling).  It
      is implemented by the Flask backend (app.py, crud.py, recurrence.py),
      which is not part of the frontend sources embedded below; these
      definitions follow the specification text.
    - [Js], [Regex], [App], [ChatLayout], [VoiceAssistant], [Timers],
      [ElectronMain]: the JavaScript frontend, embedded from
      frontend/src/App.js, frontend/src/components/FreeVoiceAssistant.jsx
      (which also holds ChatLayout.jsx) and frontend/electron/main.js. *)

From Stdlib Require Import ZArith Lia Bool List Ascii String Permutation Sorted
  DecimalString.
From stdpp Require Import base gmap.
Import ListNotations.

Local Open Scope Z_scope.

(* ===================================================================== *)
(** * The scheduling engine                                                *)
(* ===================================================================== *)

Module Engine.

(** ** Data model (spec section 3) *)

(** Dates are day numbers (days since a reference Monday); times of day are
    minutes since midnight; instants are minutes since the reference
    midnight. *)
Definition Date := Z.
Definition Minute := Z.
Definition Instant := Z.

Definition MINUTES_PER_DAY : Z := 1440.

(** Modelled from the spec: the TimeInterval of the backend's conflict
    detector, "(date, start-minute-of-day, end-minute-of-day) -- the unit
    of overlap computation". *)
Record TimeInterval := mkInterval {
  iv_date : Date;
  iv_start : Minute;
  iv_end : Minute
}.

(** Modelled from the spec: the Appointment record of the backend's data
    layer (identity, date, start, end, title). *)
Record Appointment := mkAppointment {
  appt_id : Z;
  appt_date : Date;
  appt_start : Minute;
  appt_end : Minute;
  appt_title : string
}.

(** Modelled from the spec: the Occurrence of the backend's recurrence
    expander, "a concrete (date, start, end, title) produced by expanding a
    RecurrenceSpec"; the date is the anchor date even when the end lands on
    the following day. *)
Record Occurrence := mkOccurrence {
  occ_date : Date;
  occ_start : Minute;
  occ_end : Minute;
  occ_title : string
}.

Inductive Weekday := Mon | Tue | Wed | Thu | Fri | Sat | Sun.

Definition weekday_index (w : Weekday) : Z :=
  match w with
  | Mon => 0 | Tue => 1 | Wed => 2 | Thu => 3 | Fri => 4 | Sat => 5 | Sun => 6
  end.

Definition weekday_of (d : Date) : Z := d mod 7.

(** Modelled from the spec: the RecurrenceSpec the backend's expander
    takes.  "termination -- exactly one of
    {occurrence count, end date, explicit date range}" is an invariant
    checked by [validate], so the three modes are separate optional
    fields; the interval multiplier is "every K weeks, K>=1". *)
Record RecurrenceSpec := mkSpec {
  rs_weekdays : list Weekday;
  rs_start_time : Minute;
  rs_duration : Z;
  rs_interval : positive;
  rs_count : option Z;
  rs_until : option Date;
  rs_range : option (Date * Date);
  rs_title : string
}.

(** Modelled from the spec: the backend's error taxonomy of section 7 (the
    members the modelled operations can raise). *)
Inductive EngineError :=
| InvalidRecurrenceSpec
| NotFound.

(** ** Conflict detector (spec section 4.4) *)

(** Modelled from the spec: the backend's cross-midnight segmentation, "a
    time range whose
    end <= start is interpreted as crossing midnight: it is split into
    [start, 24:00) on day D and [00:00, end) on day D+1" (section 4.1). *)
Definition segments (iv : TimeInterval) : list TimeInterval :=
  if iv_end iv <=? iv_start iv
  then [ mkInterval (iv_date iv) (iv_start iv) MINUTES_PER_DAY;
         mkInterval (iv_date iv + 1) 0 (iv_end iv) ]
  else [ iv ].

(** Modelled from the spec: the backend's half-open overlap test on two
    single-day segments, "a.start < b.end and b.start < a.end on the same
    date". *)
Definition segment_overlaps (a b : TimeInterval) : bool :=
  (iv_date a =? iv_date b) && (iv_start a <? iv_end b) && (iv_start b <? iv_end a).

(** Modelled from the spec: [overlaps(a, b) -> bool] of the backend's
    conflict detector; "a cross-midnight
    interval is compared as its two constituent single-day segments against
    the target's segments". *)
Definition overlaps (a b : TimeInterval) : bool :=
  existsb (fun sa => existsb (fun sb => segment_overlaps sa sb) (segments b))
          (segments a).

Definition appt_interval (a : Appointment) : TimeInterval :=
  mkInterval (appt_date a) (appt_start a) (appt_end a).

Definition occ_interval (o : Occurrence) : TimeInterval :=
  mkInterval (occ_date o) (occ_start o) (occ_end o).

(** The occurrence an appointment was created from. *)
Definition appt_occurrence (a : Appointment) : Occurrence :=
  mkOccurrence (appt_date a) (appt_start a) (appt_end a) (appt_title a).

(** A ConflictPair: an existing appointment and the candidate it collides
    with. *)
Definition ConflictPair : Type := Appointment * Occurrence.

(** Modelled from the spec: [findConflicts(candidate, existing)] of the
    backend's conflict detector, "returns
    every existing Appointment whose interval overlaps the candidate's". *)
Definition findConflicts (candidate : Occurrence) (existing : list Appointment)
  : list ConflictPair :=
  map (fun a => (a, candidate))
      (List.filter (fun a => overlaps (occ_interval candidate) (appt_interval a)) existing).

(** Modelled from the spec: the "ascending chronological order" of the
    backend's bulk insertion, by date and then by start time. *)
Definition chrono_leb (a b : Occurrence) : bool :=
  (occ_date a <? occ_date b)
  || ((occ_date a =? occ_date b) && (occ_start a <=? occ_start b)).

Fixpoint chrono_insert (o : Occurrence) (l : list Occurrence) : list Occurrence :=
  match l with
  | [] => [o]
  | x :: rest => if chrono_leb o x then o :: l else x :: chrono_insert o rest
  end.

Fixpoint chrono_sort (l : list Occurrence) : list Occurrence :=
  match l with
  | [] => []
  | x :: rest => chrono_insert x (chrono_sort rest)
  end.

(** Modelled from the spec: the persistence collaborator, as far as bulk
    insertion needs it: the stored appointments and the next free
    identity. *)
Record Store := mkStore {
  st_appts : list Appointment;
  st_next_id : Z
}.

(** Modelled from the spec: [insertAppointment(appt) -> id] of the
    persistence interface (section 6). *)
Definition insertAppointment (o : Occurrence) (s : Store) : Appointment * Store :=
  let a := mkAppointment (st_next_id s) (occ_date o) (occ_start o) (occ_end o) (occ_title o) in
  (a, mkStore (st_appts s ++ [a]) (st_next_id s + 1)).

Record BulkResult := mkBulk {
  created : list Appointment;
  skipped : list (Occurrence * list ConflictPair)
}.

(** Modelled from the spec: one step of the backend's batch loop; the
    occurrence is checked against the store, which already holds the
    occurrences accepted earlier in the batch. *)
Definition bulk_step (acc : BulkResult * Store) (o : Occurrence) : BulkResult * Store :=
  let '(res, s) := acc in
  match findConflicts o (st_appts s) with
  | [] =>
      let '(a, s') := insertAppointment o s in
      (mkBulk (created res ++ [a]) (skipped res), s')
  | c :: cs =>
      (mkBulk (created res) (skipped res ++ [(o, c :: cs)]), s)
  end.

(** Modelled from the spec: [bulkInsert(occurrences)] of the backend's data
    layer, "attempts insertion
    in ascending chronological order; for each occurrence, runs
    findConflicts against both the existing store and previously-accepted
    occurrences in the same batch; if empty, the occurrence is accepted; if
    non-empty, the occurrence is recorded as skipped with its
    ConflictPair(s) and processing continues with the next occurrence". *)
Definition bulkInsert (s : Store) (occurrences : list Occurrence) : BulkResult * Store :=
  fold_left bulk_step (chrono_sort occurrences) (mkBulk [] [], s).

(** What the batch loop keeps true: every occurrence processed so far is
    among the created or among the skipped, and a skipped one carries its
    conflicts. *)
Definition bulk_accounted (res : BulkResult) (seen : list Occurrence) : Prop :=
  Permutation (map appt_occurrence (created res) ++ map fst (skipped res)) seen
  /\ Forall (fun p => snd p <> []) (skipped res).

(** What the batch loop keeps true about conflicts, [s0] being the store
    the batch started from: the store holds the appointments of [s0]
    followed by the created ones; a created appointment overlaps no
    appointment of [s0] and none created before it; a skipped occurrence
    is recorded with all the conflicts it had with [s0] and the
    appointments created before its turn, and there was at least one. *)
Definition bulk_checked (s0 : Store) (res : BulkResult) (s : Store) : Prop :=
  st_appts s = st_appts s0 ++ created res
  /\ (forall pre a post, created res = pre ++ a :: post ->
        forall b, In b (st_appts s0 ++ pre) ->
          overlaps (appt_interval a) (appt_interval b) = false)
  /\ (forall o cs, In (o, cs) (skipped res) ->
        cs <> []
        /\ exists pre post, created res = pre ++ post
                            /\ cs = findConflicts o (st_appts s0 ++ pre)).

(** ** Recurrence expander (spec section 4.3) *)

Definition weekday_in (ws : list Weekday) (d : Date) : bool :=
  existsb (fun w => weekday_index w =? weekday_of d) ws.

(** Seven consecutive dates starting at [c]. *)
Definition week_from (c : Date) : list Date :=
  map (fun i => c + Z.of_nat i) (seq 0 7).

(** Modelled from the spec: the start of the backend's expansion, "the
    first date on/after the spec's earliest applicable date whose weekday
    is in the weekday set". *)
Definition first_match (ws : list Weekday) (d : Date) : option Date :=
  find (weekday_in ws) (week_from d).

(** Modelled from the spec: one cycle of the backend's expansion,
    "emitting one Occurrence per matching weekday within each cycle". *)
Definition cycle_dates (ws : list Weekday) (c : Date) : list Date :=
  List.filter (weekday_in ws) (week_from c).

(** Modelled from the spec: count mode of the backend's expansion, "stop
    after exactly N occurrences total (not per weekday)", cycles "7 x
    interval-multiplier days" apart.
    [cycles] bounds the number of cycles visited; a cycle of a non-empty
    weekday set emits at least one date, so [remaining] cycles suffice. *)
Fixpoint expand_count (ws : list Weekday) (k : positive) (cycles : nat)
         (c : Date) (remaining : nat) : list Date :=
  match cycles with
  | O => []
  | S cycles' =>
      let emitted := firstn remaining (cycle_dates ws c) in
      if (length emitted <? remaining)%nat
      then emitted ++ expand_count ws k cycles' (c + 7 * Z.pos k)
                                   (remaining - length emitted)
      else emitted
  end.

(** Modelled from the spec: end-date mode of the backend's expansion,
    "stop emitting occurrences whose date exceeds the end date (inclusive
    boundary)". *)
Fixpoint expand_until (ws : list Weekday) (k : positive) (cycles : nat)
         (c : Date) (last : Date) : list Date :=
  match cycles with
  | O => []
  | S cycles' =>
      List.filter (fun d => d <=? last) (cycle_dates ws c)
      ++ expand_until ws k cycles' (c + 7 * Z.pos k) last
  end.

Definition cycles_until (k : positive) (first last : Date) : nat :=
  if last <? first then O
  else S (Z.to_nat ((last - first) / (7 * Z.pos k))).

Definition occurrence_on (spec : RecurrenceSpec) (d : Date) : Occurrence :=
  mkOccurrence d (rs_start_time spec)
               ((rs_start_time spec + rs_duration spec) mod MINUTES_PER_DAY)
               (rs_title spec).

Inductive Termination :=
| ByCount (n : Z)
| ByEndDate (last : Date)
| ByRange (first last : Date).

(** Modelled from the spec: the backend's validation of a recurrence,
    InvalidRecurrenceSpec for "missing/duplicate
    termination mode, empty weekday set, non-positive duration", and
    section 5, "treat count termination values <= 0 ... as invalid input". *)
Definition validate (spec : RecurrenceSpec) : option Termination :=
  match rs_weekdays spec with
  | [] => None
  | _ :: _ =>
      if rs_duration spec <=? 0 then None
      else match rs_count spec, rs_until spec, rs_range spec with
           | Some n, None, None => if n <=? 0 then None else Some (ByCount n)
           | None, Some e, None => Some (ByEndDate e)
           | None, None, Some (a, b) => Some (ByRange a b)
           | _, _, _ => None
           end
  end.

(** Modelled from the spec: [expand(spec, horizon)] of the backend's
    recurrence expander.  The RecurrenceSpec
    carries no date outside range mode, so [horizon] is the date the
    expansion starts from (the scenario's "start date"); in range mode the
    range start takes its place. *)
Definition expand (spec : RecurrenceSpec) (horizon : Date)
  : EngineError + list Occurrence :=
  match validate spec with
  | None => inl InvalidRecurrenceSpec
  | Some term =>
      let ws := rs_weekdays spec in
      let k := rs_interval spec in
      let from := match term with ByRange a _ => a | _ => horizon end in
      match first_match ws from with
      | None => inr []
      | Some first =>
          let dates :=
            match term with
            | ByCount n => expand_count ws k (Z.to_nat n) first (Z.to_nat n)
            | ByEndDate e => expand_until ws k (cycles_until k first e) first e
            | ByRange _ b => expand_until ws k (cycles_until k first b) first b
            end in
          inr (map (occurrence_on spec) dates)
      end
  end.

(** ** Reminder due-poller (spec section 4.6) *)

(** Modelled from the spec: the backend's Reminder, "trigger basis --
    absolute (date+time) or relative (lead-minutes before an associated
    appointment's start)". *)
Inductive Trigger :=
| Absolute (at_time : Instant)
| Lead (lead_minutes : Z).

Record Reminder := mkReminder {
  rem_id : Z;
  rem_appointment : option Z;
  rem_trigger : Trigger;
  rem_active : bool;
  rem_delivered : bool;
  rem_title : string
}.

Definition appt_start_instant (a : Appointment) : Instant :=
  appt_date a * MINUTES_PER_DAY + appt_start a.

Definition find_appt (appts : list Appointment) (id : Z) : option Appointment :=
  find (fun a => appt_id a =? id) appts.

(** Modelled from the spec: the backend's trigger time, "trigger time for
    lead-based reminders = associated appointment's start time -
    lead-minutes"; an orphaned lead-based reminder has none. *)
Definition trigger_time (appts : list Appointment) (r : Reminder) : option Instant :=
  match rem_trigger r with
  | Absolute t => Some t
  | Lead m =>
      match rem_appointment r with
      | None => None
      | Some aid =>
          match find_appt appts aid with
          | None => None
          | Some a => Some (appt_start_instant a - m)
          end
      end
  end.

Definition is_due (appts : list Appointment) (now : Instant) (r : Reminder) : bool :=
  rem_active r && negb (rem_delivered r)
  && match trigger_time appts r with
     | Some t => t <=? now
     | None => false
     end.

(** Modelled from the spec: [dueReminders(now)] of the backend's due-poller,
    "returns all active,
    non-delivered reminders whose trigger time <= now". *)
Definition dueReminders (appts : list Appointment) (rems : list Reminder)
           (now : Instant) : list Reminder :=
  List.filter (is_due appts now) rems.

Definition snooze_one (id offset : Z) (now : Instant) (r : Reminder) : Reminder :=
  if rem_id r =? id
  then mkReminder (rem_id r) (rem_appointment r) (Absolute (now + offset))
                  (rem_active r) false (rem_title r)
  else r.

(** Modelled from the spec: the backend's snooze handler, "Snooze takes a
    reminder id and a minute offset,
    and resets its trigger time to now + offset, clearing any delivered
    flag"; an id-based operation on a nonexistent record is NotFound. *)
Definition snooze (rems : list Reminder) (id offset : Z) (now : Instant)
  : EngineError + list Reminder :=
  if existsb (fun r => rem_id r =? id) rems
  then inr (map (snooze_one id offset now) rems)
  else inl NotFound.

End Engine.

(* ===================================================================== *)
(** * JavaScript strings and numbers                                       *)
(* ===================================================================== *)

Module Js.

(** A JavaScript string is a sequence of UTF-16 code units.  The model
    covers the code units below 256 (the Latin-1 range), one [ascii] per
    code unit. *)

Definition code (c : ascii) : N := N_of_ascii c.

(** WhiteSpace and LineTerminator code units below 256: TAB, LF, VT, FF,
    CR, SP and NBSP.  This is what [String.prototype.trim] strips and what
    the regular expression class \s matches. *)
Definition isWhiteSpace (c : ascii) : bool :=
  let n := code c in
  (((9 <=? n) && (n <=? 13)) || (n =? 32) || (n =? 160))%N.

(** The class \d. *)
Definition isDigit (c : ascii) : bool :=
  let n := code c in ((48 <=? n) && (n <=? 57))%N.

(** The class \w, which decides the assertion \b. *)
Definition isWordChar (c : ascii) : bool :=
  let n := code c in
  (((48 <=? n) && (n <=? 57)) || ((65 <=? n) && (n <=? 90))
   || ((97 <=? n) && (n <=? 122)) || (n =? 95))%N.

(** [toLowerCase] on one code unit: A-Z and the Latin-1 capitals
    (U+00C0..U+00DE without the multiplication sign U+00D7). *)
Definition toLowerChar (c : ascii) : ascii :=
  let n := code c in
  if (((65 <=? n) && (n <=? 90))
      || ((192 <=? n) && (n <=? 222) && negb (n =? 215)))%N
  then ascii_of_N (n + 32) else c.

Fixpoint toLowerCase (s : string) : string :=
  match s with
  | EmptyString => EmptyString
  | String c r => String (toLowerChar c) (toLowerCase r)
  end.

(** Canonicalize of the RegExp semantics under the flag /i (without /u):
    the upper-case form when it is a single code unit.  The two Latin-1
    letters whose upper-case form lies outside Latin-1 (U+00B5, U+00FF)
    share it with no other Latin-1 code unit and stand for themselves. *)
Definition canonicalize (c : ascii) : ascii :=
  let n := code c in
  if (((97 <=? n) && (n <=? 122))
      || ((224 <=? n) && (n <=? 254) && negb (n =? 247)))%N
  then ascii_of_N (n - 32) else c.

Fixpoint trimStart (s : string) : string :=
  match s with
  | EmptyString => EmptyString
  | String c r => if isWhiteSpace c then trimStart r else s
  end.

Fixpoint trimEnd (s : string) : string :=
  match s with
  | EmptyString => EmptyString
  | String c r =>
      match trimEnd r with
      | EmptyString => if isWhiteSpace c then EmptyString else String c EmptyString
      | r' => String c r'
      end
  end.

Definition trim (s : string) : string := trimEnd (trimStart s).

Fixpoint startsWith (s p : string) : bool :=
  match p, s with
  | EmptyString, _ => true
  | String a p', String b s' => Ascii.eqb a b && startsWith s' p'
  | String _ _, EmptyString => false
  end.

(** [s.includes(sub)] *)
Fixpoint includes (s sub : string) : bool :=
  startsWith s sub
  || match s with
     | EmptyString => false
     | String _ r => includes r sub
     end.

(** The last character of [prev] followed by [w]. *)
Fixpoint last_char (prev : option ascii) (w : string) : option ascii :=
  match w with
  | EmptyString => prev
  | String c r => last_char (Some c) r
  end.

(** The first character of [s], if any, is outside the class [p]. *)
Definition no_head (p : ascii -> bool) (s : string) : Prop :=
  match s with
  | String c _ => p c = false
  | EmptyString => True
  end.

(** Truthiness of a possibly missing string: [undefined], [null] and the
    empty string are falsy. *)
Definition truthy (t : option string) : bool :=
  match t with
  | None => false
  | Some EmptyString => false
  | Some (String _ _) => true
  end.

(** [a || b] on possibly missing strings. *)
Definition or_else (a b : option string) : option string :=
  if truthy a then a else b.

(** Numbers, as far as the time arithmetic needs them: integers and NaN. *)
Inductive number :=
| Num (z : Z)
| NaN.

Definition num_add (a b : number) : number :=
  match a, b with Num x, Num y => Num (x + y) | _, _ => NaN end.

Definition num_sub (a b : number) : number :=
  match a, b with Num x, Num y => Num (x - y) | _, _ => NaN end.

Definition num_mul (a b : number) : number :=
  match a, b with Num x, Num y => Num (x * y) | _, _ => NaN end.

(** [Math.floor(a / d)] for a positive integer constant [d]. *)
Definition num_floor_div (a : number) (d : Z) : number :=
  match a with Num x => Num (x / d) | NaN => NaN end.

(** [a !== b] and [a === b] against an integer constant. *)
Definition num_eqb (a : number) (b : Z) : bool :=
  match a with Num x => x =? b | NaN => false end.

(** [a > b] against an integer constant; false for NaN. *)
Definition num_gtb (a : number) (b : Z) : bool :=
  match a with Num x => b <? x | NaN => false end.

Definition digit_val (c : ascii) : Z := Z.of_N (code c) - 48.

(** The value of the longest prefix of decimal digits, continuing [acc]. *)
Fixpoint digits_value (acc : Z) (s : string) : Z :=
  match s with
  | String c r => if isDigit c then digits_value (10 * acc + digit_val c) r else acc
  | EmptyString => acc
  end.

(** [parseInt(s, 10)]: leading white space is skipped, an optional sign is
    read, then the longest prefix of digits; NaN when there is none. *)
Definition parseInt (s : string) : number :=
  let s := trimStart s in
  let '(sign, body) :=
    match s with
    | String c r =>
        if Ascii.eqb c "-" then (-1, r)
        else if Ascii.eqb c "+" then (1, r)
        else (1, s)
    | EmptyString => (1, s)
    end in
  match body with
  | String c _ => if isDigit c then Num (sign * digits_value 0 body) else NaN
  | EmptyString => NaN
  end.

End Js.

(* ===================================================================== *)
(** * Regular expressions (the fragment the frontend uses)                 *)
(* ===================================================================== *)

Module Regex.

Import Js.

Inductive regex :=
| Eps
| Chr (c : ascii)                 (* a literal character *)
| Cls (p : ascii -> bool)         (* a character class: \d, \s *)
| Seq (r1 r2 : regex)
| Alt (r1 r2 : regex)             (* r1|r2, left alternative first *)
| Opt (r : regex)                 (* r?, greedy *)
| StarCls (p : ascii -> bool)     (* class*, greedy *)
| Grp (n : nat) (r : regex)       (* capturing group number n *)
| Bol                             (* ^ *)
| Eol                             (* $ *)
| WordB.                          (* \b *)

(** A literal string. *)
Fixpoint Lit (s : string) : regex :=
  match s with
  | EmptyString => Eps
  | String c r => Seq (Chr c) (Lit r)
  end.

(** class+ *)
Definition PlusCls (p : ascii -> bool) : regex := Seq (Cls p) (StarCls p).

(** r1|r2|...|rn *)
Fixpoint AltOf (rs : list regex) : regex :=
  match rs with
  | [] => Eps
  | [r] => r
  | r :: rest => Alt r (AltOf rest)
  end.

Definition Captures := list (nat * string).

(** The capture of group [n], [None] when the group did not take part. *)
Fixpoint group (m : Captures) (n : nat) : option string :=
  match m with
  | [] => None
  | (i, s) :: rest => if Nat.eqb i n then Some s else group rest n
  end.

(** Matcher state: the character before the current position, the position,
    the remaining input and the captures so far. *)
Record MState := mkM {
  m_prev : option ascii;
  m_pos : nat;
  m_rest : string;
  m_caps : Captures
}.

Definition is_word_opt (c : option ascii) : bool :=
  match c with Some x => isWordChar x | None => false end.

Definition next_char (s : string) : option ascii :=
  match s with String c _ => Some c | EmptyString => None end.

Definition at_word_boundary (st : MState) : bool :=
  xorb (is_word_opt (m_prev st)) (is_word_opt (next_char (m_rest st))).

Section Matcher.

(** The flag /i and the string being searched. *)
Variable icase : bool.
Variable subject : string.

Definition char_eq (p c : ascii) : bool :=
  if icase then Ascii.eqb (canonicalize p) (canonicalize c) else Ascii.eqb p c.

Definition advance (c : ascii) (r : string) (st : MState) : MState :=
  mkM (Some c) (S (m_pos st)) r (m_caps st).

Definition step_char (p : ascii -> bool) (k : MState -> option MState)
           (st : MState) : option MState :=
  match m_rest st with
  | String c r => if p c then k (advance c r st) else None
  | EmptyString => None
  end.

(** Greedy iteration of a class: take one more character when possible,
    fall back to stopping here when the continuation fails further on. *)
Fixpoint star_cls (p : ascii -> bool) (k : MState -> option MState)
         (prev : option ascii) (pos : nat) (rest : string) (caps : Captures)
  : option MState :=
  match rest with
  | String c r =>
      if p c
      then match star_cls p k (Some c) (S pos) r caps with
           | Some res => Some res
           | None => k (mkM prev pos rest caps)
           end
      else k (mkM prev pos rest caps)
  | EmptyString => k (mkM prev pos rest caps)
  end.

Definition set_cap (n : nat) (from : nat) (st : MState) : MState :=
  mkM (m_prev st) (m_pos st) (m_rest st)
      ((n, substring from (m_pos st - from) subject) :: m_caps st).

(** Backtracking matcher in continuation-passing style: [k] is the rest
    of the pattern and the result is the state at the end of the match.  Captures made on a path that fails are dropped with
    it. *)
Fixpoint run (r : regex) (k : MState -> option MState) (st : MState)
  : option MState :=
  match r with
  | Eps => k st
  | Chr c => step_char (char_eq c) k st
  | Cls p => step_char p k st
  | Seq r1 r2 => run r1 (run r2 k) st
  | Alt r1 r2 =>
      match run r1 k st with
      | Some res => Some res
      | None => run r2 k st
      end
  | Opt r1 =>
      match run r1 k st with
      | Some res => Some res
      | None => k st
      end
  | StarCls p => star_cls p k (m_prev st) (m_pos st) (m_rest st) (m_caps st)
  | Grp n r1 => run r1 (fun st' => k (set_cap n (m_pos st) st')) st
  | Bol => if Nat.eqb (m_pos st) 0 then k st else None
  | Eol => match m_rest st with EmptyString => k st | String _ _ => None end
  | WordB => if at_word_boundary st then k st else None
  end.

(** The match attempt is repeated at every start position, left to
    right. *)
Fixpoint exec_from (r : regex) (prev : option ascii) (pos : nat) (rest : string)
  : option MState :=
  match run r Some (mkM prev pos rest []) with
  | Some res => Some res
  | None =>
      match rest with
      | String c rest' => exec_from r (Some c) (S pos) rest'
      | EmptyString => None
      end
  end.

(** The relational reading of the fragment: [matches r st st'] when [r]
    can take the matcher from [st] to [st'], whatever the order in which
    the alternatives are tried. *)
Inductive matches : regex -> MState -> MState -> Prop :=
| M_Eps st : matches Eps st st
| M_Chr c x r st :
    m_rest st = String x r -> char_eq c x = true ->
    matches (Chr c) st (advance x r st)
| M_Cls p x r st :
    m_rest st = String x r -> p x = true ->
    matches (Cls p) st (advance x r st)
| M_Seq r1 r2 st st1 st2 :
    matches r1 st st1 -> matches r2 st1 st2 -> matches (Seq r1 r2) st st2
| M_AltL r1 r2 st st' : matches r1 st st' -> matches (Alt r1 r2) st st'
| M_AltR r1 r2 st st' : matches r2 st st' -> matches (Alt r1 r2) st st'
| M_OptSome r st st' : matches r st st' -> matches (Opt r) st st'
| M_OptNone r st : matches (Opt r) st st
| M_StarNil p st : matches (StarCls p) st st
| M_StarCons p x r st st' :
    m_rest st = String x r -> p x = true ->
    matches (StarCls p) (advance x r st) st' ->
    matches (StarCls p) st st'
| M_Grp n r st st' :
    matches r st st' -> matches (Grp n r) st (set_cap n (m_pos st) st')
| M_Bol st : m_pos st = O -> matches Bol st st
| M_Eol st : m_rest st = EmptyString -> matches Eol st st
| M_WordB st : at_word_boundary st = true -> matches WordB st st.

(** The strings a pattern can consume, read off the pattern itself:
    [lang r w rest] when [r] can consume [w] in front of [rest].  The
    assertions ^ and \b look to the left and are not constrained
    here. *)
Fixpoint all_cls (p : ascii -> bool) (w : string) : bool :=
  match w with
  | EmptyString => true
  | String c r => p c && all_cls p r
  end.

Fixpoint lang (r : regex) (w rest : string) : Prop :=
  match r with
  | Eps => w = EmptyString
  | Chr c => exists x, w = String x EmptyString /\ char_eq c x = true
  | Cls p => exists x, w = String x EmptyString /\ p x = true
  | Seq r1 r2 =>
      exists u v, w = (u ++ v)%string /\ lang r1 u (v ++ rest)%string /\ lang r2 v rest
  | Alt r1 r2 => lang r1 w rest \/ lang r2 w rest
  | Opt r1 => w = EmptyString \/ lang r1 w rest
  | StarCls p => all_cls p w = true
  | Grp _ r1 => lang r1 w rest
  | Bol => w = EmptyString
  | Eol => w = EmptyString /\ rest = EmptyString
  | WordB => w = EmptyString
  end.

End Matcher.

(** [re.exec(s)] for a regular expression without the flag /g: the captures
    of the leftmost match, [None] for [null]. *)
Definition exec (icase : bool) (r : regex) (s : string) : option Captures :=
  match exec_from icase s r None 0 s with
  | Some st => Some (m_caps st)
  | None => None
  end.

(** [re.test(s)] *)
Definition test (icase : bool) (r : regex) (s : string) : bool :=
  match exec icase r s with Some _ => true | None => false end.

(** A whole-string match exists (for patterns anchored at both ends). *)
Definition accepts (icase : bool) (r : regex) (s : string) : Prop :=
  exists st', matches icase s r (mkM None 0 s []) st'.

End Regex.

(* ===================================================================== *)
(** * Request payloads posted to /query                                    *)
(* ===================================================================== *)

Module Payload.

(** The two input shapes of the endpoint: [{ query: text }] and
    [{ action: ..., ...fields }]. *)
Inductive Request :=
| Query (text : string)
| Action (action : string)
| ReminderSnooze (id : Z) (minutes : Z).   (* action: 'reminder_snooze' *)

End Payload.

(* ===================================================================== *)
(** * The command-dispatch entry point, for structured reminder commands   *)
(* ===================================================================== *)

Module Endpoint.

Import Payload.


End Endpoint.

(* ===================================================================== *)
(** * Interval timers                                                      *)
(* ===================================================================== *)

Module Timers.

Import Payload.

(** The timer queue of one JavaScript process, in nominal milliseconds
    since the process started, together with the requests it has posted.
    Only [setInterval] timers are modelled; a callback runs to completion
    at the instant its timer fires. *)
Section Loop.

Variable Cb : Type.

Record Timer := mkTimer {
  t_id : nat;
  t_callback : Cb;
  t_period : Z;
  t_next : Z
}.

Record Loop := mkLoop {
  now : Z;
  timers : list Timer;
  outbox : list (Z * Request)
}.

Definition start : Loop := mkLoop 0 [] [].

(** [setInterval(cb, ms)]: first run [ms] from now. *)
Definition setInterval (cb : Cb) (ms : Z) (l : Loop) : Loop :=
  mkLoop (now l)
         (timers l ++ [mkTimer (length (timers l)) cb ms (now l + ms)])
         (outbox l).

(** A request leaves the process at the current instant. *)
Definition post (req : Request) (l : Loop) : Loop :=
  mkLoop (now l) (timers l) (outbox l ++ [(now l, req)]).

(** The timer due first; the one registered first among equals. *)
Fixpoint earliest (ts : list Timer) : option Timer :=
  match ts with
  | [] => None
  | t :: rest =>
      match earliest rest with
      | None => Some t
      | Some u => if t_next t <=? t_next u then Some t else Some u
      end
  end.

Definition reschedule (id : nat) (ts : list Timer) : list Timer :=
  map (fun t => if Nat.eqb (t_id t) id
                then mkTimer (t_id t) (t_callback t) (t_period t)
                             (t_next t + t_period t)
                else t) ts.

Variable handler : Cb -> Loop -> Loop.

(** The clock moves to the next due timer; the timer is set again one
    period later and its callback runs. *)
Definition fire_next (l : Loop) : Loop :=
  match earliest (timers l) with
  | None => l
  | Some t =>
      handler (t_callback t)
              (mkLoop (t_next t) (reschedule (t_id t) (timers l)) (outbox l))
  end.

Fixpoint run_firings (n : nat) (l : Loop) : Loop :=
  match n with
  | O => l
  | S n' => run_firings n' (fire_next l)
  end.

End Loop.

(** One request [req] at each of the instants [period * from],
    [period * (from + 1)], ..., [n] of them. *)
Definition ticks (period : Z) (req : Request) (from : Z) (n : nat)
  : list (Z * Request) :=
  map (fun i => (period * (from + Z.of_nat i), req)) (seq 0 n).

Arguments mkTimer {Cb}.
Arguments t_id {Cb}.
Arguments t_callback {Cb}.
Arguments t_period {Cb}.
Arguments t_next {Cb}.
Arguments mkLoop {Cb}.
Arguments now {Cb}.
Arguments timers {Cb}.
Arguments outbox {Cb}.
Arguments start {Cb}.
Arguments setInterval {Cb}.
Arguments post {Cb}.
Arguments earliest {Cb}.
Arguments reschedule {Cb}.
Arguments fire_next {Cb}.
Arguments run_firings {Cb}.

End Timers.

(* ===================================================================== *)
(** * frontend/src/App.js                                                  *)
(* ===================================================================== *)

Module App.

Import Js Regex Payload.

Local Open Scope string_scope.

Definition digit : regex := Cls isDigit.

(** /^(\d{1,2})(?::(\d{2}))?(?::(\d{2}))?\s*(am|pm)?$/ *)
Definition time_re : regex :=
  Seq Bol
 (Seq (Grp 1 (Seq digit (Opt digit)))
 (Seq (Opt (Seq (Chr ":") (Grp 2 (Seq digit digit))))
 (Seq (Opt (Seq (Chr ":") (Grp 3 (Seq digit digit))))
 (Seq (StarCls isWhiteSpace)
 (Seq (Opt (Grp 4 (Alt (Lit "am") (Lit "pm"))))
      Eol))))).

(** The texts the time pattern is written for: one or two hour digits,
    optionally ":mm", optionally ":ss" after that, optional white space and
    optionally "am" or "pm". *)
Inductive MinSec :=
| NoMin
| Min (m1 m2 : ascii)
| MinAndSec (m1 m2 s1 s2 : ascii).

Record TimeText := mkTimeText {
  tt_h1 : ascii;
  tt_h2 : option ascii;
  tt_minsec : MinSec;
  tt_ws : string;
  tt_ampm : option bool          (* [Some true] is pm, [Some false] is am *)
}.

Definition opt_char (c : option ascii) : string :=
  match c with Some x => String x "" | None => "" end.

Definition render_minsec (ms : MinSec) : string :=
  match ms with
  | NoMin => ""
  | Min m1 m2 => String ":" (String m1 (String m2 ""))
  | MinAndSec m1 m2 s1 s2 =>
      String ":" (String m1 (String m2 (String ":" (String s1 (String s2 "")))))
  end.

Definition render_ampm (ap : option bool) : string :=
  match ap with
  | None => ""
  | Some true => "pm"
  | Some false => "am"
  end.

Definition render (tt : TimeText) : string :=
  String (tt_h1 tt) (opt_char (tt_h2 tt))
  ++ render_minsec (tt_minsec tt) ++ tt_ws tt ++ render_ampm (tt_ampm tt).

Definition opt_digit (c : option ascii) : bool :=
  match c with Some x => isDigit x | None => true end.

Definition minsec_digits (ms : MinSec) : bool :=
  match ms with
  | NoMin => true
  | Min m1 m2 => isDigit m1 && isDigit m2
  | MinAndSec m1 m2 s1 s2 => isDigit m1 && isDigit m2 && isDigit s1 && isDigit s2
  end.

Definition tt_wf (tt : TimeText) : bool :=
  isDigit (tt_h1 tt) && opt_digit (tt_h2 tt) && minsec_digits (tt_minsec tt)
  && all_cls isWhiteSpace (tt_ws tt).

Definition two_digits (a b : ascii) : Z := 10 * digit_val a + digit_val b.

Definition tt_hour (tt : TimeText) : Z :=
  match tt_h2 tt with
  | None => digit_val (tt_h1 tt)
  | Some c => two_digits (tt_h1 tt) c
  end.

Definition tt_minute (tt : TimeText) : Z :=
  match tt_minsec tt with
  | NoMin => 0
  | Min m1 m2 => two_digits m1 m2
  | MinAndSec m1 m2 _ _ => two_digits m1 m2
  end.

Definition tt_second (tt : TimeText) : Z :=
  match tt_minsec tt with
  | MinAndSec _ _ s1 s2 => two_digits s1 s2
  | _ => 0
  end.

(** The hour on the 24-hour clock: 12 am is 0, pm adds 12 except to 12. *)
Definition tt_hour24 (tt : TimeText) : Z :=
  let h := tt_hour tt in
  match tt_ampm tt with
  | Some true => if (h =? 12)%Z then h else h + 12
  | Some false => if (h =? 12)%Z then 0 else h
  | None => h
  end.

(** The minutes since midnight the text stands for. *)
Definition tt_total (tt : TimeText) : Z :=
  (tt_hour24 tt * 3600 + tt_minute tt * 60 + tt_second tt) / 60.

(** The captures of the time pattern on such a text. *)
Definition tt_captures (tt : TimeText) : Captures :=
  (match tt_ampm tt with
   | Some ap => [(4%nat, render_ampm (Some ap))]
   | None => []
   end
   ++ match tt_minsec tt with
      | MinAndSec _ _ s1 s2 => [(3%nat, String s1 (String s2 ""))]
      | _ => []
      end
   ++ match tt_minsec tt with
      | NoMin => []
      | Min m1 m2 => [(2%nat, String m1 (String m2 ""))]
      | MinAndSec m1 m2 _ _ => [(2%nat, String m1 (String m2 ""))]
      end
   ++ [(1%nat, String (tt_h1 tt) (opt_char (tt_h2 tt)))])%list.

Definition is_time_text (s : string) : Prop :=
  exists tt, tt_wf tt = true /\ s = render tt.

(** [parseInt(g || '0', 10)] on a capture. *)
Definition parse_or_zero (g : option string) : number :=
  match or_else g (Some "0") with
  | Some s => parseInt s
  | None => NaN
  end.

(** [parseInt(m[1], 10)]; an undefined capture would parse as NaN. *)
Definition parse_group (g : option string) : number :=
  match g with
  | Some s => parseInt s
  | None => NaN
  end.

Definition is_str (g : option string) (s : string) : bool :=
  match g with
  | Some x => String.eqb x s
  | None => false
  end.

(** [timeToMinutes]: parse "14:00", "14:00:30", or "2:00 pm" to minutes
    since midnight; [None] is the JavaScript [null]. *)
Definition timeToMinutes (t : option string) : option number :=
  if negb (truthy t) then None
  else
    match t with
    | None => None
    | Some t =>
        let s := toLowerCase (trim t) in
        match exec false time_re s with
        | None => None
        | Some m =>
            let hh := parse_group (group m 1) in
            let mm := parse_or_zero (group m 2) in
            let ss := parse_or_zero (group m 3) in
            let ampm := group m 4 in
            let hh := if is_str ampm "pm" && negb (num_eqb hh 12)
                      then num_add hh (Num 12) else hh in
            let hh := if is_str ampm "am" && num_eqb hh 12 then Num 0 else hh in
            Some (num_floor_div
                    (num_add (num_add (num_mul hh (Num 3600)) (num_mul mm (Num 60))) ss)
                    60)
        end
    end.

(** The appointment fields [durationFromAppt] reads; each may be missing. *)
Record Appt := mkAppt {
  start_time : option string;
  start : option string;
  end_time : option string;
  end_ : option string
}.

(** [durationFromAppt] *)
Definition durationFromAppt (a : Appt) : number :=
  let s := timeToMinutes (or_else (start_time a) (start a)) in
  let e := timeToMinutes (or_else (end_time a) (end_ a)) in
  match s, e with
  | Some s, Some e =>
      let d := num_sub e s in
      if num_gtb d 0 then d else Num 60
  | _, _ => Num 60          (* safe default *)
  end.

(** The keyword tests of [handleQuery]. *)

(** /(schedule|create|add|book|hold|block|reserve|set up|set-up|set\s+up)/i *)
Definition createLike_re : regex :=
  AltOf [ Lit "schedule"; Lit "create"; Lit "add"; Lit "book"; Lit "hold";
          Lit "block"; Lit "reserve"; Lit "set up"; Lit "set-up";
          Seq (Lit "set") (Seq (PlusCls isWhiteSpace) (Lit "up")) ].

(** /(move|reschedule|change|edit|update|shift|rename|retitle)/i *)
Definition modifyLike_re : regex :=
  AltOf [ Lit "move"; Lit "reschedule"; Lit "change"; Lit "edit";
          Lit "update"; Lit "shift"; Lit "rename"; Lit "retitle" ].

(** /(cancel|delete|remove|clear)/i *)
Definition cancelLike_re : regex :=
  AltOf [ Lit "cancel"; Lit "delete"; Lit "remove"; Lit "clear" ].

(** The words of that pattern: they mark a cancel or delete request. *)
Definition cancel_keywords : list string := ["cancel"; "delete"; "remove"; "clear"].

(** /(free|available|availability|open|slot|free time)/i *)
Definition wantsFree_re : regex :=
  AltOf [ Lit "free"; Lit "available"; Lit "availability"; Lit "open";
          Lit "slot"; Lit "free time" ].

(** /\bbetween\b/i *)
Definition between_re : regex := Seq WordB (Seq (Lit "between") WordB).

(** /\bthis week\b/i *)
Definition thisWeek_re : regex := Seq WordB (Seq (Lit "this week") WordB).

(** /\btoday\b/i *)
Definition today_re : regex := Seq WordB (Seq (Lit "today") WordB).

(** The guard of the structured shortcuts:
    [!isCreateLike && !isModifyLike && !isCancelLike && !wantsFree &&
     !mentionsBetween]. *)
Definition shortcut_eligible (lower : string) : bool :=
  negb (test true createLike_re lower)
  && negb (test true modifyLike_re lower)
  && negb (test true cancelLike_re lower)
  && negb (test true wantsFree_re lower)
  && negb (test true between_re lower).

(** [handleQuery]: the payload posted for the text in the chat box, [None]
    when the handler returns before posting (blank input). *)
Definition handleQuery (query : string) : option Request :=
  let trimmed := trim query in
  if negb (truthy (Some trimmed)) then None
  else
    let lower := toLowerCase trimmed in
    let payload := Query trimmed in
    let payload :=
      if shortcut_eligible lower then
        if test true thisWeek_re lower then Action "this_week"
        else if test true today_re lower then Action "today"
        else payload
      else payload in
    Some payload.

(** [handleVoiceTranscript]: the transcript is posted as it is. *)
Definition handleVoiceTranscript (text : option string) : option Request :=
  let trimmed :=
    match or_else text (Some "") with
    | Some s => trim s
    | None => ""
    end in
  if negb (truthy (Some trimmed)) then None
  else Some (Query trimmed).

(** The reminder object of the UI state, as far as the snooze action reads
    it. *)
Record UiReminder := mkUiReminder {
  id : Z
}.

(** [snoozeReminder(r, minutes = 10)]: [None] for an omitted argument. *)
Definition snoozeReminder (r : UiReminder) (minutes : option Z) : Request :=
  let minutes := match minutes with Some m => m | None => 10 end in
  ReminderSnooze (id r) minutes.

(** The controls that snooze: the button of a toast and the button of a
    row of the Reminders panel. *)
Inductive SnoozeControl :=
| ToastSnoozeButton
| PanelSnoozeButton.

(** The [onClick] handlers of the two controls. *)
Definition onClick (c : SnoozeControl) (r : UiReminder) : Request :=
  match c with
  | ToastSnoozeButton => snoozeReminder r (Some 10)
  | PanelSnoozeButton => snoozeReminder r (Some 10)
  end.

(** The reminders polling effect: [poll(); setInterval(poll, 60000)]. *)
Inductive Callback := CbPoll.

(** [poll]: posts [{ action: 'reminders_due' }]. *)
Definition poll (l : Timers.Loop Callback) : Timers.Loop Callback :=
  Timers.post (Action "reminders_due") l.

Definition handler (cb : Callback) : Timers.Loop Callback -> Timers.Loop Callback :=
  match cb with
  | CbPoll => poll
  end.

Definition remindersEffect (l : Timers.Loop Callback) : Timers.Loop Callback :=
  Timers.setInterval CbPoll 60000 (poll l).

End App.

(* ===================================================================== *)
(** * frontend/src/components: ChatLayout.jsx and FreeVoiceAssistant.jsx   *)
(* ===================================================================== *)

Module ChatLayout.

Import Js Payload.

Local Open Scope string_scope.

(** [sendQuery]: "structured shortcuts same as App.js". *)
Definition sendQuery (query : string) : option Request :=
  let trimmed := trim query in
  if negb (truthy (Some trimmed)) then None
  else
    let lower := toLowerCase trimmed in
    Some (if includes lower "today" then Action "today"
          else if includes lower "this week" then Action "this_week"
          else Query trimmed).

End ChatLayout.

Module VoiceAssistant.

Import Js Payload.

(** [callBackend]: a non-empty command is posted as a query; for an empty
    one the assistant greets and posts nothing. *)
Definition callBackend (text : string) : option Request :=
  if negb (truthy (Some text)) then None
  else Some (Query text).

End VoiceAssistant.

(* ===================================================================== *)
(** * frontend/electron/main.js                                            *)
(* ===================================================================== *)

Module ElectronMain.

Import Payload.

Local Open Scope string_scope.

(** poll backend for due reminders every 60s (main process) *)
Definition POLL_MS : Z := 60000.

(** A due reminder as the backend sends it, as far as the main process
    reads it. *)
Record Reminder := mkReminder {
  id : Z;
  title : option string;
  appointment_id : option Z
}.

(** A native notification; its body text is formatting only and is left
    out. *)
Record Notification := mkNotification {
  n_reminder : Z;
  n_title : string
}.

(** Messages to the renderer over [win.webContents.send]. *)
Inductive RendererMsg :=
| ReminderNotify (r : Reminder)        (* 'reminder:notify' *)
| ReminderDismissed (id : Z)           (* 'reminder:dismissed' *)
| AppointmentOpen (id : Z)             (* 'appointment:open' *)
| Navigate (path : string).            (* 'navigate' *)

(** The state of the main process: [ringing] maps a reminder id to the
    number of repeats its alarm timer has played, [notified] is the set of
    reminders already notified. *)
Record MainState := mkMain {
  ringing : gmap Z nat;
  notified : gset Z;
  shown : list Notification;
  sent : list RendererMsg;
  win_alive : bool;
  sounds : nat
}.

Definition initial : MainState := mkMain ∅ ∅ [] [] true 0.

Definition send (msg : RendererMsg) (st : MainState) : MainState :=
  if win_alive st
  then mkMain (ringing st) (notified st) (shown st) (sent st ++ [msg])
              (win_alive st) (sounds st)
  else st.

Definition playAlarmOnce (st : MainState) : MainState :=
  mkMain (ringing st) (notified st) (shown st) (sent st) (win_alive st)
         (S (sounds st)).

(** [startAlarm(id, repeats = 3, gapMs = 5000)] *)
Definition startAlarm (id : Z) (st : MainState) : MainState :=
  match ringing st !! id with
  | Some _ => st
  | None =>
      let st := playAlarmOnce st in
      mkMain (<[id := O]> (ringing st)) (notified st) (shown st) (sent st)
             (win_alive st) (sounds st)
  end.

(** One run of the interval callback of [startAlarm]; a cleared timer does
    not run. *)
Definition alarmTick (id : Z) (st : MainState) : MainState :=
  match ringing st !! id with
  | None => st
  | Some count =>
      let count := S count in
      if (3 <=? count)%nat
      then mkMain (delete id (ringing st)) (notified st) (shown st) (sent st)
                  (win_alive st) (sounds st)
      else playAlarmOnce
             (mkMain (<[id := count]> (ringing st)) (notified st) (shown st)
                     (sent st) (win_alive st) (sounds st))
  end.

(** [stopAlarm(id)] *)
Definition stopAlarm (id : Z) (st : MainState) : MainState :=
  match ringing st !! id with
  | Some _ =>
      mkMain (delete id (ringing st)) (notified st) (shown st) (sent st)
             (win_alive st) (sounds st)
  | None => st
  end.

(** [sendDismiss] of a notification. *)
Definition sendDismiss (id : Z) (st : MainState) : MainState :=
  send (ReminderDismissed id) (stopAlarm id st).

(** [showNativeReminder(r)]; [None] is a missing reminder. *)
Definition showNativeReminder (r : option Reminder) (st : MainState) : MainState :=
  match r with
  | None => st
  | Some r =>
      if decide (id r ∈ notified st) then st
      else
        let n := mkNotification (id r)
                   (match title r with
                    | Some (String c t) => String c t
                    | _ => "Reminder"
                    end) in
        send (ReminderNotify r)
             (mkMain (ringing st) ({[ id r ]} ∪ notified st) (shown st ++ [n])
                     (sent st) (win_alive st) (sounds st))
  end.

(** What the main process reacts to. *)
Inductive Event :=
| IpcNotifyReminder (r : option Reminder)            (* 'notify:reminder' *)
| IpcAlarmStop (id : Z)                              (* 'alarm:stop' *)
| PollResponse (due_reminders : option (list (option Reminder)))
| PollFailed
| NotificationShow (id : Z)
| NotificationClick (r : Reminder)
| NotificationClose (id : Z)
| AlarmTick (id : Z)
| WindowDestroyed
| Activate.

(** The notification's click handler. *)
Definition onClick (r : Reminder) (st : MainState) : MainState :=
  let st :=
    if win_alive st then
      match appointment_id r with
      | Some a => if (a =? 0)%Z then send (Navigate "/appointments") st
                  else send (AppointmentOpen a) st
      | None => send (Navigate "/appointments") st
      end
    else st in
  sendDismiss (id r) st.

Definition handle (ev : Event) (st : MainState) : MainState :=
  match ev with
  | IpcNotifyReminder r => showNativeReminder r st
  | IpcAlarmStop i => stopAlarm i st
  | PollResponse (Some rs) => fold_left (fun s r => showNativeReminder r s) rs st
  | PollResponse None => st
  | PollFailed => st
  | NotificationShow i => startAlarm i st
  | NotificationClick r => onClick r st
  | NotificationClose i => sendDismiss i st
  | AlarmTick i => alarmTick i st
  | WindowDestroyed =>
      mkMain (ringing st) (notified st) (shown st) (sent st) false (sounds st)
  | Activate =>
      mkMain (ringing st) (notified st) (shown st) (sent st) true (sounds st)
  end.

Definition run (evs : list Event) (st : MainState) : MainState :=
  fold_left (fun s ev => handle ev s) evs st.

(** What only [showNativeReminder] touches. *)
Definition same_notifications (st st' : MainState) : Prop :=
  notified st' = notified st /\ shown st' = shown st.

(** Every notification shown belongs to a notified reminder, and no
    reminder has two. *)
Definition once_each (st : MainState) : Prop :=
  NoDup (map n_reminder (shown st))
  /\ forall i, In i (map n_reminder (shown st)) -> i ∈ notified st.

(** The polling of the main process:
    [setInterval(pollDueReminders, POLL_MS); pollDueReminders()]. *)
Inductive Callback := CbPollDueReminders.

(** [pollDueReminders], up to the request it posts. *)
Definition pollDueReminders (l : Timers.Loop Callback) : Timers.Loop Callback :=
  Timers.post (Action "reminders_due") l.

Definition handler (cb : Callback) : Timers.Loop Callback -> Timers.Loop Callback :=
  match cb with
  | CbPollDueReminders => pollDueReminders
  end.

Definition whenReady (l : Timers.Loop Callback) : Timers.Loop Callback :=
  pollDueReminders (Timers.setInterval CbPollDueReminders POLL_MS l).

End ElectronMain.

(* ===================================================================== *)
(** * JSON values and objects                                              *)
(* ===================================================================== *)

Module Json.

Local Open Scope string_scope.

(** The primitive values of a JSON answer; numbers are the integers.  A
    missing property reads [undefined], which is [None] below. *)
Inductive value :=
| JNull
| JBool (b : bool)
| JNum (z : Z)
| JStr (s : string).

(** A flat object: its own properties and their values. *)
Abbreviation obj := (gmap string value).

(** Truthiness ([!v], [v && ...], [v || ...]). *)
Definition truthy (v : option value) : bool :=
  match v with
  | None => false
  | Some JNull => false
  | Some (JBool b) => b
  | Some (JNum z) => negb (z =? 0)%Z
  | Some (JStr s) => negb (String.eqb s "")
  end.

Definition value_eqb (a b : value) : bool :=
  match a, b with
  | JNull, JNull => true
  | JBool x, JBool y => Bool.eqb x y
  | JNum x, JNum y => (x =? y)%Z
  | JStr x, JStr y => String.eqb x y
  | _, _ => false
  end.

(** [a === b] *)
Definition strict_eq (a b : option value) : bool :=
  match a, b with
  | None, None => true
  | Some x, Some y => value_eqb x y
  | _, _ => false
  end.

(** [a || b] *)
Definition or_ (a b : option value) : option value :=
  if truthy a then a else b.

(** [a ?? b] *)
Definition nullish_or (a b : option value) : option value :=
  match a with
  | None => b
  | Some JNull => b
  | Some _ => a
  end.

(** [String(v)], also the text a template literal inserts. *)
Definition toString (v : option value) : string :=
  match v with
  | None => "undefined"
  | Some JNull => "null"
  | Some (JBool true) => "true"
  | Some (JBool false) => "false"
  | Some (JNum z) => NilEmpty.string_of_int (Z.to_int z)
  | Some (JStr s) => s
  end.

End Json.

(* ===================================================================== *)
(** * frontend/src/App.js: the lists of the UI state                       *)
(* ===================================================================== *)

Module AppState.

Import Json.

Local Open Scope string_scope.

(** The appointment lists of the component state. *)
Record Lists := mkLists {
  appointments : list obj;
  createdAppts : list obj
}.

(** [getApptById]: lookup an appointment by id from current UI state. *)
Definition getApptById (id : option value) (st : Lists) : option obj :=
  if negb (truthy id) then None
  else
    match find (fun a => strict_eq (a !! "id") id) (createdAppts st) with
    | Some a => Some a
    | None => find (fun a => strict_eq (a !! "id") id) (appointments st)
    end.

(** [key] of [updateLocalAppointment]:
    [x?.id ?? `${x.date}-${(x.start_time || x.start)}-${(x.end_time || x.end)}`] *)
Definition key (x : obj) : option value :=
  nullish_or (x !! "id")
    (Some (JStr (toString (x !! "date") ++ "-"
                 ++ toString (or_ (x !! "start_time") (x !! "start")) ++ "-"
                 ++ toString (or_ (x !! "end_time") (x !! "end"))))).

(** The test of [mergeOne]. *)
Definition same_appt (updated x : obj) : bool :=
  (truthy (updated !! "id") && strict_eq (x !! "id") (updated !! "id"))
  || (negb (truthy (updated !! "id")) && strict_eq (key x) (key updated)).

(** [mergeOne]; [{ ...x, ...updated }] is the union that prefers [updated]. *)
Definition mergeOne (updated : obj) (lst : list obj) : list obj :=
  map (fun x => if same_appt updated x then updated ∪ x else x) lst.

(** [updateLocalAppointment]: keep UI in sync after update. *)
Definition updateLocalAppointment (updated : obj) (st : Lists) : Lists :=
  mkLists (mergeOne updated (appointments st)) (mergeOne updated (createdAppts st)).

(** [removeLocalById] *)
Definition removeLocalById (id : option value) (st : Lists) : Lists :=
  if negb (truthy id) then st
  else mkLists (List.filter (fun x => negb (strict_eq (x !! "id") id)) (appointments st))
               (List.filter (fun x => negb (strict_eq (x !! "id") id)) (createdAppts st)).

End AppState.

(* ===================================================================== *)
(** * frontend/src/App.js: rescheduling from the appointment row           *)
(* ===================================================================== *)

Module AppActions.

Import Js Json.

Local Open Scope string_scope.

(** [timeToMinutes] on a property of an appointment object: a falsy value
    gives null, any other value is read through [String(t)]. *)
Definition timeToMinutes (t : option value) : option number :=
  if negb (truthy t) then None
  else App.timeToMinutes (Some (toString t)).

(** [durationFromAppt] on an appointment object. *)
Definition durationFromAppt (a : obj) : number :=
  let s := timeToMinutes (or_ (a !! "start_time") (a !! "start")) in
  let e := timeToMinutes (or_ (a !! "end_time") (a !! "end")) in
  match s, e with
  | Some s, Some e =>
      let d := num_sub e s in
      if num_gtb d 0 then d else Num 60
  | _, _ => Num 60
  end.




End AppActions.

(* ===================================================================== *)
(** * frontend/src/App.js: hooks/useSpeech.js and the microphone button    *)
(* ===================================================================== *)

Module Speech.

Import Js Payload.

Local Open Scope string_scope.

Record State := mkState {
  listening : bool;
  interimText : string;
  finalText : string
}.

Definition initial : State := mkState false "" "".

(** [start]: nothing happens while listening; otherwise both texts are
    cleared. *)
Definition start (st : State) : State :=
  if listening st then st else mkState true "" "".

(** One entry of [e.results]: [isFinal] and the first alternative's
    transcript. *)
Record Result := mkResult {
  isFinal : bool;
  transcript : string
}.

(** The body of the loop of [onresult]; [text] is the local accumulator. *)
Definition onresult_step (acc : string * State) (res : Result) : string * State :=
  let '(text, st) := acc in
  if isFinal res
  then
    let text := text ++ transcript res in
    (text, mkState (listening st) (interimText st) (trim (finalText st ++ " " ++ text)))
  else (text, mkState (listening st) (transcript res) (finalText st)).

(** [recognition.onresult], on the results from [e.resultIndex] on. *)
Definition onresult (results : list Result) (st : State) : State :=
  snd (fold_left onresult_step results ("", st)).

(** [s1 || s2] on strings. *)
Definition str_or (a b : string) : string :=
  if Js.truthy (Some a) then a else b.



End Speech.

(* ===================================================================== *)
(** * frontend/src/components/FreeVoiceAssistant.jsx: the wake loop        *)
(* ===================================================================== *)

Module Wake.

Import Js Regex Payload.

Local Open Scope string_scope.

(** new RegExp("\\b" + "(hey|ok|okay)\\s+(nova|nora|noah)" + "\\b", "i") *)
Definition WAKE_REGEX : regex :=
  Seq WordB
 (Seq (Grp 1 (AltOf [Lit "hey"; Lit "ok"; Lit "okay"]))
 (Seq (PlusCls isWhiteSpace)
 (Seq (Grp 2 (AltOf [Lit "nova"; Lit "nora"; Lit "noah"]))
      WordB))).

(** The leftmost match of a pattern: its start index and the matcher state
    at its end. *)
Fixpoint search_from (icase : bool) (subject : string) (r : regex)
         (prev : option ascii) (pos : nat) (rest : string) : option (nat * MState) :=
  match run icase subject r Some (mkM prev pos rest []) with
  | Some st => Some (pos, st)
  | None =>
      match rest with
      | String c rest' => search_from icase subject r (Some c) (S pos) rest'
      | EmptyString => None
      end
  end.

(** [s.match(re)] without the flag /g: the index and [m[0]]. *)
Definition match_ (icase : bool) (r : regex) (s : string) : option (nat * string) :=
  match search_from icase s r None 0 s with
  | Some (i, st) => Some (i, substring i (m_pos st - i) s)
  | None => None
  end.

(** [s.search(re)]: the index of the leftmost match, -1 when there is
    none. *)
Definition search (icase : bool) (r : regex) (s : string) : Z :=
  match search_from icase s r None 0 s with
  | Some (i, _) => Z.of_nat i
  | None => -1
  end.

(** [s.slice(n)] for an index within the string. *)
Fixpoint slice (n : nat) (s : string) : string :=
  match n, s with
  | O, _ => s
  | S n', String _ r => slice n' r
  | S _, EmptyString => EmptyString
  end.

Record State := mkState {
  buffer : string;
  cooling : bool
}.

(** The transcripts of one result event, each followed by a blank. *)
Fixpoint joined (transcripts : list string) : string :=
  match transcripts with
  | [] => ""
  | t :: rest => t ++ " " ++ joined rest
  end.

(** [onresult] of the wake loop: the new state and, when the wake phrase
    was heard, the command spoken in the same breath. *)
Definition onresult (transcripts : list string) (st : State) : State * option string :=
  let buffer := trim (buffer st ++ " " ++ joined transcripts) in
  match match_ true WAKE_REGEX buffer with
  | Some (_, m0) =>
      if negb (cooling st)
      then
        let after :=
          trim (slice (Z.to_nat (search true WAKE_REGEX buffer + Z.of_nat (String.length m0)))
                      buffer) in
        (mkState "" true, Some after)
      else (mkState buffer (cooling st), None)
  | None => (mkState buffer (cooling st), None)
  end.

(** [handleTurn]: the command spoken with the wake phrase when there is one,
    otherwise what [oneShotListen] heard; then [callBackend]. *)
Definition handleTurn (immediateCmd : string) (heard : string) : option Request :=
  let command := trim (Speech.str_or immediateCmd "") in
  let command := if negb (Js.truthy (Some command)) then heard else command in
  VoiceAssistant.callBackend (Speech.str_or command "").

End Wake.

(* ===================================================================== *)
(** * frontend/src/App.js: the keyword lists of handleQuery                *)
(* ===================================================================== *)

Module Keywords.

Local Open Scope string_scope.

(** The literal alternatives of [isCreateLike] (beside set\s+up). *)
Definition create_keywords : list string :=
  ["schedule"; "create"; "add"; "book"; "hold"; "block"; "reserve"; "set up"; "set-up"].

(** The alternatives of [isModifyLike]. *)
Definition modify_keywords : list string :=
  ["move"; "reschedule"; "change"; "edit"; "update"; "shift"; "rename"; "retitle"].

(** The alternatives of [wantsFree]. *)
Definition free_keywords : list string :=
  ["free"; "available"; "availability"; "open"; "slot"; "free time"].

(** Every literal keyword that keeps a text from the shortcuts. *)
Definition guard_keywords : list string :=
  create_keywords ++ modify_keywords ++ App.cancel_keywords ++ free_keywords.

End Keywords.

(* ===================================================================== *)
(** * frontend/electron/main.js: accounting of the alarm sound            *)
(* ===================================================================== *)

Module Alarms.

Import ElectronMain.

(** The 'show' events of notifications among the events handled. *)
Definition is_show (ev : Event) : bool :=
  match ev with NotificationShow _ => true | _ => false end.

Definition shows (evs : list Event) : nat := length (List.filter is_show evs).

(** The plays the timers registered in [ringing] still have ahead of them:
    a timer whose counter is [count] plays on the ticks that take it to 1
    and to 2, and clears itself on the tick that takes it to 3. *)
Definition pending (st : MainState) : nat :=
  map_fold (fun (_ : Z) (count : nat) (acc : nat) => (2 - count) + acc)%nat 0%nat
           (ringing st).

(** Every counter in [ringing] is below the three repeats. *)
Definition counters_below_repeats (st : MainState) : Prop :=
  forall i count, ringing st !! i = Some count -> (count < 3)%nat.

End Alarms.

(* ===================================================================== *)
(** * Properties of the scheduling engine                                  *)
(* ===================================================================== *)

Section EngineFacts.

Import Engine.

(** ** Overlap *)

Lemma segment_overlaps_sym (a b : TimeInterval) :
  segment_overlaps a b = segment_overlaps b a.
Proof.
  unfold segment_overlaps.
  rewrite (Z.eqb_sym (iv_date a) (iv_date b)).
  destruct (iv_date b =? iv_date a), (iv_start a <? iv_end b),
           (iv_start b <? iv_end a); reflexivity.
Qed.

Lemma existsb_swap {A B : Type} (f : A -> B -> bool) (la : list A) (lb : list B) :
  existsb (fun a => existsb (fun b => f a b) lb) la
  = existsb (fun b => existsb (fun a => f a b) la) lb.
Proof.
  apply eq_true_iff_eq. rewrite !existsb_exists. split.
  - intros (a & Ha & Hb). apply existsb_exists in Hb as (b & Hb & Hf).
    exists b. split; [assumption|]. apply existsb_exists. eauto.
  - intros (b & Hb & Ha). apply existsb_exists in Ha as (a & Ha & Hf).
    exists a. split; [assumption|]. apply existsb_exists. eauto.
Qed.

Lemma existsb_pointwise {A : Type} (f g : A -> bool) (l : list A) :
  (forall x, f x = g x) -> existsb f l = existsb g l.
Proof.
  intros H. induction l as [|x l IH]; simpl; [reflexivity|].
  rewrite H, IH. reflexivity.
Qed.

(** C1. Overlap is symmetric: [overlaps a b] equals [overlaps b a] for every
    pair of intervals, cross-midnight ones included. *)
Theorem overlaps_symmetric (a b : TimeInterval) :
  overlaps a b = overlaps b a.
Proof.
  unfold overlaps. rewrite existsb_swap.
  apply existsb_pointwise. intros sb.
  apply existsb_pointwise. intros sa. apply segment_overlaps_sym.
Qed.

(** For two intervals that stay within their day, [overlaps] is the
    half-open test itself. *)
Lemma overlaps_same_day (a b : TimeInterval) :
  iv_start a < iv_end a -> iv_start b < iv_end b ->
  (overlaps a b = true <->
   iv_date a = iv_date b /\ iv_start a < iv_end b /\ iv_start b < iv_end a).
Proof.
  intros Ha Hb. unfold overlaps, segments.
  destruct (Z.leb_spec (iv_end a) (iv_start a)); [lia|].
  destruct (Z.leb_spec (iv_end b) (iv_start b)); [lia|].
  simpl. rewrite !orb_false_r. unfold segment_overlaps.
  rewrite !andb_true_iff, Z.eqb_eq, !Z.ltb_lt. tauto.
Qed.

(** Touching endpoints do not overlap. *)
Lemma overlaps_touching (d s m e : Z) :
  s < m -> m < e ->
  overlaps (mkInterval d s m) (mkInterval d m e) = false.
Proof.
  intros H1 H2. apply not_true_iff_false. rewrite overlaps_same_day; simpl; lia.
Qed.

(** The scenario of the spec: 22:00-01:00 on day 0 overlaps 00:30-01:00 on
    day 1 and does not overlap 02:00-03:00 on day 1. *)
Example cross_midnight_scenario :
  overlaps (mkInterval 0 1320 60) (mkInterval 1 30 60) = true
  /\ overlaps (mkInterval 0 1320 60) (mkInterval 1 120 180) = false.
Proof. split; reflexivity. Qed.

(** ** Bulk insertion *)

Lemma chrono_insert_perm (o : Occurrence) (l : list Occurrence) :
  Permutation (o :: l) (chrono_insert o l).
Proof.
  induction l as [|x l IH]; simpl.
  - apply Permutation_refl.
  - destruct (chrono_leb o x).
    + apply Permutation_refl.
    + eapply perm_trans; [apply perm_swap|]. apply perm_skip. exact IH.
Qed.

Lemma chrono_sort_perm (l : list Occurrence) :
  Permutation l (chrono_sort l).
Proof.
  induction l as [|x l IH]; simpl.
  - apply perm_nil.
  - eapply perm_trans; [apply perm_skip; exact IH|]. apply chrono_insert_perm.
Qed.

Lemma chrono_leb_total (a b : Occurrence) :
  chrono_leb a b = false -> chrono_leb b a = true.
Proof.
  unfold chrono_leb. intros H.
  apply orb_false_iff in H as [H1 H2]. apply Z.ltb_ge in H1.
  apply andb_false_iff in H2.
  apply orb_true_iff.
  destruct (Z.ltb_spec (occ_date b) (occ_date a)); [left; reflexivity|right].
  assert (E : occ_date a = occ_date b) by lia.
  destruct H2 as [H2|H2]; [apply Z.eqb_neq in H2; contradiction|].
  apply Z.leb_gt in H2. apply andb_true_iff. split; [apply Z.eqb_eq | apply Z.leb_le]; lia.
Qed.

Lemma chrono_insert_sorted (o : Occurrence) (l : list Occurrence) :
  Sorted (fun a b => chrono_leb a b = true) l ->
  Sorted (fun a b => chrono_leb a b = true) (chrono_insert o l).
Proof.
  induction l as [|x l IH]; intros Hs; cbn [chrono_insert].
  - repeat constructor.
  - destruct (chrono_leb o x) eqn:E.
    + constructor; [exact Hs | constructor; exact E].
    + apply Sorted_inv in Hs as [Hs Hhd]. constructor; [apply IH; exact Hs|].
      destruct l as [|y l]; cbn [chrono_insert].
      * constructor. apply chrono_leb_total, E.
      * destruct (chrono_leb o y); constructor.
        -- apply chrono_leb_total, E.
        -- inversion Hhd; assumption.
Qed.

(** The batch is processed in ascending chronological order. *)
Lemma chrono_sort_sorted (l : list Occurrence) :
  Sorted (fun a b => chrono_leb a b = true) (chrono_sort l).
Proof.
  induction l as [|x l IH]; cbn [chrono_sort]; [constructor|].
  apply chrono_insert_sorted, IH.
Qed.
Lemma insertAppointment_occurrence (o : Occurrence) (s : Store) :
  appt_occurrence (fst (insertAppointment o s)) = o.
Proof. destruct o; reflexivity. Qed.

Lemma bulk_step_accounted (res : BulkResult) (s : Store) (seen : list Occurrence)
      (o : Occurrence) :
  bulk_accounted res seen ->
  bulk_accounted (fst (bulk_step (res, s) o)) (seen ++ [o]).
Proof.
  intros [Hperm Hskip]. unfold bulk_step, insertAppointment.
  destruct (findConflicts o (st_appts s)) as [|c cs];
    unfold bulk_accounted; cbn [fst created skipped].
  - split; [|exact Hskip].
    rewrite map_app. cbn [map].
    replace (appt_occurrence _) with o by (destruct o; reflexivity).
    rewrite <- app_assoc. cbn [app].
    eapply perm_trans; [apply Permutation_sym, Permutation_middle|].
    eapply perm_trans; [|apply Permutation_cons_append].
    apply perm_skip. exact Hperm.
  - split.
    + rewrite map_app, app_assoc. cbn [map fst].
      apply Permutation_app_tail. exact Hperm.
    + apply Forall_app. split; [exact Hskip|].
      constructor; [simpl; discriminate | constructor].
Qed.

Lemma bulk_fold_accounted (l : list Occurrence) :
  forall (res : BulkResult) (s : Store) (seen : list Occurrence),
    bulk_accounted res seen ->
    bulk_accounted (fst (fold_left bulk_step l (res, s))) (seen ++ l).
Proof.
  induction l as [|o l IH]; intros res s seen H; cbn [fold_left].
  - rewrite app_nil_r. exact H.
  - pose proof (bulk_step_accounted res s seen o H) as Hstep.
    destruct (bulk_step (res, s) o) as [res1 s1] eqn:E. cbn [fst] in Hstep.
    replace (seen ++ o :: l) with ((seen ++ [o]) ++ l)
      by (rewrite <- app_assoc; reflexivity).
    apply IH. exact Hstep.
Qed.

Lemma filter_nil_none {A : Type} (f : A -> bool) (l : list A) :
  List.filter f l = [] -> forall x, In x l -> f x = false.
Proof.
  induction l as [|y l IH]; intros H x Hin; [contradiction|].
  cbn [List.filter] in H. destruct (f y) eqn:E; [discriminate|].
  destruct Hin as [<-|Hin]; [exact E | exact (IH H x Hin)].
Qed.

(** An occurrence without conflicts overlaps nothing in the store. *)
Lemma findConflicts_nil (o : Occurrence) (existing : list Appointment) :
  findConflicts o existing = [] ->
  forall b, In b existing -> overlaps (occ_interval o) (appt_interval b) = false.
Proof.
  unfold findConflicts. intros H b Hb. apply map_eq_nil in H.
  exact (filter_nil_none _ _ H b Hb).
Qed.

(** A conflict pair joins the candidate with a stored appointment that
    overlaps it. *)
Lemma findConflicts_In (o : Occurrence) (existing : list Appointment) (c : ConflictPair) :
  In c (findConflicts o existing) ->
  snd c = o /\ In (fst c) existing
  /\ overlaps (occ_interval o) (appt_interval (fst c)) = true.
Proof.
  unfold findConflicts. intros H. apply in_map_iff in H as (b & <- & Hb).
  apply filter_In in Hb as [Hin Hov]. cbn [fst snd]. auto.
Qed.

Lemma app_tail_split {A : Type} (l pre post : list A) (a x : A) :
  l ++ [a] = pre ++ x :: post ->
  (post = [] /\ pre = l /\ x = a)
  \/ exists post', post = post' ++ [a] /\ l = pre ++ x :: post'.
Proof.
  destruct post as [|y post] using rev_ind; intros H.
  - left. apply app_inj_tail in H as [-> ->]. auto.
  - right. exists post. split; [|].
    + replace (pre ++ x :: post ++ [y]) with ((pre ++ x :: post) ++ [y]) in H
        by (rewrite <- app_assoc; reflexivity).
      apply app_inj_tail in H as [_ ->]. reflexivity.
    + replace (pre ++ x :: post ++ [y]) with ((pre ++ x :: post) ++ [y]) in H
        by (rewrite <- app_assoc; reflexivity).
      apply app_inj_tail in H as [-> _]. reflexivity.
Qed.

Lemma bulk_step_checked (s0 : Store) (res : BulkResult) (s : Store) (o : Occurrence) :
  bulk_checked s0 res s ->
  bulk_checked s0 (fst (bulk_step (res, s) o)) (snd (bulk_step (res, s) o)).
Proof.
  intros (Hst & Hcr & Hsk). unfold bulk_step, insertAppointment.
  destruct (findConflicts o (st_appts s)) as [|c cs] eqn:E;
    unfold bulk_checked; cbn [fst snd created skipped st_appts].
  - split; [|split].
    + rewrite Hst, app_assoc. reflexivity.
    + intros pre a post Hsplit b Hb.
      apply app_tail_split in Hsplit as [(-> & -> & ->)|(post' & -> & Hsplit)].
      * rewrite <- Hst in Hb. exact (findConflicts_nil o (st_appts s) E b Hb).
      * exact (Hcr pre a post' Hsplit b Hb).
    + intros o' cs' Hin. destruct (Hsk o' cs' Hin) as (Hne & pre & post & Hsplit & Hcs).
      split; [exact Hne|]. exists pre, (post ++ [mkAppointment (st_next_id s) (occ_date o)
                                                  (occ_start o) (occ_end o) (occ_title o)]).
      rewrite Hsplit, app_assoc. auto.
  - split; [exact Hst|]. split; [exact Hcr|].
    intros o' cs' Hin. apply in_app_or in Hin as [Hin|[Hin|[]]].
    + exact (Hsk o' cs' Hin).
    + injection Hin as <- <-. split; [discriminate|].
      exists (created res), []. rewrite app_nil_r, <- Hst. auto.
Qed.

Lemma bulk_fold_checked (s0 : Store) (l : list Occurrence) :
  forall (res : BulkResult) (s : Store),
    bulk_checked s0 res s ->
    bulk_checked s0 (fst (fold_left bulk_step l (res, s)))
                 (snd (fold_left bulk_step l (res, s))).
Proof.
  induction l as [|o l IH]; intros res s H; cbn [fold_left]; [exact H|].
  pose proof (bulk_step_checked s0 res s o H) as Hstep.
  destruct (bulk_step (res, s) o) as [res1 s1]. apply IH. exact Hstep.
Qed.

(** C2. Bulk insert is non-destructive on conflicts: the created and the
    skipped occurrences together are exactly the occurrences of the batch
    (as many, and the same ones), so no occurrence is dropped because
    another one conflicted.  The store afterwards is the store before
    followed by the created appointments.  A created appointment overlaps
    no appointment the store held and none created before it in the batch;
    for two such appointments within one day this is the half-open
    disjointness of their times.  A skipped occurrence is recorded with
    its conflict pairs: all the appointments of the store and of the
    batch so far that overlap it, at least one.  An occurrence that
    overlaps an appointment of the store is among the skipped and is not
    created. *)
Theorem bulkInsert_accounts_for_every_occurrence
        (s : Store) (occurrences : list Occurrence) :
  let res := fst (bulkInsert s occurrences) in
  let s' := snd (bulkInsert s occurrences) in
  let ivl_o := fun o => mkInterval (occ_date o) (occ_start o) (occ_end o) in
  let ivl_a := fun a => mkInterval (appt_date a) (appt_start a) (appt_end a) in
  (length (created res) + length (skipped res) = length occurrences)%nat
  /\ Permutation (map appt_occurrence (created res) ++ map fst (skipped res))
                 occurrences
  /\ st_appts s' = st_appts s ++ created res
  /\ (forall pre a post, created res = pre ++ a :: post ->
        forall b, In b (st_appts s ++ pre) ->
          overlaps (ivl_a a) (ivl_a b) = false
          /\ (appt_date a = appt_date b ->
              appt_start a < appt_end a -> appt_start b < appt_end b ->
              appt_end a <= appt_start b \/ appt_end b <= appt_start a))
  /\ (forall o cs, In (o, cs) (skipped res) ->
        cs <> []
        /\ (exists pre post,
              created res = pre ++ post
              /\ cs = map (fun b => (b, o))
                         (List.filter (fun b => overlaps (ivl_o o) (ivl_a b))
                                      (st_appts s ++ pre)))
        /\ (forall c, In c cs ->
              snd c = o /\ In (fst c) (st_appts s')
              /\ overlaps (ivl_o o) (ivl_a (fst c)) = true))
  /\ (forall o b, In o occurrences -> In b (st_appts s) ->
        overlaps (ivl_o o) (ivl_a b) = true ->
        In o (map fst (skipped res))
        /\ ~ In o (map appt_occurrence (created res))).
Proof.
  intros res s' ivl_o ivl_a.
  assert (H : bulk_accounted res (chrono_sort occurrences)).
  { subst res. unfold bulkInsert.
    apply (bulk_fold_accounted (chrono_sort occurrences) (mkBulk [] []) s []).
    split; [apply perm_nil | constructor]. }
  destruct H as [Hperm _].
  assert (Hall : Permutation
                   (map appt_occurrence (created res) ++ map fst (skipped res))
                   occurrences).
  { eapply perm_trans; [exact Hperm|]. apply Permutation_sym, chrono_sort_perm. }
  assert (Hc : bulk_checked s res s').
  { subst res s'. unfold bulkInsert. apply bulk_fold_checked.
    unfold bulk_checked. cbn [created skipped]. rewrite app_nil_r.
    split; [reflexivity|]. split.
    - intros pre a post Hsplit. destruct pre; discriminate Hsplit.
    - intros o cs []. }
  destruct Hc as (Hst & Hcr & Hsk).
  assert (Hfree : forall pre a post, created res = pre ++ a :: post ->
                  forall b, In b (st_appts s ++ pre) ->
                    overlaps (ivl_a a) (ivl_a b) = false).
  { intros pre a post Hsplit b Hb. exact (Hcr pre a post Hsplit b Hb). }
  split; [|split; [exact Hall|split; [exact Hst|split; [|split]]]].
  - apply Permutation_length in Hall.
    rewrite length_app, !length_map in Hall. exact Hall.
  - intros pre a post Hsplit b Hb. pose proof (Hfree pre a post Hsplit b Hb) as Hov.
    split; [exact Hov|]. intros Hd Ha Hb'.
    apply not_true_iff_false in Hov.
    rewrite (overlaps_same_day (ivl_a a) (ivl_a b)) in Hov by (subst ivl_a; cbn; lia).
    subst ivl_a. cbn [iv_date iv_start iv_end] in Hov. lia.
  - intros o cs Hin. destruct (Hsk o cs Hin) as (Hne & pre & post & Hsplit & Hcs).
    split; [exact Hne|]. split.
    + exists pre, post. split; [exact Hsplit | exact Hcs].
    + intros c Hc. rewrite Hcs in Hc. apply findConflicts_In in Hc as (H1 & H2 & H3).
      split; [exact H1|]. split; [|exact H3].
      rewrite Hst, Hsplit. apply in_app_or in H2 as [H2|H2];
        apply in_or_app; [left; exact H2 | right; apply in_or_app; left; exact H2].
  - intros o b Ho Hb Hov.
    assert (Hnot : ~ In o (map appt_occurrence (created res))).
    { intros Hin. apply in_map_iff in Hin as (a & Ha & Hin).
      apply in_split in Hin as (pre & post & Hsplit).
      assert (Hbin : In b (st_appts s ++ pre)) by (apply in_or_app; left; exact Hb).
      pose proof (Hfree pre a post Hsplit b Hbin) as Hf.
      subst o. unfold ivl_o, ivl_a, appt_occurrence in *.
      cbn [occ_date occ_start occ_end] in Hov. congruence. }
    split; [|exact Hnot].
    apply (Permutation_in o (Permutation_sym Hall)) in Ho.
    apply in_app_or in Ho as [Ho|Ho]; [contradiction | exact Ho].
Qed.

(** A batch whose second occurrence collides with the first: the first and
    the third are created, the second is skipped. *)
Example bulkInsert_skips_and_continues :
  let o1 := mkOccurrence 3 600 660 "a" in
  let o2 := mkOccurrence 3 630 690 "b" in
  let o3 := mkOccurrence 4 600 660 "c" in
  let res := fst (bulkInsert (mkStore [] 1) [o3; o2; o1]) in
  map appt_occurrence (created res) = [o1; o3]
  /\ map fst (skipped res) = [o2].
Proof. split; reflexivity. Qed.

End EngineFacts.

Section RecurrenceFacts.

Import Engine.

Lemma weekday_index_range (w : Weekday) : 0 <= weekday_index w < 7.
Proof. destruct w; simpl; lia. Qed.

Lemma week_from_In (c : Date) (j : Z) :
  0 <= j < 7 -> In (c + j) (week_from c).
Proof.
  intros Hj. unfold week_from. apply in_map_iff.
  exists (Z.to_nat j). split; [lia|]. apply in_seq. lia.
Qed.

(** Every weekday falls on one of seven consecutive dates. *)
Lemma week_from_hits (ws : list Weekday) (c : Date) :
  ws <> [] -> exists d, In d (week_from c) /\ weekday_in ws d = true.
Proof.
  destruct ws as [|w ws]; [congruence|]. intros _.
  pose proof (weekday_index_range w) as Hw.
  set (j := (weekday_index w - c) mod 7).
  assert (Hj : 0 <= j < 7) by (apply Z.mod_pos_bound; lia).
  exists (c + j). split; [apply week_from_In; exact Hj|].
  unfold weekday_in. simpl. apply orb_true_iff. left.
  apply Z.eqb_eq. unfold weekday_of, j.
  rewrite Zplus_mod_idemp_r.
  replace (c + (weekday_index w - c)) with (weekday_index w) by lia.
  symmetry. apply Z.mod_small. exact Hw.
Qed.

Lemma filter_hit {A : Type} (f : A -> bool) (l : list A) (x : A) :
  In x l -> f x = true -> (1 <= length (List.filter f l))%nat.
Proof.
  intros Hin Hf.
  assert (H : In x (List.filter f l)) by (apply filter_In; split; assumption).
  destruct (List.filter f l); [contradiction | simpl; lia].
Qed.

(** A cycle of a non-empty weekday set emits at least one date. *)
Lemma cycle_dates_nonempty (ws : list Weekday) (c : Date) :
  ws <> [] -> (1 <= length (cycle_dates ws c))%nat.
Proof.
  intros Hws. destruct (week_from_hits ws c Hws) as (d & Hin & Hd).
  unfold cycle_dates. eapply filter_hit; eassumption.
Qed.

Lemma first_match_exists (ws : list Weekday) (d : Date) :
  ws <> [] -> exists first, first_match ws d = Some first.
Proof.
  intros Hws. destruct (week_from_hits ws d Hws) as (x & Hin & Hx).
  unfold first_match. destruct (find (weekday_in ws) (week_from d)) eqn:E.
  - eauto.
  - exfalso. pose proof (find_none _ _ E x Hin) as Hnone. congruence.
Qed.

(** Count mode emits exactly [remaining] dates once it may visit that many
    cycles, whatever the step between cycles. *)
Lemma expand_count_length (ws : list Weekday) (k : positive) :
  ws <> [] ->
  forall (cycles : nat) (c : Date) (remaining : nat),
    (remaining <= cycles)%nat ->
    length (expand_count ws k cycles c remaining) = remaining.
Proof.
  intros Hws. induction cycles as [|cycles IH]; intros c remaining Hle.
  - simpl. lia.
  - cbn [expand_count].
    pose proof (cycle_dates_nonempty ws c Hws) as Hne.
    pose proof (length_firstn remaining (cycle_dates ws c)) as Hlen.
    destruct (Nat.ltb_spec (length (firstn remaining (cycle_dates ws c))) remaining)
      as [Hlt|Hge].
    + rewrite length_app, IH by lia. lia.
    + lia.
Qed.

(** C3. Under count-mode termination a valid specification (count N >= 1,
    non-empty weekday set, positive duration, no other termination mode)
    expands to exactly N occurrences in total, whatever the interval
    multiplier and the start date. *)
Theorem expand_count_mode_yields_exactly_N
        (spec : RecurrenceSpec) (horizon : Date) (N : Z) :
  rs_weekdays spec <> [] ->
  0 < rs_duration spec ->
  rs_count spec = Some N -> 1 <= N ->
  rs_until spec = None -> rs_range spec = None ->
  exists occs, expand spec horizon = inr occs /\ Z.of_nat (length occs) = N.
Proof.
  intros Hws Hdur Hcount HN Huntil Hrange.
  unfold expand, validate. rewrite Hcount, Huntil, Hrange.
  destruct (rs_weekdays spec) as [|w ws] eqn:Ews; [congruence|].
  destruct (Z.leb_spec (rs_duration spec) 0); [lia|].
  destruct (Z.leb_spec N 0); [lia|].
  destruct (first_match_exists (w :: ws) horizon Hws) as (first & Hfirst).
  rewrite Hfirst. eexists. split; [reflexivity|].
  rewrite length_map, expand_count_length by (auto; lia). lia.
Qed.

(** A witness: Tuesdays and Thursdays, every second week, five occurrences. *)
Lemma expand_count_mode_witness :
  exists occs,
    expand (mkSpec [Tue; Thu] 1140 60 2 (Some 5) None None "Dance") 10 = inr occs
    /\ Z.of_nat (length occs) = 5.
Proof.
  apply (expand_count_mode_yields_exactly_N
           (mkSpec [Tue; Thu] 1140 60 2 (Some 5) None None "Dance") 10 5);
    simpl; (reflexivity || lia || discriminate).
Defined.

(** The same specification evaluated: the first cycle begins on the first
    Thursday on or after day 10, later cycles fourteen days apart each. *)
Example expand_count_mode_dates :
  match expand (mkSpec [Tue; Thu] 1140 60 2 (Some 5) None None "Dance") 10 with
  | inr occs => map occ_date occs = [10; 15; 24; 29; 38]
  | inl _ => False
  end.
Proof. reflexivity. Qed.

(** End-date mode, the scenario of the spec: Thursdays until day 24
    inclusive. *)
Example expand_until_inclusive :
  match expand (mkSpec [Thu] 1140 60 1 None (Some 24) None "Dance") 8 with
  | inr occs => map occ_date occs = [10; 17; 24]
  | inl _ => False
  end.
Proof. reflexivity. Qed.

Example expand_rejects_invalid :
  expand (mkSpec [] 1140 60 1 (Some 3) None None "x") 0 = inl InvalidRecurrenceSpec
  /\ expand (mkSpec [Mon] 1140 0 1 (Some 3) None None "x") 0 = inl InvalidRecurrenceSpec
  /\ expand (mkSpec [Mon] 1140 60 1 (Some 0) None None "x") 0 = inl InvalidRecurrenceSpec
  /\ expand (mkSpec [Mon] 1140 60 1 (Some 3) (Some 9) None "x") 0 = inl InvalidRecurrenceSpec
  /\ expand (mkSpec [Mon] 1140 60 1 None None None "x") 0 = inl InvalidRecurrenceSpec.
Proof. repeat split; reflexivity. Qed.

End RecurrenceFacts.

Section ReminderFacts.

Import Engine Payload.





Lemma snooze_found (rems : list Reminder) (id offset : Z) (now : Instant) :
  (exists r, In r rems /\ rem_id r = id) ->
  snooze rems id offset now = inr (map (snooze_one id offset now) rems).
Proof.
  intros (r & Hin & Hid). unfold snooze.
  assert (H : existsb (fun r => rem_id r =? id) rems = true).
  { apply existsb_exists. exists r. split; [assumption|]. apply Z.eqb_eq, Hid. }
  rewrite H. reflexivity.
Qed.

Lemma snooze_missing (rems : list Reminder) (id offset : Z) (now : Instant) :
  (forall r, In r rems -> rem_id r <> id) ->
  snooze rems id offset now = inl NotFound.
Proof.
  intros Hno. unfold snooze.
  destruct (existsb (fun r => rem_id r =? id) rems) eqn:E; [|reflexivity].
  apply existsb_exists in E as (r & Hin & Hid).
  apply Z.eqb_eq in Hid. exfalso. exact (Hno r Hin Hid).
Qed.






(** The same snooze evaluated: the reminder is scheduled again for minute
    510, is not due at minute 500 and is due at minute 510. *)
Example snooze_evaluated :
  match snooze [mkReminder 7 None (Absolute 100) true true "call"] 7 10 500 with
  | inr rems' => rems' = [mkReminder 7 None (Absolute 510) true false "call"]
                 /\ dueReminders [] rems' 500 = []
                 /\ dueReminders [] rems' 510 = rems'
  | inl _ => False
  end.
Proof. repeat split; reflexivity. Qed.

(** Before the snooze the same reminder, when not yet delivered, is due. *)
Example due_before_snooze :
  dueReminders [] [mkReminder 7 None (Absolute 100) true false "call"] 500
  = [mkReminder 7 None (Absolute 100) true false "call"].
Proof. reflexivity. Qed.

(** A lead-based reminder is due from [lead] minutes before the start of
    its appointment. *)
Example lead_reminder_due :
  let appts := [mkAppointment 1 2 600 660 "Review"] in
  let r := mkReminder 3 (Some 1) (Lead 15) true false "Review" in
  dueReminders appts [r] (2 * 1440 + 584) = []
  /\ dueReminders appts [r] (2 * 1440 + 585) = [r].
Proof. split; reflexivity. Qed.

End ReminderFacts.

(* ===================================================================== *)
(** * Properties of the frontend                                           *)
(* ===================================================================== *)

(** ** Characters *)

Section CharFacts.

Import Js.

Ltac by_cases_on_char c :=
  destruct c as [[] [] [] [] [] [] [] []]; vm_compute; intuition congruence.

Lemma digit_not_ws (c : ascii) : isDigit c = true -> isWhiteSpace c = false.
Proof. by_cases_on_char c. Qed.

Lemma digit_lower (c : ascii) : isDigit c = true -> toLowerChar c = c.
Proof. by_cases_on_char c. Qed.

Lemma ws_lower (c : ascii) : isWhiteSpace c = true -> toLowerChar c = c.
Proof. by_cases_on_char c. Qed.

Lemma lower_ws (c : ascii) : isWhiteSpace (toLowerChar c) = isWhiteSpace c.
Proof. by_cases_on_char c. Qed.

Lemma ws_not_digit (c : ascii) : isWhiteSpace c = true -> isDigit c = false.
Proof. by_cases_on_char c. Qed.

Lemma ws_not_colon (c : ascii) : isWhiteSpace c = true -> Ascii.eqb ":" c = false.
Proof. by_cases_on_char c. Qed.

Lemma digit_val_range (c : ascii) : isDigit c = true -> 0 <= digit_val c <= 9.
Proof. by_cases_on_char c. Qed.

Lemma digit_not_sign (c : ascii) :
  isDigit c = true -> Ascii.eqb c "-" = false /\ Ascii.eqb c "+" = false.
Proof. by_cases_on_char c. Qed.

End CharFacts.

(** ** The matcher against the relational reading of a pattern *)

Section RegexFacts.

Import Js Regex.

Variable icase : bool.
Variable subject : string.

Local Abbreviation run := (Regex.run icase subject).
Local Abbreviation matches := (Regex.matches icase subject).

Lemma mstate_eta (st : MState) :
  mkM (m_prev st) (m_pos st) (m_rest st) (m_caps st) = st.
Proof. destruct st; reflexivity. Qed.

Lemma star_cls_sound (p : ascii -> bool) (k : MState -> option MState) :
  forall rest prev pos caps res,
    star_cls p k prev pos rest caps = Some res ->
    exists st', matches (StarCls p) (mkM prev pos rest caps) st' /\ k st' = Some res.
Proof.
  induction rest as [|c r IH]; intros prev pos caps res H; simpl in H.
  - eexists. split; [apply M_StarNil | exact H].
  - destruct (p c) eqn:Hp.
    + destruct (star_cls p k (Some c) (S pos) r caps) as [res'|] eqn:E.
      * injection H as <-. apply IH in E as (st' & Hm & Hk).
        exists st'. split; [|exact Hk].
        eapply M_StarCons; [reflexivity | exact Hp | exact Hm].
      * eexists. split; [apply M_StarNil | exact H].
    + eexists. split; [apply M_StarNil | exact H].
Qed.

Lemma star_cls_complete (p : ascii -> bool) (k : MState -> option MState) :
  forall rest prev pos caps,
    star_cls p k prev pos rest caps = None ->
    forall st', matches (StarCls p) (mkM prev pos rest caps) st' -> k st' = None.
Proof.
  induction rest as [|c r IH]; intros prev pos caps H st' Hm; simpl in H.
  - inversion Hm; subst; [exact H | simpl in *; discriminate].
  - inversion Hm; subst.
    + destruct (p c); [|exact H].
      destruct (star_cls p k (Some c) (S pos) r caps); [discriminate | exact H].
    + simpl in *. match goal with Hr : String _ _ = String _ _ |- _ => injection Hr as -> -> end.
      match goal with Hp : p _ = true |- _ => rewrite Hp in H end.
      destruct (star_cls p k (Some x) (S pos) r0 caps) eqn:E; [discriminate|].
      eapply IH; [exact E|]. assumption.
Qed.

(** Whatever the matcher returns is reached along the relation. *)
Lemma run_sound (r : regex) :
  forall k st res,
    run r k st = Some res -> exists st', matches r st st' /\ k st' = Some res.
Proof.
  induction r; intros k st res H; simpl in H.
  - eexists; split; [constructor | exact H].
  - unfold step_char in H. destruct (m_rest st) as [|x rest] eqn:E; [discriminate|].
    destruct (char_eq icase c x) eqn:Hc; [|discriminate].
    eexists; split; [eapply M_Chr; eassumption | exact H].
  - unfold step_char in H. destruct (m_rest st) as [|x rest] eqn:E; [discriminate|].
    destruct (p x) eqn:Hc; [|discriminate].
    eexists; split; [eapply M_Cls; eassumption | exact H].
  - apply IHr1 in H as (st1 & H1 & H). apply IHr2 in H as (st2 & H2 & H).
    exists st2. split; [eapply M_Seq; eassumption | exact H].
  - destruct (run r1 k st) eqn:E.
    + injection H as <-. apply IHr1 in E as (st' & Hm & Hk).
      exists st'. split; [apply M_AltL; exact Hm | exact Hk].
    + apply IHr2 in H as (st' & Hm & Hk).
      exists st'. split; [apply M_AltR; exact Hm | exact Hk].
  - destruct (run r k st) eqn:E.
    + injection H as <-. apply IHr in E as (st' & Hm & Hk).
      exists st'. split; [apply M_OptSome; exact Hm | exact Hk].
    + exists st. split; [apply M_OptNone | exact H].
  - apply star_cls_sound in H. rewrite mstate_eta in H. exact H.
  - apply IHr in H as (st' & Hm & Hk).
    eexists. split; [apply M_Grp; exact Hm | exact Hk].
  - destruct (Nat.eqb_spec (m_pos st) 0); [|discriminate].
    exists st. split; [apply M_Bol; assumption | exact H].
  - destruct (m_rest st) eqn:E; [|discriminate].
    exists st. split; [apply M_Eol; assumption | exact H].
  - destruct (at_word_boundary st) eqn:E; [|discriminate].
    exists st. split; [apply M_WordB; assumption | exact H].
Qed.

(** When the matcher fails, the continuation fails at every state the
    relation reaches. *)
Lemma run_complete (r : regex) :
  forall k st,
    run r k st = None -> forall st', matches r st st' -> k st' = None.
Proof.
  induction r; intros k st H st' Hm; simpl in H; inversion Hm; subst.
  - exact H.
  - unfold step_char in H.
    match goal with Hr : m_rest _ = _, Hc : char_eq _ _ _ = true |- _ =>
      rewrite Hr, Hc in H end. exact H.
  - unfold step_char in H.
    match goal with Hr : m_rest _ = _, Hc : p _ = true |- _ =>
      rewrite Hr, Hc in H end. exact H.
  - eapply IHr2; [|eassumption]. eapply IHr1; eassumption.
  - destruct (run r1 k st) eqn:E; [discriminate|]. eapply IHr1; eassumption.
  - destruct (run r1 k st) eqn:E; [discriminate|]. eapply IHr2; eassumption.
  - destruct (run r k st) eqn:E; [discriminate|]. eapply IHr; eassumption.
  - destruct (run r k st') eqn:E; [discriminate|]. exact H.
  - eapply star_cls_complete; [exact H|]. rewrite mstate_eta. exact Hm.
  - eapply star_cls_complete; [exact H|]. rewrite mstate_eta. exact Hm.
  - eapply (IHr (fun st'0 => k (set_cap subject n (m_pos st) st'0))); eassumption.
  - match goal with Hp : m_pos _ = O |- _ => rewrite Hp in H end. exact H.
  - match goal with Hp : m_rest _ = _ |- _ => rewrite Hp in H end. exact H.
  - match goal with Hp : at_word_boundary _ = true |- _ => rewrite Hp in H end. exact H.
Qed.

End RegexFacts.

(** ** The time pattern *)

Section TimePattern.

Import Js Regex App.

Local Open Scope string_scope.

Lemma append_cons (c : ascii) (a b : string) : String c a ++ b = String c (a ++ b).
Proof. reflexivity. Qed.

Lemma append_nil (b : string) : "" ++ b = b.
Proof. reflexivity. Qed.

Lemma append_nil_r (a : string) : a ++ "" = a.
Proof. induction a as [|c a IH]; [reflexivity|]. rewrite append_cons, IH. reflexivity. Qed.

Lemma append_assoc (a b c : string) : (a ++ b) ++ c = a ++ b ++ c.
Proof.
  induction a as [|x a IH]; [reflexivity|]. rewrite !append_cons, IH. reflexivity.
Qed.

Lemma matches_lang (ic : bool) (subject : string) (r : regex) (st st' : MState) :
  matches ic subject r st st' ->
  exists w, m_rest st = w ++ m_rest st' /\ lang ic r w (m_rest st').
Proof.
  induction 1; cbn [lang m_rest advance set_cap].
  - exists "". split; reflexivity.
  - exists (String x ""). split; [assumption|]. eauto.
  - exists (String x ""). split; [assumption|]. eauto.
  - destruct IHmatches1 as (u & Hu & Lu). destruct IHmatches2 as (v & Hv & Lv).
    exists (u ++ v). split.
    + rewrite Hu, Hv, append_assoc. reflexivity.
    + exists u, v. split; [reflexivity|]. rewrite <- Hv. split; assumption.
  - destruct IHmatches as (w & Hw & Lw). exists w. split; [assumption | left; assumption].
  - destruct IHmatches as (w & Hw & Lw). exists w. split; [assumption | right; assumption].
  - destruct IHmatches as (w & Hw & Lw). exists w. split; [assumption | right; assumption].
  - exists "". split; [reflexivity | left; reflexivity].
  - exists "". split; reflexivity.
  - destruct IHmatches as (w & Hw & Lw). cbn [advance m_rest] in Hw.
    exists (String x w). split.
    + rewrite H, Hw. reflexivity.
    + cbn [all_cls]. rewrite H0. exact Lw.
  - destruct IHmatches as (w & Hw & Lw). exists w. split; assumption.
  - exists "". split; reflexivity.
  - exists "". split; [reflexivity | split; [reflexivity | assumption]].
  - exists "". split; reflexivity.
Qed.

Lemma last_char_app (a b : string) : forall prev,
  last_char prev (a ++ b) = last_char (last_char prev a) b.
Proof.
  induction a as [|c a IH]; intros prev; [reflexivity|].
  rewrite append_cons. cbn [last_char]. apply IH.
Qed.

Lemma length_app_str (a b : string) :
  String.length (a ++ b) = (String.length a + String.length b)%nat.
Proof.
  induction a as [|c a IH]; [reflexivity|].
  rewrite append_cons. cbn [String.length]. rewrite IH. reflexivity.
Qed.

Lemma substring_skip (a b : string) (n : nat) :
  substring (String.length a) n (a ++ b) = substring 0 n b.
Proof. induction a as [|c a IH]; [reflexivity | exact IH]. Qed.

Lemma substring_0_0 (s : string) : substring 0 0 s = "".
Proof. destruct s; reflexivity. Qed.

Section Eval.

Variable subject : string.

Local Abbreviation run := (Regex.run false subject).

Lemma step_char_no_head p k prev pos s caps :
  no_head p s -> step_char p k (mkM prev pos s caps) = None.
Proof.
  unfold step_char, no_head. simpl. destruct s; [reflexivity|].
  intros ->. reflexivity.
Qed.

Lemma no_head_ws_tail (p : ascii -> bool) (ws : string) (ap : option bool) :
  (forall c, isWhiteSpace c = true -> p c = false) ->
  p "a"%char = false -> p "p"%char = false ->
  all_cls isWhiteSpace ws = true ->
  no_head p (ws ++ render_ampm ap).
Proof.
  intros Hws Ha Hp Hall. destruct ws as [|c ws]; simpl.
  - destruct ap as [[]|]; simpl; auto.
  - simpl in Hall. apply andb_true_iff in Hall as [Hc _]. auto.
Qed.

Lemma star_cls_run (p : ascii -> bool) (k : MState -> option MState) (tail : string) :
  forall ws prev pos caps res,
    all_cls p ws = true ->
    k (mkM (last_char prev ws) (pos + String.length ws) tail caps) = Some res ->
    no_head p tail ->
    star_cls p k prev pos (ws ++ tail) caps = Some res.
Proof.
  induction ws as [|c ws IH]; intros prev pos caps res Hall Hk Htail; simpl in *.
  - rewrite Nat.add_0_r in Hk. destruct tail as [|t tail]; simpl; [exact Hk|].
    simpl in Htail. rewrite Htail. exact Hk.
  - apply andb_true_iff in Hall as [Hc Hall]. rewrite Hc.
    rewrite (IH (Some c) (S pos) caps res); auto.
    rewrite <- Nat.add_succ_comm in Hk. exact Hk.
Qed.

Lemma step_char_cons p k prev pos c r caps :
  step_char p k (mkM prev pos (String c r) caps)
  = if p c then k (mkM (Some c) (S pos) r caps) else None.
Proof. reflexivity. Qed.

(** The hour: one digit, or two. *)
Lemma run_hour (h1 : ascii) (h2 : option ascii) (R : string) k prev pos caps res :
  isDigit h1 = true -> opt_digit h2 = true ->
  (h2 = None -> no_head isDigit R) ->
  k (mkM (last_char prev (String h1 (opt_char h2)))
         (pos + String.length (String h1 (opt_char h2))) R
         ((1%nat, substring pos (String.length (String h1 (opt_char h2))) subject) :: caps))
    = Some res ->
  run (Grp 1 (Seq digit (Opt digit))) k (mkM prev pos (String h1 (opt_char h2) ++ R) caps)
  = Some res.
Proof.
  intros H1 H2 Hpeek Hk.
  cbn [Regex.run digit m_pos].
  change (String h1 (opt_char h2) ++ R) with (String h1 (opt_char h2 ++ R)).
  rewrite step_char_cons, H1.
  destruct h2 as [c|]; cbn [opt_digit opt_char String.length last_char] in *.
  all: try change (String c "" ++ R) with (String c R); try change ("" ++ R) with R.
  - rewrite step_char_cons, H2. unfold set_cap. cbn [m_prev m_pos m_rest m_caps].
    replace (S (S pos) - pos)%nat with 2%nat by lia.
    replace (pos + 2)%nat with (S (S pos)) in Hk by lia.
    rewrite Hk. reflexivity.
  - rewrite step_char_no_head by auto.
    unfold set_cap. cbn [m_prev m_pos m_rest m_caps].
    replace (S pos - pos)%nat with 1%nat by lia.
    replace (pos + 1)%nat with (S pos) in Hk by lia.
    exact Hk.
Qed.

(** ":dd" present. *)
Lemma run_pair_present (n : nat) (a b : ascii) (R : string) k prev pos caps res :
  isDigit a = true -> isDigit b = true ->
  k (mkM (Some b) (pos + 3) R ((n, substring (S pos) 2 subject) :: caps)) = Some res ->
  run (Opt (Seq (Chr ":") (Grp n (Seq digit digit)))) k
      (mkM prev pos (String ":" (String a (String b R))) caps)
  = Some res.
Proof.
  intros Ha Hb Hk.
  cbn [Regex.run digit]. rewrite step_char_cons.
  replace (char_eq false ":" ":") with true by reflexivity.
  cbn [m_pos]. rewrite !step_char_cons, Ha, Hb.
  unfold set_cap. cbn [m_prev m_pos m_rest m_caps].
  replace (S (S (S pos)) - S pos)%nat with 2%nat by lia.
  replace (pos + 3)%nat with (S (S (S pos))) in Hk by lia.
  rewrite Hk. reflexivity.
Qed.

(** ":dd" absent: the next character is not a colon. *)
Lemma run_pair_absent (n : nat) (R : string) k prev pos caps :
  no_head (Ascii.eqb ":") R ->
  run (Opt (Seq (Chr ":") (Grp n (Seq digit digit)))) k (mkM prev pos R caps)
  = k (mkM prev pos R caps).
Proof.
  intros H. cbn [Regex.run]. rewrite step_char_no_head by exact H. reflexivity.
Qed.

(** White space, "am" or "pm" or nothing, end of input. *)
Lemma run_tail (ws : string) (ap : option bool) prev pos caps :
  all_cls isWhiteSpace ws = true ->
  run (Seq (StarCls isWhiteSpace) (Seq (Opt (Grp 4 (Alt (Lit "am") (Lit "pm")))) Eol))
      Some (mkM prev pos (ws ++ render_ampm ap) caps)
  = Some (mkM (last_char prev (ws ++ render_ampm ap))
              (pos + String.length (ws ++ render_ampm ap)) ""
              (match ap with
               | Some _ => (4%nat, substring (pos + String.length ws) 2 subject) :: caps
               | None => caps
               end)).
Proof.
  intros Hws. cbn [Regex.run m_prev m_pos m_rest m_caps].
  rewrite last_char_app, length_app_str.
  apply star_cls_run; [exact Hws| |].
  - destruct ap as [[]|]; cbn [render_ampm Lit Regex.run];
      rewrite ?step_char_cons; unfold set_cap;
      cbn -[substring Nat.sub Nat.add String.length last_char];
      rewrite ?Nat.add_0_r;
      replace (S (S (pos + String.length ws)) - (pos + String.length ws))%nat
        with 2%nat by lia;
      cbn [last_char String.length];
      try reflexivity; f_equal; f_equal; lia.
  - destruct ap as [[]|]; simpl; auto.
Qed.
End Eval.

Lemma exec_of_run (ic : bool) (r : regex) (s : string) (st : MState) :
  Regex.run ic s r Some (mkM None 0 s []) = Some st ->
  exec ic r s = Some (m_caps st).
Proof.
  intros H. unfold exec. destruct s; simpl; rewrite H; reflexivity.
Qed.

Lemma run_seq ic subj a b k st :
  Regex.run ic subj (Seq a b) k st = Regex.run ic subj a (Regex.run ic subj b k) st.
Proof. reflexivity. Qed.

Lemma run_bol ic subj k prev s caps :
  Regex.run ic subj Bol k (mkM prev 0 s caps) = k (mkM prev 0 s caps).
Proof. reflexivity. Qed.

Lemma time_re_render (tt : TimeText) :
  tt_wf tt = true ->
  exists st, Regex.run false (render tt) time_re Some (mkM None 0 (render tt) []) = Some st
             /\ m_caps st = tt_captures tt.
Proof.
  destruct tt as [h1 h2 ms ws ap]. unfold tt_wf, render, tt_captures.
  cbn [tt_h1 tt_h2 tt_minsec tt_ws tt_ampm].
  rewrite !andb_true_iff. intros [[[H1 H2] Hms] Hws].
  assert (Hpeek : h2 = None -> no_head isDigit (render_minsec ms ++ ws ++ render_ampm ap)).
  { intros _. destruct ms; cbn; try reflexivity.
    apply no_head_ws_tail; auto using ws_not_digit. }
  assert (Hcolon : no_head (Ascii.eqb ":") (ws ++ render_ampm ap))
    by (apply no_head_ws_tail; auto using ws_not_colon).
  assert (Hcaps : forall n, substring (String.length ws) n (ws ++ render_ampm ap)
                            = substring 0 n (render_ampm ap))
    by (intros n; apply substring_skip).
  destruct ms as [|m1 m2|m1 m2 s1 s2]; cbn [minsec_digits] in Hms;
    rewrite ?andb_true_iff in Hms;
    set (subject := String h1 (opt_char h2) ++ _);
    eexists; (split;
     [ unfold time_re; rewrite run_seq, run_bol, run_seq; unfold subject at 2;
       apply run_hour; [exact H1 | exact H2 | exact Hpeek |];
       rewrite run_seq; cbn [render_minsec String.append]
     | ]).
  - rewrite run_pair_absent by exact Hcolon.
    rewrite run_seq, run_pair_absent by exact Hcolon.
    apply run_tail. exact Hws.
  - unfold subject. destruct h2 as [c|], ap as [[]|];
      cbn [render_ampm render_minsec opt_char] in *;
      rewrite ?append_cons, ?append_nil; cbn; rewrite ?Hcaps, ?substring_0_0;
      reflexivity.
  - destruct Hms as [Hm1 Hm2].
    apply run_pair_present; [exact Hm1 | exact Hm2 |].
    rewrite run_seq, run_pair_absent by exact Hcolon.
    apply run_tail. exact Hws.
  - unfold subject. destruct h2 as [c|], ap as [[]|];
      cbn [render_ampm render_minsec opt_char] in *;
      rewrite ?append_cons, ?append_nil; cbn; rewrite ?Hcaps, ?substring_0_0;
      reflexivity.
  - destruct Hms as [[[Hm1 Hm2] Hs1] Hs2].
    apply run_pair_present; [exact Hm1 | exact Hm2 |].
    rewrite run_seq.
    apply run_pair_present; [exact Hs1 | exact Hs2 |].
    apply run_tail. exact Hws.
  - unfold subject. destruct h2 as [c|], ap as [[]|];
      cbn [render_ampm render_minsec opt_char] in *;
      rewrite ?append_cons, ?append_nil; cbn; rewrite ?Hcaps, ?substring_0_0;
      reflexivity.
Qed.

Lemma exec_time_render (tt : TimeText) :
  tt_wf tt = true -> exec false time_re (render tt) = Some (tt_captures tt).
Proof.
  intros H. destruct (time_re_render tt H) as (st & Hrun & Hcaps).
  rewrite <- Hcaps. apply exec_of_run. exact Hrun.
Qed.
Lemma lang_hour (u rest : string) :
  lang false (Grp 1 (Seq digit (Opt digit))) u rest ->
  exists h1 h2, u = String h1 (opt_char h2) /\ isDigit h1 = true /\ opt_digit h2 = true.
Proof.
  cbn [lang digit]. intros (a & b & -> & (h1 & -> & H1) & [-> | (h2 & -> & H2)]).
  - exists h1, None. auto.
  - exists h1, (Some h2). auto.
Qed.

Lemma lang_pair (n : nat) (u rest : string) :
  lang false (Opt (Seq (Chr ":") (Grp n (Seq digit digit)))) u rest ->
  u = "" \/ exists a b, u = String ":" (String a (String b ""))
                        /\ isDigit a = true /\ isDigit b = true.
Proof.
  cbn [lang digit]. intros [-> | H]; [left; reflexivity | right].
  destruct H as (c & d & -> & (x & -> & Hx) & (e & f & -> & (a & -> & Ha) & (b & -> & Hb))).
  cbn [char_eq] in Hx. apply Ascii.eqb_eq in Hx. subst x.
  exists a, b. auto.
Qed.

Lemma lang_lit2 (c1 c2 : ascii) (u rest : string) :
  lang false (Lit (String c1 (String c2 ""))) u rest -> u = String c1 (String c2 "").
Proof.
  cbn [lang Lit char_eq].
  intros (a & b & -> & (x & -> & Hx) & (c & d & -> & (y & -> & Hy) & ->)).
  apply Ascii.eqb_eq in Hx, Hy. subst. reflexivity.
Qed.

Lemma lang_ampm (u rest : string) :
  lang false (Opt (Grp 4 (Alt (Lit "am") (Lit "pm")))) u rest ->
  exists ap, u = render_ampm ap.
Proof.
  intros [-> | [H | H]].
  - exists None. reflexivity.
  - apply lang_lit2 in H. exists (Some false). exact H.
  - apply lang_lit2 in H. exists (Some true). exact H.
Qed.

Lemma lang_time_re (w rest : string) :
  lang false time_re w rest -> rest = "" /\ is_time_text w.
Proof.
  unfold time_re. cbn [lang].
  intros (u0 & v0 & -> & -> & u1 & v1 & -> & Hh & u2 & v2 & -> & Hm & u3 & v3 & -> & Hs
          & u4 & v4 & -> & Hws & u5 & v5 & -> & Hap & -> & ->).
  split; [reflexivity|].
  apply lang_hour in Hh as (h1 & h2 & -> & H1 & H2).
  apply lang_ampm in Hap as (ap & ->).
  apply (lang_pair 2) in Hm. apply (lang_pair 3) in Hs.
  rewrite append_nil, !append_nil_r.
  assert (Hwf : forall ms, minsec_digits ms = true ->
                tt_wf (mkTimeText h1 h2 ms u4 ap) = true).
  { intros ms Hms. unfold tt_wf. cbn. rewrite H1, H2, Hms, Hws. reflexivity. }
  destruct Hm as [-> | (m1 & m2 & -> & Hm1 & Hm2)];
    destruct Hs as [-> | (s1 & s2 & -> & Hs1 & Hs2)].
  - exists (mkTimeText h1 h2 NoMin u4 ap). split; [apply Hwf; reflexivity|].
    reflexivity.
  - exists (mkTimeText h1 h2 (Min s1 s2) u4 ap). split.
    + apply Hwf. cbn. rewrite Hs1, Hs2. reflexivity.
    + reflexivity.
  - exists (mkTimeText h1 h2 (Min m1 m2) u4 ap). split.
    + apply Hwf. cbn. rewrite Hm1, Hm2. reflexivity.
    + reflexivity.
  - exists (mkTimeText h1 h2 (MinAndSec m1 m2 s1 s2) u4 ap). split.
    + apply Hwf. cbn. rewrite Hm1, Hm2, Hs1, Hs2. reflexivity.
    + unfold render. cbn [tt_h1 tt_h2 tt_minsec tt_ws tt_ampm render_minsec].
      rewrite !append_cons, !append_nil. reflexivity.
Qed.

End TimePattern.

(** ** timeToMinutes and durationFromAppt *)

Section TimeToMinutes.

Import Js Regex App.

Local Open Scope string_scope.

Lemma parseInt_digit (a : ascii) :
  isDigit a = true -> parseInt (String a "") = Num (digit_val a).
Proof.
  intros Ha. unfold parseInt. cbn [trimStart].
  rewrite (digit_not_ws a Ha).
  destruct (digit_not_sign a Ha) as [-> ->].
  rewrite Ha. cbn [digits_value]. rewrite Ha. f_equal. lia.
Qed.

Lemma parseInt_two_digits (a b : ascii) :
  isDigit a = true -> isDigit b = true ->
  parseInt (String a (String b "")) = Num (two_digits a b).
Proof.
  intros Ha Hb. unfold parseInt. cbn [trimStart].
  rewrite (digit_not_ws a Ha).
  destruct (digit_not_sign a Ha) as [-> ->].
  rewrite Ha. cbn [digits_value]. rewrite Ha, Hb. unfold two_digits. f_equal. lia.
Qed.

Lemma captured_hour (tt : TimeText) :
  tt_wf tt = true -> parse_group (group (tt_captures tt) 1) = Num (tt_hour tt).
Proof.
  destruct tt as [h1 h2 ms ws ap]. unfold tt_wf, tt_captures, tt_hour.
  cbn [tt_h1 tt_h2 tt_minsec tt_ws tt_ampm].
  rewrite !andb_true_iff. intros [[[H1 H2] _] _].
  destruct ap, ms, h2 as [c|]; cbn [app group Nat.eqb parse_group opt_char];
    auto using parseInt_digit, parseInt_two_digits.
Qed.

Lemma captured_minute (tt : TimeText) :
  tt_wf tt = true -> parse_or_zero (group (tt_captures tt) 2) = Num (tt_minute tt).
Proof.
  destruct tt as [h1 h2 ms ws ap]. unfold tt_wf, tt_captures, tt_minute.
  cbn [tt_h1 tt_h2 tt_minsec tt_ws tt_ampm].
  rewrite !andb_true_iff. intros [[_ Hms] _].
  destruct ap, ms as [|m1 m2|m1 m2 s1 s2];
    cbn [minsec_digits] in Hms; rewrite ?andb_true_iff in Hms;
    cbn [app group Nat.eqb parse_or_zero or_else truthy];
    try reflexivity; apply parseInt_two_digits; tauto.
Qed.

Lemma captured_second (tt : TimeText) :
  tt_wf tt = true -> parse_or_zero (group (tt_captures tt) 3) = Num (tt_second tt).
Proof.
  destruct tt as [h1 h2 ms ws ap]. unfold tt_wf, tt_captures, tt_second.
  cbn [tt_h1 tt_h2 tt_minsec tt_ws tt_ampm].
  rewrite !andb_true_iff. intros [[_ Hms] _].
  destruct ap, ms as [|m1 m2|m1 m2 s1 s2];
    cbn [minsec_digits] in Hms; rewrite ?andb_true_iff in Hms;
    cbn [app group Nat.eqb parse_or_zero or_else truthy];
    try reflexivity; apply parseInt_two_digits; tauto.
Qed.

Lemma captured_ampm (tt : TimeText) :
  group (tt_captures tt) 4
  = match tt_ampm tt with Some ap => Some (render_ampm (Some ap)) | None => None end.
Proof.
  destruct tt as [h1 h2 ms ws ap]. unfold tt_captures.
  cbn [tt_h1 tt_h2 tt_minsec tt_ws tt_ampm].
  destruct ap, ms; reflexivity.
Qed.

(** On a time text the result is the number of minutes it stands for. *)
Lemma timeToMinutes_time_text (t : string) (tt : TimeText) :
  tt_wf tt = true -> toLowerCase (trim t) = render tt ->
  timeToMinutes (Some t) = Some (Num (tt_total tt)).
Proof.
  intros Hwf Ht. unfold timeToMinutes.
  destruct t as [|c t]; [discriminate Ht|].
  cbn [truthy negb]. rewrite Ht, (exec_time_render tt Hwf).
  rewrite (captured_hour tt Hwf), (captured_minute tt Hwf), (captured_second tt Hwf),
          (captured_ampm tt).
  unfold tt_total, tt_hour24.
  destruct (tt_ampm tt) as [[]|]; cbn [render_ampm is_str String.eqb Ascii.eqb Bool.eqb
                                       andb negb num_eqb num_add num_mul num_floor_div];
    destruct (tt_hour tt =? 12)%Z eqn:E; cbn [negb num_add num_mul num_floor_div andb];
    try reflexivity.
Qed.

Lemma exec_from_anchored (ic : bool) (subject : string) (r : regex) :
  forall rest prev pos,
    exec_from ic subject (Seq Bol r) prev (S pos) rest = None.
Proof.
  induction rest as [|c rest IH]; intros prev pos; cbn; [reflexivity | apply IH].
Qed.

Lemma exec_anchored_sound (ic : bool) (r : regex) (s : string) (m : Captures) :
  exec ic (Seq Bol r) s = Some m -> accepts ic (Seq Bol r) s.
Proof.
  unfold exec, accepts. intros H.
  destruct (exec_from ic s (Seq Bol r) None 0 s) as [st|] eqn:E; [|discriminate].
  assert (Hrun : Regex.run ic s (Seq Bol r) Some (mkM None 0 s []) = Some st).
  { destruct s as [|c s]; cbn [exec_from] in E.
    - destruct (Regex.run ic "" (Seq Bol r) Some (mkM None 0 "" [])); [exact E | discriminate].
    - destruct (Regex.run ic (String c s) (Seq Bol r) Some (mkM None 0 (String c s) []));
        [exact E|]. rewrite exec_from_anchored in E. discriminate. }
  apply run_sound in Hrun as (st' & Hm & _). exists st'. exact Hm.
Qed.

Lemma accepts_time_text (s : string) :
  accepts false time_re s -> is_time_text s.
Proof.
  intros (st' & Hm). apply matches_lang in Hm as (w & Hw & Hl).
  cbn [m_rest] in Hw. apply lang_time_re in Hl as [Hrest Htt].
  rewrite Hrest, append_nil_r in Hw. subst w. exact Htt.
Qed.

Lemma time_text_accepts (s : string) :
  is_time_text s -> accepts false time_re s.
Proof.
  intros (tt & Hwf & ->). destruct (time_re_render tt Hwf) as (st & Hrun & _).
  apply run_sound in Hrun as (st' & Hm & _). exists st'. exact Hm.
Qed.

(** A text that is not a time text gives [null]. *)
Lemma timeToMinutes_not_time_text (t : string) :
  ~ is_time_text (toLowerCase (trim t)) -> timeToMinutes (Some t) = None.
Proof.
  intros Hno. unfold timeToMinutes.
  destruct (negb (truthy (Some t))); [reflexivity|].
  destruct (exec false time_re (toLowerCase (trim t))) as [m|] eqn:E; [|reflexivity].
  exfalso. apply Hno, accepts_time_text.
  unfold time_re in *. eapply exec_anchored_sound. exact E.
Qed.

End TimeToMinutes.


Section TimeTexts.

Import Js Regex App.

Local Open Scope string_scope.

Lemma last_char_cons (p q : option ascii) (c : ascii) (r : string) :
  last_char p (String c r) = last_char q (String c r).
Proof. reflexivity. Qed.

(** A string whose last character is not white space is left alone by
    [trimEnd]. *)
Lemma trimEnd_fixed (s : string) (c : ascii) :
  last_char None s = Some c -> isWhiteSpace c = false -> trimEnd s = s.
Proof.
  intros Hlast Hc. induction s as [|a r IH]; [reflexivity|].
  cbn [trimEnd]. destruct r as [|b r'].
  - cbn in Hlast. injection Hlast as ->. cbn [trimEnd]. rewrite Hc. reflexivity.
  - rewrite IH by exact Hlast. reflexivity.
Qed.

Lemma toLowerCase_app (a b : string) :
  toLowerCase (a ++ b) = toLowerCase a ++ toLowerCase b.
Proof.
  induction a as [|c a IH]; [reflexivity|].
  rewrite append_cons. cbn [toLowerCase]. rewrite IH. reflexivity.
Qed.

Lemma toLowerCase_ws (ws : string) :
  all_cls isWhiteSpace ws = true -> toLowerCase ws = ws.
Proof.
  induction ws as [|c ws IH]; [reflexivity|]. cbn [all_cls toLowerCase].
  intros H. apply andb_true_iff in H as [Hc Hws].
  rewrite (ws_lower c Hc), (IH Hws). reflexivity.
Qed.

Ltac lower_digits :=
  repeat match goal with
         | H : isDigit ?c = true |- _ => rewrite (digit_lower c H)
         end.

Lemma toLowerCase_render (tt : TimeText) :
  tt_wf tt = true -> toLowerCase (render tt) = render tt.
Proof.
  destruct tt as [h1 h2 ms ws ap]. unfold tt_wf, render.
  cbn [tt_h1 tt_h2 tt_minsec tt_ws tt_ampm].
  rewrite !andb_true_iff. intros [[[H1 H2] Hms] Hws].
  rewrite !toLowerCase_app, (toLowerCase_ws ws Hws).
  f_equal; [|f_equal; [|f_equal]].
  - destruct h2 as [c|]; cbn [opt_char opt_digit toLowerCase] in *;
      lower_digits; reflexivity.
  - destruct ms as [|m1 m2|m1 m2 s1 s2]; cbn [minsec_digits] in Hms;
      rewrite ?andb_true_iff in Hms; cbn [render_minsec toLowerCase];
      repeat match goal with H : _ /\ _ |- _ => destruct H end;
      lower_digits; reflexivity.
  - destruct ap as [[]|]; reflexivity.
Qed.

(** A time text that does not end in white space is left alone by [trim]. *)
Lemma trim_render (tt : TimeText) :
  tt_wf tt = true -> (tt_ampm tt = None -> tt_ws tt = "") ->
  trim (render tt) = render tt.
Proof.
  destruct tt as [h1 h2 ms ws ap]. unfold tt_wf, render, trim.
  cbn [tt_h1 tt_h2 tt_minsec tt_ws tt_ampm].
  rewrite !andb_true_iff. intros [[[H1 H2] Hms] Hws] Hap.
  rewrite append_cons. cbn [trimStart]. rewrite (digit_not_ws h1 H1).
  rewrite <- append_cons.
  assert (Hlast : exists c, last_char None
                    (String h1 (opt_char h2) ++ render_minsec ms ++ ws ++ render_ampm ap)
                    = Some c /\ isWhiteSpace c = false).
  { rewrite !last_char_app. destruct ap as [[]|].
    - exists "m"%char. split; reflexivity.
    - exists "m"%char. split; reflexivity.
    - rewrite (Hap eq_refl). cbn [last_char render_ampm].
      destruct ms as [|m1 m2|m1 m2 s1 s2]; cbn [minsec_digits] in Hms;
        rewrite ?andb_true_iff in Hms; cbn [last_char render_minsec].
      + destruct h2 as [c|]; cbn [opt_char opt_digit last_char] in *;
          eauto using digit_not_ws.
      + exists m2. split; [reflexivity | apply digit_not_ws; tauto].
      + exists s2. split; [reflexivity | apply digit_not_ws; tauto]. }
  destruct Hlast as (c & Hlast & Hc). eapply trimEnd_fixed; eassumption.
Qed.

(** A time text without trailing white space is read as it stands. *)
Lemma timeToMinutes_render (tt : TimeText) :
  tt_wf tt = true -> (tt_ampm tt = None -> tt_ws tt = "") ->
  timeToMinutes (Some (render tt)) = Some (Num (tt_total tt)).
Proof.
  intros Hwf Hap. apply timeToMinutes_time_text; [exact Hwf|].
  rewrite trim_render, toLowerCase_render; auto.
Qed.

Lemma two_digits_range (a b : ascii) :
  isDigit a = true -> isDigit b = true -> 0 <= two_digits a b <= 99.
Proof.
  intros Ha Hb. unfold two_digits.
  pose proof (digit_val_range a Ha). pose proof (digit_val_range b Hb). lia.
Qed.

Lemma tt_hour_range (tt : TimeText) : tt_wf tt = true -> 0 <= tt_hour tt <= 99.
Proof.
  destruct tt as [h1 h2 ms ws ap]. unfold tt_wf, tt_hour.
  cbn [tt_h1 tt_h2 tt_minsec tt_ws tt_ampm].
  rewrite !andb_true_iff. intros [[[H1 H2] _] _].
  destruct h2 as [c|]; cbn [opt_digit] in H2.
  - apply two_digits_range; assumption.
  - pose proof (digit_val_range h1 H1). lia.
Qed.

Lemma tt_minute_range (tt : TimeText) : tt_wf tt = true -> 0 <= tt_minute tt <= 99.
Proof.
  destruct tt as [h1 h2 ms ws ap]. unfold tt_wf, tt_minute.
  cbn [tt_h1 tt_h2 tt_minsec tt_ws tt_ampm].
  rewrite !andb_true_iff. intros [[_ Hms] _].
  destruct ms as [|m1 m2|m1 m2 s1 s2]; cbn [minsec_digits] in Hms;
    rewrite ?andb_true_iff in Hms; try lia; apply two_digits_range; tauto.
Qed.

Lemma tt_second_range (tt : TimeText) : tt_wf tt = true -> 0 <= tt_second tt <= 99.
Proof.
  destruct tt as [h1 h2 ms ws ap]. unfold tt_wf, tt_second.
  cbn [tt_h1 tt_h2 tt_minsec tt_ws tt_ampm].
  rewrite !andb_true_iff. intros [[_ Hms] _].
  destruct ms as [|m1 m2|m1 m2 s1 s2]; cbn [minsec_digits] in Hms;
    rewrite ?andb_true_iff in Hms; try lia; apply two_digits_range; tauto.
Qed.

Lemma tt_hour24_range (tt : TimeText) : tt_wf tt = true -> 0 <= tt_hour24 tt <= 111.
Proof.
  intros Hwf. pose proof (tt_hour_range tt Hwf). unfold tt_hour24.
  destruct (tt_ampm tt) as [[]|]; destruct (tt_hour tt =? 12)%Z; lia.
Qed.

(** Seconds below sixty are floored away. *)
Lemma tt_total_floor (tt : TimeText) :
  0 <= tt_second tt < 60 -> tt_total tt = tt_hour24 tt * 60 + tt_minute tt.
Proof.
  intros Hs. unfold tt_total.
  replace (tt_hour24 tt * 3600 + tt_minute tt * 60 + tt_second tt)
    with ((tt_hour24 tt * 60 + tt_minute tt) * 60 + tt_second tt) by lia.
  rewrite Z.div_add_l by lia. rewrite Z.div_small by lia. lia.
Qed.

Lemma tt_total_nonneg (tt : TimeText) : tt_wf tt = true -> 0 <= tt_total tt.
Proof.
  intros Hwf. unfold tt_total.
  pose proof (tt_hour24_range tt Hwf). pose proof (tt_minute_range tt Hwf).
  pose proof (tt_second_range tt Hwf).
  apply Z.div_pos; lia.
Qed.

(** The result is never NaN and never negative. *)
Lemma timeToMinutes_number (t : option string) (n : number) :
  timeToMinutes t = Some n -> exists z, n = Num z /\ 0 <= z.
Proof.
  destruct t as [t|]; [|discriminate].
  intros H.
  destruct (exec false time_re (toLowerCase (trim t))) as [m|] eqn:E.
  - assert (Htt : is_time_text (toLowerCase (trim t))).
    { apply accepts_time_text. unfold time_re in *. eapply exec_anchored_sound. exact E. }
    destruct Htt as (tt & Hwf & Ht).
    rewrite (timeToMinutes_time_text t tt Hwf Ht) in H. injection H as <-.
    exists (tt_total tt). split; [reflexivity | apply tt_total_nonneg; exact Hwf].
  - unfold timeToMinutes in H. rewrite E in H.
    destruct (negb (truthy (Some t))); discriminate.
Qed.


(** C6. [timeToMinutes] resolves single times in 24-hour and 12-hour form
    to minutes since midnight: "14:00" is 840; "h:mm pm" with h other than
    12 is (h+12)*60+mm; "12:xx am" is hour 0; trailing seconds are accepted
    and floored away (the result is the whole number of minutes in
    hh*3600+mm*60+ss seconds, so seconds below sixty vanish); every text
    that does not match the time pattern gives null, and the result is
    never NaN. *)
Theorem timeToMinutes_resolves_single_times :
  timeToMinutes (Some "14:00") = Some (Num 840)
  /\ (forall t tt,
        tt_wf tt = true -> toLowerCase (trim t) = render tt ->
        timeToMinutes (Some t)
        = Some (Num ((tt_hour24 tt * 3600 + tt_minute tt * 60 + tt_second tt) / 60)))
  /\ (forall tt m1 m2,
        tt_wf tt = true -> tt_minsec tt = Min m1 m2 -> tt_ampm tt = Some true ->
        tt_hour tt <> 12 ->
        timeToMinutes (Some (render tt))
        = Some (Num ((tt_hour tt + 12) * 60 + two_digits m1 m2)))
  /\ (forall tt x1 x2,
        tt_wf tt = true -> tt_h1 tt = "1"%char -> tt_h2 tt = Some "2"%char ->
        tt_minsec tt = Min x1 x2 -> tt_ampm tt = Some false ->
        timeToMinutes (Some (render tt)) = Some (Num (0 * 60 + two_digits x1 x2)))
  /\ (forall tt,
        tt_wf tt = true -> (tt_ampm tt = None -> tt_ws tt = "") ->
        tt_second tt < 60 ->
        timeToMinutes (Some (render tt))
        = Some (Num (tt_hour24 tt * 60 + tt_minute tt)))
  /\ (forall s, is_time_text s <-> accepts false time_re s)
  /\ (forall t, ~ is_time_text (toLowerCase (trim t)) -> timeToMinutes (Some t) = None)
  /\ timeToMinutes None = None
  /\ (forall t n, timeToMinutes t = Some n -> exists z, n = Num z /\ 0 <= z).
Proof.
  assert (Hfloor : forall tt,
             tt_wf tt = true -> (tt_ampm tt = None -> tt_ws tt = "") ->
             tt_second tt < 60 ->
             timeToMinutes (Some (render tt))
             = Some (Num (tt_hour24 tt * 60 + tt_minute tt))).
  { intros tt Hwf Hap Hs. rewrite (timeToMinutes_render tt Hwf Hap).
    rewrite tt_total_floor; [reflexivity|].
    pose proof (tt_second_range tt Hwf). lia. }
  split; [reflexivity|]. split; [exact timeToMinutes_time_text|].
  split; [|split; [|split; [exact Hfloor|]]].
  - intros tt m1 m2 Hwf Hms Hap Hh.
    rewrite Hfloor; [| exact Hwf | rewrite Hap; discriminate
                     | unfold tt_second; rewrite Hms; lia].
    unfold tt_hour24, tt_minute. rewrite Hap, Hms.
    destruct (Z.eqb_spec (tt_hour tt) 12); [contradiction | reflexivity].
  - intros tt x1 x2 Hwf H1 H2 Hms Hap.
    rewrite Hfloor; [| exact Hwf | rewrite Hap; discriminate
                     | unfold tt_second; rewrite Hms; lia].
    unfold tt_hour24, tt_minute, tt_hour. rewrite Hap, Hms, H1, H2. reflexivity.
  - split; [|split; [|split]].
    + intros s. split; [apply time_text_accepts | apply accepts_time_text].
    + exact timeToMinutes_not_time_text.
    + reflexivity.
    + exact timeToMinutes_number.
Qed.

(** Witnesses: "5:40 pm", "12:15 am" and "9:05:59" through the theorem, and
    a text that is not a time. *)
Lemma timeToMinutes_witness :
  timeToMinutes (Some "5:40 pm") = Some (Num 1060)
  /\ timeToMinutes (Some "12:15 am") = Some (Num 15)
  /\ timeToMinutes (Some "9:05:59") = Some (Num 545)
  /\ timeToMinutes (Some "noon") = None.
Proof.
  destruct timeToMinutes_resolves_single_times
    as (_ & _ & Hpm & Ham & Hsec & _ & Hnull & _ & _).
  split; [|split; [|split]].
  - apply (Hpm (mkTimeText "5" None (Min "4" "0") " " (Some true)) "4"%char "0"%char);
      (reflexivity || (vm_compute; discriminate)).
  - apply (Ham (mkTimeText "1" (Some "2"%char) (Min "1" "5") " " (Some false))
               "1"%char "5"%char); reflexivity.
  - apply (Hsec (mkTimeText "9" None (MinAndSec "0" "5" "5" "9") "" None));
      (reflexivity || (vm_compute; reflexivity)).
  - apply Hnull. intros (tt & Hwf & Ht).
    destruct tt as [h1 h2 ms ws ap]. unfold render in Ht.
    cbn [tt_h1] in Ht. rewrite append_cons in Ht. injection Ht as <- _.
    discriminate Hwf.
Defined.

(** Seconds are two digits, so "14:00:75" is accepted too; its seventy-five
    seconds carry one minute. *)
Example timeToMinutes_seconds_carry :
  timeToMinutes (Some "14:00:75") = Some (Num 841).
Proof. reflexivity. Qed.

Example timeToMinutes_examples :
  timeToMinutes (Some " 2:00 PM ") = Some (Num 840)
  /\ timeToMinutes (Some "14:00:30") = Some (Num 840)
  /\ timeToMinutes (Some "12 pm") = Some (Num 720)
  /\ timeToMinutes (Some "5pm") = Some (Num 1020)
  /\ timeToMinutes (Some "5:4 pm") = None
  /\ timeToMinutes (Some "") = None.
Proof. repeat split; reflexivity. Qed.

(** C10. [durationFromAppt] returns a strictly positive number of minutes
    for every appointment: end minus start when both times parse and the
    difference is positive, and 60 otherwise; it is never NaN. *)
Theorem durationFromAppt_positive (a : Appt) :
  exists d,
    durationFromAppt a = Num d /\ 0 < d
    /\ match timeToMinutes (or_else (start_time a) (start a)),
             timeToMinutes (or_else (end_time a) (end_ a)) with
       | Some (Num s), Some (Num e) => d = if (0 <? e - s)%Z then e - s else 60
       | _, _ => d = 60
       end.
Proof.
  unfold durationFromAppt.
  destruct (timeToMinutes (or_else (start_time a) (start a))) as [[s|]|];
    destruct (timeToMinutes (or_else (end_time a) (end_ a))) as [[e|]|];
    cbn [num_sub num_gtb];
    try (exists 60; repeat split; lia).
  destruct (Z.ltb_spec 0 (e - s)).
  - exists (e - s). repeat split; lia.
  - exists 60. repeat split; lia.
Qed.

Example durationFromAppt_examples :
  durationFromAppt (mkAppt (Some "14:00") None (Some "15:30") None) = Num 90
  /\ durationFromAppt (mkAppt None (Some "2:00 pm") None (Some "2:45 pm")) = Num 45
  /\ durationFromAppt (mkAppt (Some "15:00") None (Some "14:00") None) = Num 60
  /\ durationFromAppt (mkAppt (Some "10:00") None (Some "10:00") None) = Num 60
  /\ durationFromAppt (mkAppt (Some "soon") None (Some "15:30") None) = Num 60
  /\ durationFromAppt (mkAppt None None None None) = Num 60
  /\ durationFromAppt (mkAppt (Some "") (Some "9:00") (Some "") (Some "9:20")) = Num 20.
Proof. repeat split; reflexivity. Qed.

End TimeTexts.

(** ** The due-poll timers *)

Section PollTimers.

Import Payload Timers.

Variable Cb : Type.
Variable handler : Cb -> Loop Cb -> Loop Cb.
Variable cb : Cb.
Variable req : Request.
Variable period : Z.

Hypothesis handler_posts : forall l, handler cb l = post req l.

Lemma ticks_S (from : Z) (n : nat) :
  ticks period req from (S n)
  = (period * from, req) :: ticks period req (from + 1) n.
Proof.
  unfold ticks. cbn [seq map]. rewrite Z.add_0_r. f_equal.
  rewrite <- seq_shift, map_map. apply map_ext. intros i. f_equal. lia.
Qed.

(** A process with one interval timer: after [n] more firings the clock
    has advanced by [n] periods and one request was posted at each. *)
Lemma single_timer_run (n : nat) :
  forall (k : Z) (clock : Z) (sent : list (Z * Request)),
    run_firings handler n (mkLoop clock [mkTimer 0 cb period (period * (k + 1))] sent)
    = mkLoop (if Nat.eqb n 0 then clock else period * (k + Z.of_nat n))
             [mkTimer 0 cb period (period * (k + Z.of_nat n + 1))]
             (sent ++ ticks period req (k + 1) n).
Proof.
  induction n as [|n IH]; intros k clock sent.
  - cbn. rewrite Z.add_0_r, app_nil_r. reflexivity.
  - cbn [run_firings]. unfold fire_next at 1.
    cbn [timers earliest t_callback t_next t_id outbox reschedule map Nat.eqb t_period].
    rewrite handler_posts. unfold post. cbn [now timers outbox].
    replace (period * (k + 1) + period) with (period * ((k + 1) + 1)) by lia.
    rewrite IH. rewrite ticks_S, <- app_assoc. cbn [app Nat.eqb].
    f_equal.
    + destruct (Nat.eqb n 0) eqn:E; [apply Nat.eqb_eq in E; subst n|]; f_equal; lia.
    + do 2 f_equal. lia.
Qed.

End PollTimers.

Section DuePoll.

Import Payload Timers.

Local Open Scope string_scope.

(** C7. In the renderer and in the Electron main process alike the due-poll
    is issued by one interval timer: the request [reminders_due] leaves
    once at startup and then once every 60000 ms, and no other timer posts
    it. *)
Theorem due_poll_once_at_startup_then_every_60000_ms (n : nat) :
  (let l := run_firings App.handler n (App.remindersEffect start) in
   outbox l = ticks 60000 (Action "reminders_due") 0 (S n)
   /\ length (timers l) = 1%nat)
  /\ (let l := run_firings ElectronMain.handler n (ElectronMain.whenReady start) in
      outbox l = ticks 60000 (Action "reminders_due") 0 (S n)
      /\ length (timers l) = 1%nat)
  /\ ElectronMain.POLL_MS = 60000.
Proof.
  split; [|split; [|reflexivity]].
  - pose proof (single_timer_run App.Callback App.handler App.CbPoll
                  (Action "reminders_due") 60000 (fun l => eq_refl) n 0 0
                  [(0, Action "reminders_due")]) as H.
    cbv zeta.
    change (App.remindersEffect start)
      with (mkLoop 0 [mkTimer 0 App.CbPoll 60000 (60000 * (0 + 1))]
                   [(0, Action "reminders_due")]).
    rewrite H. cbn [outbox timers length]. split; [|reflexivity].
    rewrite ticks_S. reflexivity.
  - pose proof (single_timer_run ElectronMain.Callback ElectronMain.handler
                  ElectronMain.CbPollDueReminders
                  (Action "reminders_due") 60000 (fun l => eq_refl) n 0 0
                  [(0, Action "reminders_due")]) as H.
    cbv zeta.
    change (ElectronMain.whenReady start)
      with (mkLoop 0 [mkTimer 0 ElectronMain.CbPollDueReminders 60000 (60000 * (0 + 1))]
                   [(0, Action "reminders_due")]).
    rewrite H. cbn [outbox timers length]. split; [|reflexivity].
    rewrite ticks_S. reflexivity.
Qed.

(** The first four requests of either process. *)
Example due_poll_first_requests :
  outbox (run_firings App.handler 3 (App.remindersEffect start))
  = [(0, Action "reminders_due"); (60000, Action "reminders_due");
     (120000, Action "reminders_due"); (180000, Action "reminders_due")]
  /\ outbox (run_firings ElectronMain.handler 3 (ElectronMain.whenReady start))
     = [(0, Action "reminders_due"); (60000, Action "reminders_due");
        (120000, Action "reminders_due"); (180000, Action "reminders_due")].
Proof. split; reflexivity. Qed.

End DuePoll.

(** ** Native notifications of the main process *)

Section NativeNotifications.

Import ElectronMain.

Lemma send_same msg st : same_notifications st (send msg st).
Proof. unfold send. destruct (win_alive st); split; reflexivity. Qed.

Lemma startAlarm_same i st : same_notifications st (startAlarm i st).
Proof. unfold startAlarm. destruct (ringing st !! i); split; reflexivity. Qed.

Lemma stopAlarm_same i st : same_notifications st (stopAlarm i st).
Proof. unfold stopAlarm. destruct (ringing st !! i); split; reflexivity. Qed.

Lemma alarmTick_same i st : same_notifications st (alarmTick i st).
Proof.
  unfold alarmTick. destruct (ringing st !! i) as [count|]; [|split; reflexivity].
  destruct (3 <=? S count)%nat; split; reflexivity.
Qed.

Lemma same_trans st1 st2 st3 :
  same_notifications st1 st2 -> same_notifications st2 st3 ->
  same_notifications st1 st3.
Proof. intros [H1 H2] [H3 H4]. split; congruence. Qed.

Lemma sendDismiss_same i st : same_notifications st (sendDismiss i st).
Proof.
  unfold sendDismiss. eapply same_trans; [apply stopAlarm_same | apply send_same].
Qed.

Lemma onClick_same r st : same_notifications st (onClick r st).
Proof.
  unfold onClick. eapply same_trans; [|apply sendDismiss_same].
  destruct (win_alive st); [|split; reflexivity].
  destruct (appointment_id r) as [a|]; [destruct (a =? 0)%Z|]; apply send_same.
Qed.

Lemma same_once_each st st' :
  same_notifications st st' -> once_each st -> once_each st'.
Proof. intros [Hn Hs] [Hd Hin]. unfold once_each. rewrite Hn, Hs. auto. Qed.

Lemma showNativeReminder_already (r : Reminder) (st : MainState) :
  id r ∈ notified st -> showNativeReminder (Some r) st = st.
Proof.
  intros H. unfold showNativeReminder. destruct (decide (id r ∈ notified st)); [reflexivity|].
  contradiction.
Qed.

Lemma showNativeReminder_grows (r : option Reminder) (st : MainState) :
  notified st ⊆ notified (showNativeReminder r st).
Proof.
  unfold showNativeReminder. destruct r as [r|]; [|reflexivity].
  destruct (decide (id r ∈ notified st)); [reflexivity|].
  destruct (send_same (ReminderNotify r)
              (mkMain (ringing st) ({[id r]} ∪ notified st)
                      (shown st ++ [mkNotification (id r)
                                      match title r with
                                      | Some (String c t) => String c t
                                      | _ => "Reminder"%string
                                      end])
                      (sent st) (win_alive st) (sounds st))) as [-> _].
  cbn [notified]. set_solver.
Qed.

Lemma showNativeReminder_once_each (r : option Reminder) (st : MainState) :
  once_each st -> once_each (showNativeReminder r st).
Proof.
  intros [Hd Hin]. unfold showNativeReminder. destruct r as [r|]; [|split; assumption].
  destruct (decide (id r ∈ notified st)) as [|Hnew]; [split; assumption|].
  eapply same_once_each; [apply send_same|].
  unfold once_each. cbn [notified shown]. rewrite map_app. cbn [map n_reminder].
  split.
  - apply NoDup_app. split; [exact Hd|]. split; [|apply NoDup_singleton].
    intros i Hi Hi'. apply list_elem_of_In in Hi. apply Hin in Hi.
    apply list_elem_of_In in Hi'. cbn in Hi'. destruct Hi' as [<-|[]]. contradiction.
  - intros i Hi. apply in_app_or in Hi as [Hi|[<-|[]]]; [|set_solver].
    apply Hin in Hi. set_solver.
Qed.

Lemma forEach_grows (rs : list (option Reminder)) : forall st,
  notified st ⊆ notified (fold_left (fun s r => showNativeReminder r s) rs st).
Proof.
  induction rs as [|r rs IH]; intros st; cbn [fold_left]; [reflexivity|].
  etransitivity; [apply showNativeReminder_grows | apply IH].
Qed.

Lemma forEach_once_each (rs : list (option Reminder)) : forall st,
  once_each st -> once_each (fold_left (fun s r => showNativeReminder r s) rs st).
Proof.
  induction rs as [|r rs IH]; intros st H; cbn [fold_left]; [exact H|].
  apply IH, showNativeReminder_once_each, H.
Qed.

Lemma handle_grows (ev : Event) (st : MainState) :
  notified st ⊆ notified (handle ev st).
Proof.
  destruct ev as [r|i|[rs|]| |i|r|i|i| |]; cbn [handle notified]; try reflexivity.
  - apply showNativeReminder_grows.
  - destruct (stopAlarm_same i st) as [-> _]. reflexivity.
  - apply forEach_grows.
  - destruct (startAlarm_same i st) as [-> _]. reflexivity.
  - destruct (onClick_same r st) as [-> _]. reflexivity.
  - destruct (sendDismiss_same i st) as [-> _]. reflexivity.
  - destruct (alarmTick_same i st) as [-> _]. reflexivity.
Qed.

Lemma handle_once_each (ev : Event) (st : MainState) :
  once_each st -> once_each (handle ev st).
Proof.
  intros H.
  destruct ev as [r|i|[rs|]| |i|r|i|i| |]; cbn [handle]; try exact H.
  - apply showNativeReminder_once_each, H.
  - eapply same_once_each; [apply stopAlarm_same | exact H].
  - apply forEach_once_each, H.
  - eapply same_once_each; [apply startAlarm_same | exact H].
  - eapply same_once_each; [apply onClick_same | exact H].
  - eapply same_once_each; [apply sendDismiss_same | exact H].
  - eapply same_once_each; [apply alarmTick_same | exact H].
Qed.

Lemma run_once_each (evs : list Event) : forall st,
  once_each st -> once_each (run evs st).
Proof.
  unfold run. induction evs as [|ev evs IH]; intros st H; cbn [fold_left]; [exact H|].
  apply IH, handle_once_each, H.
Qed.

Lemma run_grows (evs : list Event) : forall st,
  notified st ⊆ notified (run evs st).
Proof.
  unfold run. induction evs as [|ev evs IH]; intros st; cbn [fold_left]; [reflexivity|].
  etransitivity; [apply handle_grows | apply IH].
Qed.

(** C9. At most one native notification per reminder id for the lifetime of
    the main process: [showNativeReminder] does nothing for an id already
    in the notified set, the notified set only grows, and among the
    notifications shown from startup no id occurs twice. *)
Theorem native_notification_at_most_once_per_id :
  (forall (r : Reminder) (st : MainState),
      id r ∈ notified st -> showNativeReminder (Some r) st = st)
  /\ (forall (ev : Event) (st : MainState), notified st ⊆ notified (handle ev st))
  /\ (forall (evs : list Event) (st : MainState), notified st ⊆ notified (run evs st))
  /\ (forall (evs : list Event) (i : Z),
        (count_occ Z.eq_dec (map n_reminder (shown (run evs initial))) i <= 1)%nat).
Proof.
  split; [exact showNativeReminder_already|].
  split; [exact handle_grows|]. split; [intros evs st; apply run_grows|].
  intros evs i.
  assert (H : once_each (run evs initial)).
  { apply run_once_each. split; [constructor | intros j []]. }
  destruct H as [Hd _]. apply NoDup_ListNoDup in Hd.
  apply (proj1 (List.NoDup_count_occ Z.eq_dec _) Hd).
Qed.

(** A witness: the reminder 7 was notified once; a second call changes
    nothing. *)
Lemma native_notification_witness :
  let r := mkReminder 7 (Some "Call Alex"%string) None in
  let st := showNativeReminder (Some r) initial in
  id r ∈ notified st /\ showNativeReminder (Some r) st = st.
Proof.
  cbv zeta.
  assert (H : id (mkReminder 7 (Some "Call Alex"%string) None)
              ∈ notified (showNativeReminder
                            (Some (mkReminder 7 (Some "Call Alex"%string) None)) initial))
    by (vm_compute; set_solver).
  split; [exact H|].
  apply (proj1 native_notification_at_most_once_per_id). exact H.
Defined.

(** A poll answer that lists reminder 7 twice and reminder 8 once, followed
    by the renderer asking for reminder 7 again: two notifications. *)
Example native_notifications_of_a_run :
  let r7 := mkReminder 7 (Some "Call Alex"%string) None in
  let r8 := mkReminder 8 None (Some 3) in
  shown (run [PollResponse (Some [Some r7; Some r7; None; Some r8]);
              NotificationShow 7; IpcNotifyReminder (Some r7)] initial)
  = [mkNotification 7 "Call Alex"; mkNotification 8 "Reminder"].
Proof. vm_compute. reflexivity. Qed.

End NativeNotifications.

(** ** Searching a text for a pattern *)

Section Search.

Import Js Regex.

Local Open Scope string_scope.

Variable icase : bool.
Variable subject : string.

(** When the search fails, the match attempt fails at every position. *)
Lemma exec_from_none (r : regex) (a : string) :
  forall (b : string) (prev : option ascii) (pos : nat),
    exec_from icase subject r prev pos (a ++ b) = None ->
    Regex.run icase subject r Some
              (mkM (last_char prev a) (pos + String.length a) b []) = None.
Proof.
  induction a as [|c a IH]; intros b prev pos H.
  - rewrite append_nil in H. cbn [last_char String.length]. rewrite Nat.add_0_r.
    destruct b as [|x b]; cbn [exec_from] in H;
      destruct (Regex.run icase subject r Some _); [discriminate | reflexivity
                                                   | discriminate | reflexivity].
  - rewrite append_cons in H. cbn [exec_from] in H.
    destruct (Regex.run icase subject r Some _); [discriminate|].
    apply IH in H. cbn [last_char String.length].
    rewrite <- Nat.add_succ_comm. exact H.
Qed.

Lemma char_eq_refl (c : ascii) : char_eq icase c c = true.
Proof. unfold char_eq. destruct icase; apply Ascii.eqb_refl. Qed.

(** A literal matches itself. *)
Lemma matches_lit (w : string) :
  forall (rest : string) (prev : option ascii) (pos : nat) (caps : Captures),
    matches icase subject (Lit w) (mkM prev pos (w ++ rest) caps)
            (mkM (last_char prev w) (pos + String.length w) rest caps).
Proof.
  induction w as [|c w IH]; intros rest prev pos caps.
  - rewrite append_nil. cbn [last_char String.length Lit]. rewrite Nat.add_0_r.
    constructor.
  - rewrite append_cons. cbn [last_char String.length Lit].
    eapply M_Seq.
    + eapply M_Chr; [reflexivity | apply char_eq_refl].
    + unfold advance. cbn [m_pos m_caps]. rewrite <- Nat.add_succ_comm. apply IH.
Qed.

Lemma matches_alt_of (rs : list regex) (r : regex) (st st' : MState) :
  In r rs -> matches icase subject r st st' -> matches icase subject (AltOf rs) st st'.
Proof.
  induction rs as [|r0 rs IH]; intros Hin Hm; [contradiction|].
  destruct rs as [|r1 rs].
  - destruct Hin as [<-|[]]. exact Hm.
  - cbn [AltOf]. destruct Hin as [<-|Hin].
    + apply M_AltL. exact Hm.
    + apply M_AltR. apply IH; assumption.
Qed.

End Search.

Section SearchTest.

Import Js Regex.

Local Open Scope string_scope.

(** A match at some position makes [test] succeed. *)
Lemma test_of_matches (ic : bool) (r : regex) (pre rest : string) (st' : MState) :
  matches ic (pre ++ rest) r
          (mkM (last_char None pre) (String.length pre) rest []) st' ->
  test ic r (pre ++ rest) = true.
Proof.
  intros Hm. unfold test, exec.
  destruct (exec_from ic (pre ++ rest) r None 0 (pre ++ rest)) eqn:E; [reflexivity|].
  apply exec_from_none in E. cbn [Nat.add] in E.
  pose proof (run_complete ic (pre ++ rest) r Some _ E st' Hm). discriminate.
Qed.

(** A text that contains one of the literals of an alternation passes its
    test. *)
Lemma test_alt_of_literals (ic : bool) (ws : list string) (w pre post : string) :
  In w ws ->
  test ic (AltOf (map Lit ws)) (pre ++ w ++ post) = true.
Proof.
  intros Hin. eapply test_of_matches.
  eapply matches_alt_of; [apply in_map; exact Hin | apply matches_lit].
Qed.

(** A text that contains a literal between word boundaries passes the test
    of \bliteral\b. *)
Lemma test_word (ic : bool) (w pre post : string) :
  is_word_opt (next_char w) = true ->
  is_word_opt (last_char None w) = true ->
  is_word_opt (last_char None pre) = false ->
  is_word_opt (next_char post) = false ->
  test ic (Seq WordB (Seq (Lit w) WordB)) (pre ++ w ++ post) = true.
Proof.
  intros Hfirst Hlast Hpre Hpost. eapply test_of_matches.
  eapply M_Seq; [|eapply M_Seq; [apply matches_lit|]].
  - apply M_WordB. unfold at_word_boundary. cbn [m_prev m_rest].
    rewrite Hpre. destruct w as [|c w]; [discriminate Hfirst|].
    rewrite append_cons. cbn [next_char] in *. rewrite Hfirst. reflexivity.
  - apply M_WordB. unfold at_word_boundary. cbn [m_prev m_rest].
    rewrite Hpost.
    destruct w as [|c w]; [discriminate Hfirst|].
    cbn [last_char] in *. rewrite Hlast. reflexivity.
Qed.

End SearchTest.


(** ** Trimming, lower-casing and containment *)

Section Strings.

Import Js Regex.

Local Open Scope string_scope.

Lemma startsWith_spec (s p : string) :
  startsWith s p = true <-> exists post, s = p ++ post.
Proof.
  revert s. induction p as [|a p IH]; intros s.
  - split; [intros _; exists s; reflexivity | intros _; destruct s; reflexivity].
  - destruct s as [|b s]; cbn [startsWith].
    + split; [discriminate | intros (post & H); rewrite append_cons in H; discriminate].
    + rewrite andb_true_iff, Ascii.eqb_eq, IH. split.
      * intros [-> (post & ->)]. exists post. reflexivity.
      * intros (post & H). rewrite append_cons in H. injection H as -> ->. eauto.
Qed.

Lemma includes_spec (s sub : string) :
  includes s sub = true <-> exists pre post, s = pre ++ sub ++ post.
Proof.
  induction s as [|c s IH].
  - cbn [includes]. rewrite orb_false_r, startsWith_spec. split.
    + intros (post & H). exists "", post. exact H.
    + intros (pre & post & H). destruct pre as [|x pre]; [|discriminate H].
      exists post. exact H.
  - cbn [includes]. rewrite orb_true_iff, startsWith_spec, IH. split.
    + intros [(post & H) | (pre & post & H)].
      * exists "", post. exact H.
      * exists (String c pre), post. rewrite append_cons, H. reflexivity.
    + intros (pre & post & H). destruct pre as [|x pre].
      * left. exists post. exact H.
      * right. rewrite append_cons in H. injection H as -> ->. eauto.
Qed.

Lemma toLowerCase_trimStart (s : string) :
  toLowerCase (trimStart s) = trimStart (toLowerCase s).
Proof.
  induction s as [|c s IH]; [reflexivity|]. cbn [trimStart toLowerCase].
  rewrite lower_ws. destruct (isWhiteSpace c); [exact IH | reflexivity].
Qed.

Lemma toLowerCase_trimEnd (s : string) :
  toLowerCase (trimEnd s) = trimEnd (toLowerCase s).
Proof.
  induction s as [|c s IH]; [reflexivity|]. cbn [trimEnd toLowerCase].
  rewrite <- IH, lower_ws.
  destruct (trimEnd s) as [|x r]; cbn [toLowerCase];
    [destruct (isWhiteSpace c)|]; reflexivity.
Qed.

(** Lower-casing commutes with trimming. *)
Lemma toLowerCase_trim (s : string) :
  toLowerCase (trim s) = trim (toLowerCase s).
Proof. unfold trim. rewrite toLowerCase_trimEnd, toLowerCase_trimStart. reflexivity. Qed.

(** [trimStart] stops at the latest in front of a text that begins with a
    character other than white space. *)
Lemma trimStart_app (pre x : string) (c : ascii) :
  isWhiteSpace c = false ->
  trimStart (pre ++ String c x) = trimStart pre ++ String c x.
Proof.
  intros Hc. induction pre as [|a pre IH].
  - rewrite append_nil. cbn [trimStart]. rewrite Hc. reflexivity.
  - rewrite append_cons. cbn [trimStart]. destruct (isWhiteSpace a); [exact IH|].
    rewrite append_cons. reflexivity.
Qed.

(** [trimEnd] keeps a text whose last character is not white space, and
    what stands before it. *)
Lemma trimEnd_app (y post : string) (c : ascii) :
  last_char None y = Some c -> isWhiteSpace c = false ->
  trimEnd (y ++ post) = y ++ trimEnd post.
Proof.
  intros Hlast Hc. induction y as [|a y IH]; [discriminate Hlast|].
  rewrite !append_cons. cbn [trimEnd]. destruct y as [|b y'].
  - cbn in Hlast. injection Hlast as ->. rewrite append_nil.
    destruct (trimEnd post); [rewrite Hc|]; reflexivity.
  - rewrite IH by exact Hlast. rewrite append_cons. reflexivity.
Qed.

(** Trimming keeps an occurrence of a word that neither begins nor ends
    with white space; only the text around it is trimmed. *)
Lemma trim_around (pre post w : string) (c d : ascii) (w' : string) :
  w = String c w' -> isWhiteSpace c = false ->
  last_char None w = Some d -> isWhiteSpace d = false ->
  trim (pre ++ w ++ post) = trimStart pre ++ w ++ trimEnd post.
Proof.
  intros Hw Hc Hlast Hd. unfold trim.
  rewrite Hw, append_cons, trimStart_app by exact Hc.
  rewrite <- append_cons, <- Hw, <- append_assoc.
  assert (Hl : last_char None (trimStart pre ++ w) = Some d).
  { rewrite last_char_app. rewrite Hw in *. exact Hlast. }
  rewrite (trimEnd_app _ post d Hl Hd), append_assoc. reflexivity.
Qed.

Lemma last_char_trimStart (pre : string) :
  last_char None (trimStart pre) = None
  \/ last_char None (trimStart pre) = last_char None pre.
Proof.
  induction pre as [|a pre IH]; [left; reflexivity|]. cbn [trimStart].
  destruct (isWhiteSpace a); [|right; reflexivity].
  destruct IH as [IH|IH]; [left; exact IH|].
  destruct pre as [|b pre]; [left; reflexivity|]. right. rewrite IH. reflexivity.
Qed.

Lemma next_char_trimEnd (post : string) :
  next_char (trimEnd post) = None \/ next_char (trimEnd post) = next_char post.
Proof.
  destruct post as [|a post]; [left; reflexivity|]. cbn [trimEnd].
  destruct (trimEnd post); [destruct (isWhiteSpace a)|]; auto.
Qed.

End Strings.


(** ** The dispatchers *)

Section Dispatch.

Import Js Regex Payload.

Local Open Scope string_scope.

Lemma toLowerCase_nonempty (s : string) :
  toLowerCase s <> "" -> truthy (Some s) = true.
Proof. destruct s; [intros H; contradiction H; reflexivity | reflexivity]. Qed.

Lemma app_nonempty (a b c : string) (x : ascii) (w : string) :
  b = String x w -> a ++ b ++ c <> "".
Proof.
  intros ->. destruct a; [rewrite append_nil, append_cons | rewrite append_cons];
    discriminate.
Qed.

(** [handleQuery] posts the trimmed text itself whenever the guard of the
    shortcuts fails. *)
Lemma handleQuery_guarded (query : string) :
  truthy (Some (trim query)) = true ->
  App.shortcut_eligible (toLowerCase (trim query)) = false ->
  App.handleQuery query = Some (Query (trim query)).
Proof.
  intros Ht Hg. unfold App.handleQuery. rewrite Ht, Hg. reflexivity.
Qed.

(** A text that contains a cancel or delete keyword, in any letter case, is
    posted by [handleQuery] as it was typed (trimmed), never as a
    shortcut. *)
Lemma handleQuery_keeps_cancel_requests (query kw : string) :
  In kw App.cancel_keywords ->
  includes (toLowerCase query) kw = true ->
  App.handleQuery query = Some (Query (trim query)).
Proof.
  intros Hkw Hinc. apply includes_spec in Hinc as (pre & post & Hq).
  assert (Hlow : toLowerCase (trim query) = trimStart pre ++ kw ++ trimEnd post).
  { rewrite toLowerCase_trim, Hq.
    destruct Hkw as [<-|[<-|[<-|[<-|[]]]]];
      eapply trim_around; reflexivity. }
  assert (Hne : exists x w, kw = String x w).
  { destruct Hkw as [<-|[<-|[<-|[<-|[]]]]]; eauto. }
  destruct Hne as (x & w & Hx).
  apply handleQuery_guarded.
  - apply toLowerCase_nonempty. rewrite Hlow. eapply app_nonempty. exact Hx.
  - unfold App.shortcut_eligible. rewrite Hlow.
    change App.cancelLike_re with (AltOf (map Lit App.cancel_keywords)).
    rewrite (test_alt_of_literals true App.cancel_keywords kw _ _ Hkw).
    cbn [negb]. rewrite !andb_false_r. reflexivity.
Qed.

(** The voice paths post the text itself, whatever it contains. *)
Lemma voice_dispatchers_post_the_text :
  (forall text req, App.handleVoiceTranscript text = Some req ->
                    exists s, req = Query s)
  /\ (forall text req, VoiceAssistant.callBackend text = Some req ->
                      req = Query text).
Proof.
  split.
  - intros text req. unfold App.handleVoiceTranscript.
    destruct (negb (truthy _)); [discriminate|]. intros H. injection H as <-. eauto.
  - intros text req. unfold VoiceAssistant.callBackend.
    destruct (negb (truthy _)); [discriminate|]. intros H. injection H as <-. reflexivity.
Qed.

(** [sendQuery] of ChatLayout turns every text that contains "today" into
    the shortcut, whatever else the text says. *)
Lemma sendQuery_today_shortcut (query : string) :
  includes (toLowerCase (trim query)) "today" = true ->
  ChatLayout.sendQuery query = Some (Action "today").
Proof.
  intros H. unfold ChatLayout.sendQuery. rewrite H.
  destruct (trim query) as [|c t] eqn:E; [discriminate H | reflexivity].
Qed.

(** C4. A cancel request that mentions today, typed into ChatLayout: the
    text is replaced by the generic shortcut [{ action: 'today' }], while
    [handleQuery] of App.js posts the text itself. *)
Theorem sendQuery_rewrites_cancel_request_into_today :
  ChatLayout.sendQuery "cancel my meeting today" = Some (Action "today")
  /\ App.handleQuery "cancel my meeting today" = Some (Query "cancel my meeting today").
Proof. split; reflexivity. Qed.

(** C5 (as stated) fails: "this weekend today" contains "this week" and
    "today" and passes the guard of the shortcuts, and [handleQuery] sends
    [today], since "this week" is not a whole phrase there; and [sendQuery]
    of ChatLayout sends [today] for a text with both phrases. *)
Lemma this_week_not_always_chosen :
  (includes "this weekend today" "this week" = true
   /\ includes "this weekend today" "today" = true
   /\ App.shortcut_eligible "this weekend today" = true
   /\ App.handleQuery "this weekend today" = Some (Action "today"))
  /\ (includes "today or this week" "this week" = true
      /\ includes "today or this week" "today" = true
      /\ ChatLayout.sendQuery "today or this week" = Some (Action "today")).
Proof. repeat split; reflexivity. Qed.

(** C5 (amended). In [handleQuery] of App.js, a text in which "this week"
    occurs as a whole phrase (in any letter case, with no word character
    right before or right after it) and which passes the guard of the
    shortcuts is sent as [{ action: 'this_week' }], whether or not it also
    mentions today. *)
Theorem handleQuery_prefers_this_week (query pre post : string) :
  toLowerCase query = pre ++ "this week" ++ post ->
  is_word_opt (last_char None pre) = false ->
  is_word_opt (next_char post) = false ->
  App.shortcut_eligible (toLowerCase (trim query)) = true ->
  App.handleQuery query = Some (Action "this_week").
Proof.
  intros Hq Hpre Hpost Hg.
  assert (Hlow : toLowerCase (trim query)
                 = trimStart pre ++ "this week" ++ trimEnd post).
  { rewrite toLowerCase_trim, Hq. eapply trim_around; reflexivity. }
  assert (Ht : truthy (Some (trim query)) = true).
  { apply toLowerCase_nonempty. rewrite Hlow. eapply app_nonempty. reflexivity. }
  unfold App.handleQuery. rewrite Ht, Hg. cbn [negb].
  rewrite Hlow. unfold App.thisWeek_re. rewrite test_word; try reflexivity.
  - destruct (last_char_trimStart pre) as [-> | ->]; [reflexivity | exact Hpre].
  - destruct (next_char_trimEnd post) as [-> | ->]; [reflexivity | exact Hpost].
Qed.

(** A witness: a question that mentions today and this week. *)
Lemma handleQuery_prefers_this_week_witness :
  App.handleQuery "What's on today and This Week?" = Some (Action "this_week").
Proof.
  apply (handleQuery_prefers_this_week
           "What's on today and This Week?" "what's on today and " "?");
    reflexivity.
Defined.

End Dispatch.

(** ** More on characters and strings *)

Section MoreStrings.

Import Js Regex.

Local Open Scope string_scope.

Lemma toLowerChar_idem (c : ascii) : toLowerChar (toLowerChar c) = toLowerChar c.
Proof. destruct c as [[] [] [] [] [] [] [] []]; vm_compute; reflexivity. Qed.

Lemma toLowerCase_idem (s : string) : toLowerCase (toLowerCase s) = toLowerCase s.
Proof.
  induction s as [|c s IH]; [reflexivity|]. cbn [toLowerCase].
  rewrite toLowerChar_idem, IH. reflexivity.
Qed.

Lemma all_ascii (c : ascii) : In c (map ascii_of_nat (seq 0 256)).
Proof.
  apply in_map_iff. exists (nat_of_ascii c). split; [apply ascii_nat_embedding|].
  apply in_seq. pose proof (nat_ascii_bounded c). lia.
Qed.

(** Two characters that the flag /i identifies have the same lower-case
    form. *)
Lemma canonicalize_lower (a b : ascii) :
  Ascii.eqb (canonicalize a) (canonicalize b) = true -> toLowerChar a = toLowerChar b.
Proof.
  assert (H : forallb (fun a => forallb (fun b =>
                implb (Ascii.eqb (canonicalize a) (canonicalize b))
                      (Ascii.eqb (toLowerChar a) (toLowerChar b)))
                (map ascii_of_nat (seq 0 256))) (map ascii_of_nat (seq 0 256)) = true)
    by (vm_compute; reflexivity).
  rewrite forallb_forall in H. specialize (H a (all_ascii a)).
  rewrite forallb_forall in H. specialize (H b (all_ascii b)).
  intros E. rewrite E in H. apply Ascii.eqb_eq. exact H.
Qed.

Lemma toLowerCase_length (s : string) : String.length (toLowerCase s) = String.length s.
Proof. induction s as [|c s IH]; [reflexivity|]. cbn. rewrite IH. reflexivity. Qed.

Lemma append_inv_length (a a' b b' : string) :
  a ++ b = a' ++ b' -> String.length a = String.length a' -> a = a' /\ b = b'.
Proof.
  revert a'. induction a as [|c a IH]; intros [|c' a'] H Hl; try discriminate Hl.
  - rewrite !append_nil in H. auto.
  - rewrite !append_cons in H. injection H as -> H. cbn in Hl.
    destruct (IH a' H) as [-> ->]; [lia | auto].
Qed.

(** In a text in lower case every part is in lower case. *)
Lemma lower_part (a x b : string) :
  toLowerCase (a ++ x ++ b) = a ++ x ++ b -> toLowerCase x = x.
Proof.
  rewrite !toLowerCase_app. intros H.
  apply append_inv_length in H as [_ H]; [|apply toLowerCase_length].
  apply append_inv_length in H as [H _]; [exact H | apply toLowerCase_length].
Qed.

Lemma trimEnd_empty_iff (s : string) :
  trimEnd s = "" <-> all_cls isWhiteSpace s = true.
Proof.
  induction s as [|c s IH]; [split; reflexivity|]. cbn [trimEnd all_cls].
  rewrite andb_true_iff, <- IH.
  destruct (trimEnd s) as [|x r]; destruct (isWhiteSpace c); split; intros H;
    try discriminate H; try (destruct H; discriminate); auto.
Qed.

Lemma trimStart_all_ws (s : string) :
  all_cls isWhiteSpace (trimStart s) = all_cls isWhiteSpace s.
Proof.
  induction s as [|c s IH]; [reflexivity|]. cbn [trimStart all_cls].
  destruct (isWhiteSpace c) eqn:E; [exact IH|]. cbn [all_cls]. rewrite E. reflexivity.
Qed.

(** Only a blank text trims to the empty text. *)
Lemma trim_empty_iff (s : string) :
  trim s = "" <-> all_cls isWhiteSpace s = true.
Proof. unfold trim. rewrite trimEnd_empty_iff, trimStart_all_ws. reflexivity. Qed.

Lemma trimStart_suffix (s : string) : exists a, s = a ++ trimStart s.
Proof.
  induction s as [|c s (a & IH)]; [exists ""; reflexivity|]. cbn [trimStart].
  destruct (isWhiteSpace c).
  - exists (String c a). rewrite append_cons, <- IH. reflexivity.
  - exists "". reflexivity.
Qed.

Lemma trimEnd_prefix (s : string) : exists b, s = trimEnd s ++ b.
Proof.
  induction s as [|c s (b & IH)]; [exists ""; reflexivity|]. cbn [trimEnd].
  destruct (trimEnd s) as [|x r] eqn:E.
  - destruct (isWhiteSpace c).
    + exists (String c s). reflexivity.
    + exists s. reflexivity.
  - exists b. rewrite append_cons, <- IH. reflexivity.
Qed.

(** The trimmed text is a part of the text. *)
Lemma trim_part (s : string) : exists a b, s = a ++ trim s ++ b.
Proof.
  destruct (trimStart_suffix s) as (a & Ha).
  destruct (trimEnd_prefix (trimStart s)) as (b & Hb).
  exists a, b. unfold trim. rewrite <- Hb. exact Ha.
Qed.

Lemma includes_trim (s w : string) :
  includes (trim s) w = true -> includes s w = true.
Proof.
  rewrite !includes_spec. intros (pre & post & H).
  destruct (trim_part s) as (a & b & Hs).
  exists (a ++ pre), (post ++ b). rewrite Hs at 1. rewrite H.
  rewrite !append_assoc. reflexivity.
Qed.

Lemma trimStart_idem (s : string) : trimStart (trimStart s) = trimStart s.
Proof.
  induction s as [|c s IH]; [reflexivity|]. cbn [trimStart].
  destruct (isWhiteSpace c) eqn:E; [exact IH|]. cbn [trimStart]. rewrite E. reflexivity.
Qed.

Lemma trimEnd_idem (s : string) : trimEnd (trimEnd s) = trimEnd s.
Proof.
  induction s as [|c s IH]; [reflexivity|]. cbn [trimEnd].
  destruct (trimEnd s) as [|x r] eqn:E.
  - destruct (isWhiteSpace c) eqn:Ec; [reflexivity|]. cbn [trimEnd]. rewrite Ec. reflexivity.
  - cbn [trimEnd]. cbn [trimEnd] in IH. rewrite IH. reflexivity.
Qed.

Lemma trimStart_trimEnd (s : string) :
  trimStart (trimEnd (trimStart s)) = trimEnd (trimStart s).
Proof.
  assert (H : forall x, trimStart x = x -> trimStart (trimEnd x) = trimEnd x).
  { intros [|c x] Hx; [reflexivity|]. cbn [trimStart] in Hx.
    destruct (isWhiteSpace c) eqn:E.
    - exfalso. destruct (trimStart_suffix x) as (a & Ha).
      assert (Hl : String.length x = (String.length a + String.length (trimStart x))%nat)
        by (rewrite Ha at 1; apply length_app_str).
      rewrite Hx in Hl. cbn in Hl. lia.
    - cbn [trimEnd]. destruct (trimEnd x); [rewrite E|]; cbn [trimStart]; rewrite E;
        reflexivity. }
  apply H, trimStart_idem.
Qed.

(** Trimming twice is trimming once. *)
Lemma trim_idem (s : string) : trim (trim s) = trim s.
Proof. unfold trim. rewrite trimStart_trimEnd, trimEnd_idem. reflexivity. Qed.

End MoreStrings.

(** ** From a successful search back to the text *)

Section SearchSound.

Import Js Regex.

Local Open Scope string_scope.

(** A successful search found its match at some position of the text. *)
Lemma exec_from_some (ic : bool) (subject : string) (r : regex) (rest : string) :
  forall (prev : option ascii) (pos : nat) (st : MState),
    exec_from ic subject r prev pos rest = Some st ->
    exists a b, rest = a ++ b
                /\ Regex.run ic subject r Some
                     (mkM (last_char prev a) (pos + String.length a) b []) = Some st.
Proof.
  induction rest as [|c rest IH]; intros prev pos st H; cbn [exec_from] in H.
  - exists "", "". cbn [last_char String.length]. rewrite Nat.add_0_r.
    destruct (Regex.run ic subject r Some _) eqn:E; [|discriminate].
    split; [reflexivity | congruence].
  - destruct (Regex.run ic subject r Some (mkM prev pos (String c rest) [])) eqn:E.
    + exists "", (String c rest). cbn [last_char String.length]. rewrite Nat.add_0_r.
      split; [reflexivity | congruence].
    + apply IH in H as (a & b & -> & H). exists (String c a), b.
      split; [reflexivity|]. cbn [last_char String.length].
      rewrite <- Nat.add_succ_comm. exact H.
Qed.

(** What a literal can consume under the flag /i is the literal up to
    letter case. *)
Lemma lang_lit_lower (w x rest : string) :
  lang true (Lit w) x rest -> toLowerCase x = toLowerCase w.
Proof.
  revert x. induction w as [|c w IH]; intros x; cbn [Lit lang].
  - intros ->. reflexivity.
  - intros (u & v & -> & (y & -> & Hy) & Hv). rewrite append_cons, append_nil.
    cbn [toLowerCase]. rewrite (IH v Hv). f_equal.
    cbn [char_eq] in Hy. symmetry. apply canonicalize_lower, Hy.
Qed.

(** A lower-case text that passes the test of \bliteral\b contains the
    literal. *)
Lemma test_word_includes (w s : string) :
  toLowerCase s = s -> toLowerCase w = w ->
  test true (Seq WordB (Seq (Lit w) WordB)) s = true ->
  includes s w = true.
Proof.
  intros Hs Hw Ht. unfold test, exec in Ht.
  destruct (exec_from true s _ None 0 s) as [st|] eqn:E; [|discriminate].
  apply exec_from_some in E as (a & b & Hab & Hrun).
  apply run_sound in Hrun as (st' & Hm & _).
  apply matches_lang in Hm as (x & Hx & Hl). cbn [m_rest] in Hx.
  cbn [lang] in Hl.
  destruct Hl as (u0 & v0 & -> & -> & u1 & v1 & -> & Hlit & ->).
  rewrite append_nil, append_nil_r in Hx.
  apply lang_lit_lower in Hlit. rewrite Hw in Hlit.
  assert (Hsx : s = a ++ u1 ++ m_rest st') by (rewrite Hab, Hx; reflexivity).
  assert (Hu : toLowerCase u1 = u1).
  { apply (lower_part a u1 (m_rest st')). rewrite <- Hsx. exact Hs. }
  apply includes_spec. exists a, (m_rest st'). rewrite Hsx at 1. congruence.
Qed.

End SearchSound.

(** ** What handleQuery and sendQuery post *)

Section MoreDispatch.

Import Js Regex Payload Keywords.

Local Open Scope string_scope.

(** X1. [handleQuery] posts nothing exactly for a blank text, and what it
    posts otherwise is the trimmed text or one of the two shortcuts. *)
Theorem handleQuery_blank_or_one_of_three (query : string) :
  (App.handleQuery query = None <-> all_cls isWhiteSpace query = true)
  /\ (forall req, App.handleQuery query = Some req ->
        req = Query (trim query) \/ req = Action "today" \/ req = Action "this_week").
Proof.
  unfold App.handleQuery. rewrite <- trim_empty_iff.
  destruct (trim query) as [|c t] eqn:E; cbn [truthy negb].
  - split; [tauto | discriminate].
  - split; [split; discriminate|].
    intros req H. injection H as <-.
    destruct (App.shortcut_eligible _); [|auto].
    destruct (test true App.thisWeek_re _); [auto|].
    destruct (test true App.today_re _); auto.
Qed.

Lemma keyword_ends (kw : string) :
  In kw guard_keywords ->
  exists c w' d, kw = String c w' /\ isWhiteSpace c = false
                 /\ last_char None kw = Some d /\ isWhiteSpace d = false.
Proof.
  intros H. repeat (destruct H as [<-|H]; [do 3 eexists; repeat split; reflexivity|]).
  contradiction.
Qed.

Ltac close_guard :=
  repeat match goal with
         | |- context [negb (test ?a ?b ?c)] => destruct (test a b c)
         end;
  reflexivity.

Lemma guard_test (kw pre post : string) :
  In kw guard_keywords ->
  App.shortcut_eligible (pre ++ kw ++ post) = false.
Proof.
  intros H. unfold guard_keywords in H. unfold App.shortcut_eligible.
  assert (Hlit : forall rs, In (Lit kw) rs ->
                 test true (AltOf rs) (pre ++ kw ++ post) = true).
  { intros rs Hin. eapply test_of_matches.
    eapply matches_alt_of; [exact Hin | apply matches_lit]. }
  apply in_app_or in H as [H|H]; [|apply in_app_or in H as [H|H];
                                   [|apply in_app_or in H as [H|H]]].
  - assert (E : test true App.createLike_re (pre ++ kw ++ post) = true).
    { apply Hlit. unfold create_keywords in H. cbn [In] in *.
      repeat (destruct H as [<-|H]; [cbn; tauto|]). contradiction. }
    rewrite E. reflexivity.
  - assert (E : test true App.modifyLike_re (pre ++ kw ++ post) = true).
    { apply Hlit. apply (in_map Lit) in H. exact H. }
    rewrite E. clear. close_guard.
  - assert (E : test true App.cancelLike_re (pre ++ kw ++ post) = true).
    { apply Hlit. apply (in_map Lit) in H. exact H. }
    rewrite E. clear. close_guard.
  - assert (E : test true App.wantsFree_re (pre ++ kw ++ post) = true).
    { apply Hlit. apply (in_map Lit) in H. exact H. }
    rewrite E. clear. close_guard.
Qed.

(** A guard keyword anywhere in the text makes the trimmed text non-empty
    and closes the guard of the shortcuts. *)
Lemma guard_keyword_blocks (query kw : string) :
  In kw guard_keywords ->
  includes (toLowerCase query) kw = true ->
  truthy (Some (trim query)) = true
  /\ App.shortcut_eligible (toLowerCase (trim query)) = false.
Proof.
  intros Hkw Hinc. apply includes_spec in Hinc as (pre & post & Hq).
  destruct (keyword_ends kw Hkw) as (c & w' & d & Hc & Hcw & Hd & Hdw).
  assert (Hlow : toLowerCase (trim query) = trimStart pre ++ kw ++ trimEnd post).
  { rewrite toLowerCase_trim, Hq. eapply trim_around; eassumption. }
  split.
  - apply toLowerCase_nonempty. rewrite Hlow. eapply app_nonempty. exact Hc.
  - rewrite Hlow. apply guard_test. exact Hkw.
Qed.

(** X2. A text that contains one of the create, modify, cancel or free-slot
    keywords, in any letter case and anywhere (also inside a longer word),
    is posted by [handleQuery] as the trimmed text, never as a shortcut. *)
Theorem handleQuery_keeps_guarded_requests (query kw : string) :
  In kw guard_keywords ->
  includes (toLowerCase query) kw = true ->
  App.handleQuery query = Some (Query (trim query)).
Proof.
  intros Hkw Hinc. destruct (guard_keyword_blocks query kw Hkw Hinc) as [Ht Hg].
  unfold App.handleQuery. rewrite Ht, Hg. reflexivity.
Qed.

(** A witness: "bookshelf" contains the keyword "book". *)
Lemma handleQuery_keeps_guarded_requests_witness :
  App.handleQuery " My Bookshelf today " = Some (Query "My Bookshelf today").
Proof.
  apply (handleQuery_keeps_guarded_requests " My Bookshelf today " "book");
    [cbn; tauto | reflexivity].
Defined.

(** X3. A text with the word "between" (in any letter case, as a whole
    word) is posted by [handleQuery] as the trimmed text. *)
Theorem handleQuery_keeps_between_requests (query pre post : string) :
  toLowerCase query = pre ++ "between" ++ post ->
  is_word_opt (last_char None pre) = false ->
  is_word_opt (next_char post) = false ->
  App.handleQuery query = Some (Query (trim query)).
Proof.
  intros Hq Hpre Hpost.
  assert (Hlow : toLowerCase (trim query) = trimStart pre ++ "between" ++ trimEnd post).
  { rewrite toLowerCase_trim, Hq. eapply trim_around; reflexivity. }
  apply handleQuery_guarded.
  - apply toLowerCase_nonempty. rewrite Hlow. eapply app_nonempty. reflexivity.
  - unfold App.shortcut_eligible. rewrite Hlow. unfold App.between_re.
    rewrite test_word; try reflexivity.
    + close_guard.
    + destruct (last_char_trimStart pre) as [-> | ->]; [reflexivity | exact Hpre].
    + destruct (next_char_trimEnd post) as [-> | ->]; [reflexivity | exact Hpost].
Qed.

Lemma handleQuery_keeps_between_requests_witness :
  App.handleQuery "Today Between 1 and 3" = Some (Query "Today Between 1 and 3").
Proof.
  apply (handleQuery_keeps_between_requests "Today Between 1 and 3" "today " " 1 and 3");
    reflexivity.
Defined.

(** The tests of the two shortcut phrases succeed only on texts that
    contain the phrase. *)
Lemma thisWeek_test_includes (query : string) :
  test true App.thisWeek_re (toLowerCase (trim query)) = true ->
  includes (toLowerCase (trim query)) "this week" = true.
Proof.
  apply test_word_includes; [apply toLowerCase_idem | reflexivity].
Qed.

Lemma today_test_includes (query : string) :
  test true App.today_re (toLowerCase (trim query)) = true ->
  includes (toLowerCase (trim query)) "today" = true.
Proof.
  apply test_word_includes; [apply toLowerCase_idem | reflexivity].
Qed.

(** X4. In [handleQuery], a text with the whole word "today" (in any letter
    case) that passes the guard of the shortcuts and does not contain
    "this week" is sent as [{ action: 'today' }]. *)
Theorem handleQuery_today_shortcut (query pre post : string) :
  toLowerCase query = pre ++ "today" ++ post ->
  is_word_opt (last_char None pre) = false ->
  is_word_opt (next_char post) = false ->
  App.shortcut_eligible (toLowerCase (trim query)) = true ->
  includes (toLowerCase query) "this week" = false ->
  App.handleQuery query = Some (Action "today").
Proof.
  intros Hq Hpre Hpost Hg Hno.
  assert (Hlow : toLowerCase (trim query) = trimStart pre ++ "today" ++ trimEnd post).
  { rewrite toLowerCase_trim, Hq. eapply trim_around; reflexivity. }
  assert (Ht : truthy (Some (trim query)) = true).
  { apply toLowerCase_nonempty. rewrite Hlow. eapply app_nonempty. reflexivity. }
  assert (Hw : test true App.thisWeek_re (toLowerCase (trim query)) = false).
  { destruct (test true App.thisWeek_re _) eqn:E; [|reflexivity].
    apply thisWeek_test_includes in E. rewrite toLowerCase_trim in E.
    apply includes_trim in E. congruence. }
  unfold App.handleQuery. rewrite Ht, Hg, Hw. cbn [negb].
  rewrite Hlow. unfold App.today_re. rewrite test_word; try reflexivity.
  - destruct (last_char_trimStart pre) as [-> | ->]; [reflexivity | exact Hpre].
  - destruct (next_char_trimEnd post) as [-> | ->]; [reflexivity | exact Hpost].
Qed.

Lemma handleQuery_today_shortcut_witness :
  App.handleQuery "What's on TODAY?" = Some (Action "today").
Proof.
  apply (handleQuery_today_shortcut "What's on TODAY?" "what's on " "?"); reflexivity.
Defined.

(** X5. [handleQuery] sends a shortcut only for a text that contains the
    phrase of the shortcut and none of the guard keywords. *)
Theorem handleQuery_shortcut_only_for_plain_requests (query action : string) :
  App.handleQuery query = Some (Action action) ->
  ((action = "this_week" /\ includes (toLowerCase query) "this week" = true)
   \/ (action = "today" /\ includes (toLowerCase query) "today" = true))
  /\ (forall kw, In kw guard_keywords -> includes (toLowerCase query) kw = false).
Proof.
  intros H. split.
  - unfold App.handleQuery in H.
    destruct (negb (truthy (Some (trim query)))); [discriminate|].
    destruct (App.shortcut_eligible _); [|discriminate].
    destruct (test true App.thisWeek_re _) eqn:Ew.
    + injection H as <-. left. split; [reflexivity|].
      apply thisWeek_test_includes in Ew. rewrite toLowerCase_trim in Ew.
      apply includes_trim, Ew.
    + destruct (test true App.today_re _) eqn:Et; [|discriminate].
      injection H as <-. right. split; [reflexivity|].
      apply today_test_includes in Et. rewrite toLowerCase_trim in Et.
      apply includes_trim, Et.
  - intros kw Hkw. destruct (includes (toLowerCase query) kw) eqn:E; [|reflexivity].
    destruct (guard_keyword_blocks query kw Hkw E) as [Ht Hg].
    unfold App.handleQuery in H. rewrite Ht, Hg in H. discriminate.
Qed.

Lemma handleQuery_shortcut_only_for_plain_requests_witness :
  includes (toLowerCase "Anything this week?") "this week" = true
  /\ includes (toLowerCase "Anything this week?") "cancel" = false.
Proof.
  destruct (handleQuery_shortcut_only_for_plain_requests
              "Anything this week?" "this_week" eq_refl) as [[[_ H]|[H _]] Hk].
  - split; [exact H|]. apply Hk. cbn. tauto.
  - discriminate H.
Defined.

(** X6. The two chat boxes agree in two directions: a text that
    ChatLayout's [sendQuery] posts as it is, [handleQuery] posts as it is
    too; and a text that [handleQuery] turns into the today shortcut,
    [sendQuery] turns into it too. *)
Theorem sendQuery_and_handleQuery_agree (query : string) :
  (forall t, ChatLayout.sendQuery query = Some (Query t) ->
             App.handleQuery query = Some (Query t))
  /\ (App.handleQuery query = Some (Action "today") ->
      ChatLayout.sendQuery query = Some (Action "today")).
Proof.
  split.
  - intros t H. unfold ChatLayout.sendQuery in H. unfold App.handleQuery.
    destruct (negb (truthy (Some (trim query)))); [discriminate|].
    destruct (includes (toLowerCase (trim query)) "today") eqn:Et; [discriminate|].
    destruct (includes (toLowerCase (trim query)) "this week") eqn:Ew; [discriminate|].
    injection H as <-.
    destruct (test true App.thisWeek_re _) eqn:E1;
      [apply thisWeek_test_includes in E1; congruence|].
    destruct (test true App.today_re _) eqn:E2;
      [apply today_test_includes in E2; congruence|].
    destruct (App.shortcut_eligible _); reflexivity.
  - intros H. apply sendQuery_today_shortcut.
    unfold App.handleQuery in H.
    destruct (negb (truthy (Some (trim query)))); [discriminate|].
    destruct (App.shortcut_eligible _); [|discriminate].
    destruct (test true App.thisWeek_re _); [discriminate|].
    destruct (test true App.today_re _) eqn:Et; [|discriminate].
    apply today_test_includes, Et.
Qed.

End MoreDispatch.

(** ** More on timeToMinutes *)

Section MoreTimes.

Import Js Regex App.

Local Open Scope string_scope.

(** X7. [timeToMinutes] ignores letter case and white space around the
    text: two texts with the same trimmed lower-case form get the same
    result. *)
Theorem timeToMinutes_ignores_case_and_padding (t1 t2 : string) :
  toLowerCase (trim t1) = toLowerCase (trim t2) ->
  timeToMinutes (Some t1) = timeToMinutes (Some t2).
Proof.
  assert (H : forall t (f : option Captures -> option number),
             f None = None ->
             (if negb (truthy (Some t)) then None
              else f (exec false time_re (toLowerCase (trim t))))
             = f (exec false time_re (toLowerCase (trim t)))).
  { intros t f Hf. destruct t as [|c t]; [cbn; rewrite Hf; reflexivity | reflexivity]. }
  intros E. unfold timeToMinutes.
  rewrite (H t1 (fun m => match m with
                          | Some m => _
                          | None => None
                          end) eq_refl).
  rewrite (H t2 (fun m => match m with
                          | Some m => _
                          | None => None
                          end) eq_refl).
  rewrite E. reflexivity.
Qed.

Lemma timeToMinutes_ignores_case_and_padding_witness :
  timeToMinutes (Some "  2:05 PM ") = timeToMinutes (Some "2:05 pm").
Proof.
  apply (timeToMinutes_ignores_case_and_padding "  2:05 PM " "2:05 pm"). reflexivity.
Defined.

(** X8. A proper clock time (hour at most 23 on the 24-hour clock or at
    most 12 with am or pm, minutes and seconds below sixty) is mapped into
    the minutes of one day, 0 to 1439. *)
Theorem timeToMinutes_within_a_day (tt : TimeText) :
  tt_wf tt = true -> (tt_ampm tt = None -> tt_ws tt = "") ->
  tt_hour tt <= (match tt_ampm tt with None => 23 | Some _ => 12 end) ->
  tt_minute tt < 60 -> tt_second tt < 60 ->
  exists z, timeToMinutes (Some (render tt)) = Some (Num z) /\ 0 <= z < 1440.
Proof.
  intros Hwf Hap Hh Hm Hs.
  exists (tt_total tt). split; [apply timeToMinutes_render; assumption|].
  pose proof (tt_hour_range tt Hwf). pose proof (tt_minute_range tt Hwf).
  pose proof (tt_second_range tt Hwf).
  rewrite tt_total_floor by lia. unfold tt_hour24.
  destruct (tt_ampm tt) as [[]|]; destruct (Z.eqb_spec (tt_hour tt) 12); lia.
Qed.

Lemma timeToMinutes_within_a_day_witness :
  exists z, timeToMinutes (Some "11:59:59 pm") = Some (Num z) /\ 0 <= z < 1440.
Proof.
  apply (timeToMinutes_within_a_day
           (mkTimeText "1" (Some "1"%char) (MinAndSec "5" "9" "5" "9") " " (Some true)));
    (reflexivity || discriminate || (vm_compute; (reflexivity || discriminate))).
Defined.

End MoreTimes.

(** ** Rescheduling from the appointment row *)

Section Rescheduling.

Import Js Regex Json AppActions.

Local Open Scope string_scope.



End Rescheduling.

(** ** From the recognizer to the request *)

Section SpeechFacts.

Import Js Regex Payload Speech.

Local Open Scope string_scope.

Lemma truthy_nonempty (s : string) : Js.truthy (Some s) = true <-> s <> "".
Proof. destruct s; cbn; split; congruence. Qed.


Lemma onresult_step_trimmed (acc : string * State) (res : Result) :
  trim (finalText (snd acc)) = finalText (snd acc) ->
  trim (finalText (snd (onresult_step acc res))) = finalText (snd (onresult_step acc res)).
Proof.
  destruct acc as [text st]. unfold onresult_step.
  destruct (isFinal res); cbn [snd finalText]; [intros _; apply trim_idem | auto].
Qed.

(** X11. The final text of the recognizer never begins or ends with white
    space, whatever results arrive after [start]. *)
Theorem finalText_is_trimmed (events : list (list Result)) (st : State) :
  trim (finalText st) = finalText st ->
  let st' := fold_left (fun s rs => onresult rs s) events st in
  trim (finalText st') = finalText st'.
Proof.
  revert st. induction events as [|rs events IH]; intros st H; cbn [fold_left]; [exact H|].
  apply IH. unfold onresult.
  assert (G : forall acc, trim (finalText (snd acc)) = finalText (snd acc) ->
              trim (finalText (snd (fold_left onresult_step rs acc)))
              = finalText (snd (fold_left onresult_step rs acc))).
  { induction rs as [|r rs IHrs]; intros acc Hacc; cbn [fold_left]; [exact Hacc|].
    apply IHrs, onresult_step_trimmed, Hacc. }
  apply G. exact H.
Qed.

Lemma finalText_is_trimmed_witness :
  let st' := fold_left (fun s rs => onresult rs s)
                       [[mkResult false "fre"; mkResult true " free time "];
                        [mkResult true "tomorrow  "]] (start initial) in
  trim (finalText st') = finalText st' /\ finalText st' = "free time tomorrow".
Proof.
  split; [|reflexivity].
  apply (finalText_is_trimmed
           [[mkResult false "fre"; mkResult true " free time "];
            [mkResult true "tomorrow  "]] (start initial)).
  reflexivity.
Defined.

End SpeechFacts.

(** ** The appointment lists of the UI state *)

Section ListsFacts.

Import Json AppState.

Local Open Scope string_scope.

Lemma value_eqb_eq (a b : value) : value_eqb a b = true <-> a = b.
Proof.
  destruct a, b; cbn [value_eqb]; split; intros H; try discriminate H; try reflexivity.
  - apply Bool.eqb_prop in H. congruence.
  - injection H as ->. apply Bool.eqb_reflx.
  - apply Z.eqb_eq in H. congruence.
  - injection H as ->. apply Z.eqb_refl.
  - apply String.eqb_eq in H. congruence.
  - injection H as ->. apply String.eqb_refl.
Qed.

(** [===] on these values is equality. *)
Lemma strict_eq_eq (a b : option value) : strict_eq a b = true <-> a = b.
Proof.
  destruct a as [a|], b as [b|]; cbn [strict_eq]; try (split; congruence).
  rewrite value_eqb_eq. split; congruence.
Qed.

Lemma strict_eq_neq (a b : option value) : strict_eq a b = false <-> a <> b.
Proof.
  rewrite <- strict_eq_eq. destruct (strict_eq a b); split; congruence.
Qed.

Lemma find_filter_keep {A : Type} (f g : A -> bool) (l : list A) :
  (forall x, f x = true -> g x = true) ->
  find f (List.filter g l) = find f l.
Proof.
  intros H. induction l as [|x l IH]; [reflexivity|]. cbn [List.filter find].
  destruct (f x) eqn:Ef.
  - rewrite (H x Ef). cbn [find]. rewrite Ef. reflexivity.
  - destruct (g x); [cbn [find]; rewrite Ef|]; exact IH.
Qed.

Lemma find_filter_drop {A : Type} (f g : A -> bool) (l : list A) :
  (forall x, f x = true -> g x = false) ->
  find f (List.filter g l) = None.
Proof.
  intros H. induction l as [|x l IH]; [reflexivity|]. cbn [List.filter].
  destruct (g x) eqn:Eg; [|exact IH]. cbn [find].
  destruct (f x) eqn:Ef; [|exact IH]. rewrite (H x Ef) in Eg. discriminate.
Qed.

Lemma find_map_keep {A : Type} (f : A -> bool) (g : A -> A) (l : list A) :
  (forall x, f (g x) = f x) ->
  find f (map g l) = option_map g (find f l).
Proof.
  intros H. induction l as [|x l IH]; [reflexivity|]. cbn [map find].
  rewrite H. destruct (f x); [reflexivity | exact IH].
Qed.

(** X12. [getApptById] returns an appointment whose id is the one asked
    for, from the created appointments first and from the listed ones
    otherwise; it returns null for a falsy id and when neither list has
    the id. *)
Theorem getApptById_finds_that_id (id : option value) (st : Lists) :
  (forall a, getApptById id st = Some a ->
     truthy id = true /\ a !! "id" = id
     /\ (In a (createdAppts st)
         \/ (In a (appointments st)
             /\ forall b, In b (createdAppts st) -> b !! "id" <> id)))
  /\ (getApptById id st = None <->
      truthy id = false
      \/ forall b, In b (createdAppts st ++ appointments st) -> b !! "id" <> id).
Proof.
  unfold getApptById. destruct (truthy id) eqn:Et; cbn [negb].
  - destruct (find _ (createdAppts st)) as [a|] eqn:Ec.
    + split.
      * intros a' H. injection H as <-. apply find_some in Ec as [Hin Hid].
        apply strict_eq_eq in Hid. auto.
      * split; [discriminate|]. intros [H|H]; [discriminate|].
        apply find_some in Ec as [Hin Hid]. apply strict_eq_eq in Hid.
        exfalso. apply (H a); [apply in_or_app; auto | exact Hid].
    + assert (Hc : forall b, In b (createdAppts st) -> b !! "id" <> id).
      { intros b Hb. apply strict_eq_neq. exact (find_none _ _ Ec b Hb). }
      split.
      * intros a H. apply find_some in H as [Hin Hid]. apply strict_eq_eq in Hid. auto.
      * split.
        -- intros H. right. intros b Hb. apply in_app_or in Hb as [Hb|Hb]; [auto|].
           apply strict_eq_neq. exact (find_none _ _ H b Hb).
        -- intros [H|H]; [discriminate|].
           destruct (find _ (appointments st)) as [a|] eqn:Ea; [|reflexivity].
           apply find_some in Ea as [Hin Hid]. apply strict_eq_eq in Hid.
           exfalso. apply (H a); [apply in_or_app; auto | exact Hid].
  - split; [discriminate|]. split; auto.
Qed.

(** X13. After [removeLocalById] the id is no longer found, and the lookup
    of every other id is as before. *)
Theorem removeLocalById_then_getApptById (id : option value) (st : Lists) :
  getApptById id (removeLocalById id st) = None
  /\ (forall j, j <> id ->
        getApptById j (removeLocalById id st) = getApptById j st).
Proof.
  unfold removeLocalById. destruct (truthy id) eqn:Et; cbn [negb].
  - split.
    + unfold getApptById. rewrite Et. cbn [negb createdAppts appointments].
      rewrite !find_filter_drop; [reflexivity | |]; intros x ->; reflexivity.
    + intros j Hj. unfold getApptById. cbn [createdAppts appointments].
      rewrite !find_filter_keep; [reflexivity | |];
        intros x Hx; apply strict_eq_eq in Hx; apply negb_true_iff, strict_eq_neq;
        congruence.
  - split; [|reflexivity]. unfold getApptById. rewrite Et. reflexivity.
Qed.

Lemma mergeOne_id (updated x : obj) :
  truthy (updated !! "id") = true ->
  (if same_appt updated x then updated ∪ x else x) !! "id" = x !! "id".
Proof.
  intros Ht. unfold same_appt. rewrite Ht. cbn [negb andb]. rewrite orb_false_r.
  destruct (strict_eq (x !! "id") (updated !! "id")) eqn:E; [|reflexivity].
  apply strict_eq_eq in E. rewrite E.
  destruct (updated !! "id") as [v|] eqn:Ev; [|discriminate Ht].
  apply lookup_union_Some_l. exact Ev.
Qed.

Lemma mergeOne_find (updated : obj) (j : option value) (l : list obj) :
  truthy (updated !! "id") = true ->
  find (fun a => strict_eq (a !! "id") j) (mergeOne updated l)
  = option_map (fun x => if strict_eq j (updated !! "id") then updated ∪ x else x)
               (find (fun a => strict_eq (a !! "id") j) l).
Proof.
  intros Ht. unfold mergeOne.
  rewrite find_map_keep by (intros x; rewrite (mergeOne_id updated x Ht); reflexivity).
  destruct (find _ l) as [x|] eqn:E; [|reflexivity]. cbn [option_map]. f_equal.
  apply find_some in E as [_ E]. apply strict_eq_eq in E.
  unfold same_appt. rewrite Ht, E. cbn [negb andb]. rewrite orb_false_r. reflexivity.
Qed.

(** X14. [updateLocalAppointment] with an update that has an id keeps both
    lists in sync: their lengths stay, the lookup of the updated id gives
    the old entry overlaid with the fields of the update, and the lookup of
    any other id is as before. *)
Theorem updateLocalAppointment_keeps_lists_in_sync (updated : obj) (st : Lists) :
  truthy (updated !! "id") = true ->
  length (appointments (updateLocalAppointment updated st)) = length (appointments st)
  /\ length (createdAppts (updateLocalAppointment updated st)) = length (createdAppts st)
  /\ (forall j,
        getApptById j (updateLocalAppointment updated st)
        = option_map (fun x => if strict_eq j (updated !! "id") then updated ∪ x else x)
                     (getApptById j st))
  /\ (forall x k v, updated !! k = Some v -> (updated ∪ x) !! k = Some v)
  /\ (forall x k, updated !! k = None -> (updated ∪ x) !! k = x !! k).
Proof.
  intros Ht. unfold updateLocalAppointment. cbn [appointments createdAppts].
  unfold mergeOne at 1 2. rewrite !length_map.
  split; [reflexivity|]. split; [reflexivity|]. split; [|split].
  - intros j. unfold getApptById. cbn [appointments createdAppts].
    destruct (negb (truthy j)); [reflexivity|].
    rewrite !(mergeOne_find updated j) by exact Ht.
    destruct (find _ (createdAppts st)); reflexivity.
  - intros x k v H. apply lookup_union_Some_l. exact H.
  - intros x k H. apply lookup_union_r. exact H.
Qed.

Lemma updateLocalAppointment_witness :
  let old := ({["id" := JNum 7; "title" := JStr "Demo"; "date" := JStr "2025-10-11"]} : obj) in
  let upd := ({["id" := JNum 7; "title" := JStr "Final review"]} : obj) in
  getApptById (Some (JNum 7)) (updateLocalAppointment upd (mkLists [old] []))
  = option_map (fun x => if strict_eq (Some (JNum 7)) (upd !! "id") then upd ∪ x else x)
               (getApptById (Some (JNum 7)) (mkLists [old] [])).
Proof.
  cbv zeta.
  apply (updateLocalAppointment_keeps_lists_in_sync
           ({["id" := JNum 7; "title" := JStr "Final review"]} : obj)).
  vm_compute. reflexivity.
Defined.

Example updateLocalAppointment_example :
  let old := ({["id" := JNum 7; "title" := JStr "Demo"; "date" := JStr "2025-10-11"]} : obj) in
  let upd := ({["id" := JNum 7; "title" := JStr "Final review"]} : obj) in
  match getApptById (Some (JNum 7)) (updateLocalAppointment upd (mkLists [old] [])) with
  | Some a => a !! "title" = Some (JStr "Final review")
              /\ a !! "date" = Some (JStr "2025-10-11")
  | None => False
  end.
Proof. vm_compute. split; reflexivity. Qed.

(** X15. Applying the same update (with an id) a second time changes
    nothing more. *)
Theorem updateLocalAppointment_twice (updated : obj) (st : Lists) :
  truthy (updated !! "id") = true ->
  updateLocalAppointment updated (updateLocalAppointment updated st)
  = updateLocalAppointment updated st.
Proof.
  intros Ht.
  assert (H : forall l, mergeOne updated (mergeOne updated l) = mergeOne updated l).
  { intros l. unfold mergeOne. rewrite map_map. apply map_ext. intros x.
    pose proof (mergeOne_id updated x Ht) as Hid.
    destruct (same_appt updated x) eqn:E.
    - assert (E' : same_appt updated (updated ∪ x) = true).
      { unfold same_appt in *. rewrite Ht in *. cbn [negb andb] in *.
        rewrite orb_false_r in *. rewrite Hid. exact E. }
      rewrite E'. apply map_eq. intros k.
      destruct (updated !! k) as [v|] eqn:Ek.
      + rewrite !(lookup_union_Some_l _ _ _ _ Ek). reflexivity.
      + rewrite !lookup_union_r by exact Ek. reflexivity.
    - rewrite E. reflexivity. }
  unfold updateLocalAppointment. cbn [appointments createdAppts]. rewrite !H. reflexivity.
Qed.

Lemma updateLocalAppointment_twice_witness :
  let old := ({["id" := JNum 7; "title" := JStr "Demo"]} : obj) in
  let upd := ({["id" := JNum 7; "title" := JStr "Final review"]} : obj) in
  updateLocalAppointment upd (updateLocalAppointment upd (mkLists [old] [old]))
  = updateLocalAppointment upd (mkLists [old] [old]).
Proof.
  cbv zeta.
  apply (updateLocalAppointment_twice
           ({["id" := JNum 7; "title" := JStr "Final review"]} : obj)).
  vm_compute. reflexivity.
Defined.

End ListsFacts.

(** ** The alarm of the main process *)

Section AlarmFacts.

Import ElectronMain Alarms.

Lemma pending_insert_new (m : gmap Z nat) (i : Z) (c : nat) st :
  ringing st = m -> m !! i = None ->
  map_fold (fun (_ : Z) (count acc : nat) => (2 - count) + acc)%nat 0%nat (<[i := c]> m)
  = ((2 - c) + pending st)%nat.
Proof.
  intros <- H. unfold pending. rewrite map_fold_insert_L; [reflexivity | | exact H].
  intros. lia.
Qed.

Lemma pending_lookup (st : MainState) (i : Z) (c : nat) :
  ringing st !! i = Some c ->
  pending st
  = ((2 - c)
     + map_fold (fun (_ : Z) (count acc : nat) => (2 - count) + acc)%nat 0%nat
                (delete i (ringing st)))%nat.
Proof.
  intros H. unfold pending.
  rewrite (map_fold_delete_L _ _ i c (ringing st)); [reflexivity | | exact H].
  intros. lia.
Qed.

Lemma pending_replace (st : MainState) (i : Z) (c c' : nat) :
  ringing st !! i = Some c ->
  (map_fold (fun (_ : Z) (count acc : nat) => (2 - count) + acc)%nat 0%nat
            (<[i := c']> (ringing st)) + (2 - c)
   = pending st + (2 - c'))%nat.
Proof.
  intros H. rewrite (pending_lookup st i c H).
  rewrite <- (insert_delete_eq (ringing st) i c').
  rewrite map_fold_insert_L; [lia | intros; lia | apply lookup_delete_eq].
Qed.

Lemma send_alarm msg st :
  ringing (send msg st) = ringing st /\ sounds (send msg st) = sounds st.
Proof. unfold send. destruct (win_alive st); split; reflexivity. Qed.

Lemma showNativeReminder_alarm r st :
  ringing (showNativeReminder r st) = ringing st
  /\ sounds (showNativeReminder r st) = sounds st.
Proof.
  unfold showNativeReminder. destruct r as [r|]; [|split; reflexivity].
  destruct (decide (id r ∈ notified st)); [split; reflexivity|].
  match goal with |- context [send ?m ?s] => destruct (send_alarm m s) as [-> ->] end.
  split; reflexivity.
Qed.

Lemma forEach_alarm (rs : list (option Reminder)) : forall st,
  ringing (fold_left (fun s r => showNativeReminder r s) rs st) = ringing st
  /\ sounds (fold_left (fun s r => showNativeReminder r s) rs st) = sounds st.
Proof.
  induction rs as [|r rs IH]; intros st; cbn [fold_left]; [split; reflexivity|].
  destruct (IH (showNativeReminder r st)) as [-> ->]. apply showNativeReminder_alarm.
Qed.

Lemma pending_eq st st' : ringing st' = ringing st -> pending st' = pending st.
Proof. unfold pending. intros ->. reflexivity. Qed.

Lemma below_eq st st' :
  ringing st' = ringing st -> counters_below_repeats st -> counters_below_repeats st'.
Proof. unfold counters_below_repeats. intros ->. auto. Qed.

Lemma stopAlarm_budget i st :
  (sounds (stopAlarm i st) + pending (stopAlarm i st) <= sounds st + pending st)%nat
  /\ (counters_below_repeats st -> counters_below_repeats (stopAlarm i st)).
Proof.
  unfold stopAlarm. destruct (ringing st !! i) as [c|] eqn:E; [|split; [lia | auto]].
  split.
  - rewrite (pending_lookup st i c E). unfold pending. cbn [ringing sounds]. lia.
  - intros H j c' Hj. cbn [ringing] in Hj. apply lookup_delete_Some in Hj as [_ Hj].
    exact (H j c' Hj).
Qed.

Lemma startAlarm_budget i st :
  (sounds (startAlarm i st) + pending (startAlarm i st) <= sounds st + pending st + 3)%nat
  /\ (counters_below_repeats st -> counters_below_repeats (startAlarm i st)).
Proof.
  unfold startAlarm. destruct (ringing st !! i) as [c|] eqn:E; [split; [lia | auto]|].
  split.
  - unfold pending at 1. cbn [ringing sounds playAlarmOnce].
    rewrite (pending_insert_new (ringing st) i 0 st eq_refl E). cbn. lia.
  - intros H j c' Hj. cbn [ringing playAlarmOnce] in Hj.
    apply lookup_insert_Some in Hj as [[_ <-]|[_ Hj]]; [lia | exact (H j c' Hj)].
Qed.

Lemma alarmTick_budget i st :
  counters_below_repeats st ->
  (sounds (alarmTick i st) + pending (alarmTick i st) <= sounds st + pending st)%nat
  /\ counters_below_repeats (alarmTick i st).
Proof.
  intros Hb. unfold alarmTick. destruct (ringing st !! i) as [c|] eqn:E; [|split; [lia | auto]].
  pose proof (Hb i c E) as Hc.
  destruct (3 <=? S c)%nat eqn:E3.
  - split.
    + rewrite (pending_lookup st i c E). unfold pending. cbn [ringing sounds]. lia.
    + intros j c' Hj. cbn [ringing] in Hj. apply lookup_delete_Some in Hj as [_ Hj].
      exact (Hb j c' Hj).
  - apply Nat.leb_gt in E3. split.
    + unfold pending at 1. cbn [ringing sounds playAlarmOnce].
      pose proof (pending_replace st i c (S c) E). lia.
    + intros j c' Hj. cbn [ringing playAlarmOnce] in Hj.
      apply lookup_insert_Some in Hj as [[_ <-]|[_ Hj]]; [lia | exact (Hb j c' Hj)].
Qed.

Lemma sendDismiss_budget i st :
  (sounds (sendDismiss i st) + pending (sendDismiss i st) <= sounds st + pending st)%nat
  /\ (counters_below_repeats st -> counters_below_repeats (sendDismiss i st)).
Proof.
  unfold sendDismiss.
  destruct (send_alarm (ReminderDismissed i) (stopAlarm i st)) as [Hr Hs].
  rewrite Hs, (pending_eq _ _ Hr). destruct (stopAlarm_budget i st) as [H1 H2].
  split; [exact H1|]. intros H. eapply below_eq; [exact Hr | auto].
Qed.

Lemma onClick_surface r st :
  exists st1, onClick r st = sendDismiss (id r) st1
              /\ ringing st1 = ringing st /\ sounds st1 = sounds st.
Proof.
  unfold onClick. eexists. split; [reflexivity|].
  destruct (win_alive st); [|split; reflexivity].
  destruct (appointment_id r) as [a|]; [destruct (a =? 0)%Z|]; apply send_alarm.
Qed.

Lemma handle_budget (ev : Event) (st : MainState) :
  counters_below_repeats st ->
  (sounds (handle ev st) + pending (handle ev st)
   <= sounds st + pending st + (if is_show ev then 3 else 0))%nat
  /\ counters_below_repeats (handle ev st).
Proof.
  intros Hb.
  destruct ev as [r|i|[rs|]| |i|r|i|i| |]; cbn [handle is_show];
    try (split; [unfold pending; cbn [ringing sounds]; lia | exact Hb]).
  - destruct (showNativeReminder_alarm r st) as [Hr Hs].
    rewrite Hs, (pending_eq _ _ Hr). split; [lia | eapply below_eq; eauto].
  - destruct (stopAlarm_budget i st). split; [lia | auto].
  - destruct (forEach_alarm rs st) as [Hr Hs].
    rewrite Hs, (pending_eq _ _ Hr). split; [lia | eapply below_eq; eauto].
  - destruct (startAlarm_budget i st). split; [lia | auto].
  - destruct (onClick_surface r st) as (st1 & -> & Hr & Hs).
    destruct (sendDismiss_budget (id r) st1) as [H1 H2].
    rewrite Hs, (pending_eq _ _ Hr) in H1. split; [lia|].
    apply H2. eapply below_eq; eauto.
  - destruct (sendDismiss_budget i st). split; [lia | auto].
  - destruct (alarmTick_budget i st Hb). split; [lia | auto].
Qed.

Lemma run_budget (evs : list Event) : forall st,
  counters_below_repeats st ->
  (sounds (run evs st) + pending (run evs st) <= sounds st + pending st + 3 * shows evs)%nat
  /\ counters_below_repeats (run evs st).
Proof.
  unfold run, shows.
  induction evs as [|ev evs IH]; intros st Hb; cbn [fold_left List.filter].
  - cbn [length]. split; [lia | exact Hb].
  - destruct (handle_budget ev st Hb) as [H1 H2].
    destruct (IH (handle ev st) H2) as [H3 H4]. split; [|exact H4].
    destruct (is_show ev); cbn [length]; lia.
Qed.

(** X16. Whatever the main process handles from startup, the alarm sound
    is played at most three times for each 'show' of a notification, and
    no alarm timer ever counts to three without being cleared. *)
Theorem alarm_sound_at_most_three_per_show (evs : list Event) :
  (sounds (run evs initial) <= 3 * shows evs)%nat
  /\ counters_below_repeats (run evs initial).
Proof.
  assert (Hb : counters_below_repeats initial).
  { intros i c H. cbn [initial ringing] in H. rewrite lookup_empty in H. discriminate. }
  destruct (run_budget evs initial Hb) as [H1 H2]. split; [|exact H2].
  unfold pending at 2 in H1. cbn [initial ringing sounds] in H1.
  rewrite map_fold_empty in H1. lia.
Qed.

Lemma startAlarm_fresh (i : Z) (st : MainState) :
  ringing st !! i = None ->
  startAlarm i st
  = mkMain (<[i := 0%nat]> (ringing st)) (notified st) (shown st) (sent st)
           (win_alive st) (S (sounds st)).
Proof. intros H. unfold startAlarm. rewrite H. reflexivity. Qed.

Lemma alarmTick_play (i : Z) (c : nat) m n sh se w so :
  m !! i = Some c -> (S c < 3)%nat ->
  alarmTick i (mkMain m n sh se w so) = mkMain (<[i := S c]> m) n sh se w (S so).
Proof.
  intros H Hc. unfold alarmTick. cbn [ringing]. rewrite H.
  apply Nat.leb_gt in Hc. rewrite Hc. reflexivity.
Qed.

Lemma alarmTick_clear (i : Z) (c : nat) m n sh se w so :
  m !! i = Some c -> (3 <= S c)%nat ->
  alarmTick i (mkMain m n sh se w so) = mkMain (delete i m) n sh se w so.
Proof.
  intros H Hc. unfold alarmTick. cbn [ringing]. rewrite H.
  apply Nat.leb_le in Hc. rewrite Hc. reflexivity.
Qed.

(** X17. An alarm that is left alone plays three times and then clears
    itself: after [startAlarm] on an id that is not ringing and three runs
    of its timer the sound has played three more times, the id is no longer
    ringing and further runs of the timer do nothing; and a second 'show'
    while the alarm rings does not start it again. *)
Theorem alarm_plays_three_times_then_clears (i : Z) (st : MainState) :
  ringing st !! i = None ->
  let st3 := alarmTick i (alarmTick i (alarmTick i (startAlarm i st))) in
  sounds st3 = (sounds st + 3)%nat
  /\ ringing st3 = ringing st
  /\ alarmTick i st3 = st3
  /\ ringing (alarmTick i (alarmTick i (startAlarm i st))) !! i = Some 2%nat
  /\ startAlarm i (startAlarm i st) = startAlarm i st.
Proof.
  intros H. cbv zeta. rewrite (startAlarm_fresh i st H).
  rewrite (alarmTick_play i 0) by (apply lookup_insert_eq || lia).
  rewrite (alarmTick_play i 1) by (apply lookup_insert_eq || lia).
  rewrite (alarmTick_clear i 2) by (apply lookup_insert_eq || lia).
  rewrite !insert_insert_eq, delete_insert_eq, (delete_id _ _ H).
  split; [cbn [sounds]; lia|]. split; [reflexivity|]. split; [|split].
  - unfold alarmTick. cbn [ringing]. rewrite H. reflexivity.
  - cbn [ringing]. apply lookup_insert_eq.
  - unfold startAlarm. cbn [ringing]. rewrite lookup_insert_eq. reflexivity.
Qed.

Lemma alarm_plays_three_times_witness :
  sounds (alarmTick 7 (alarmTick 7 (alarmTick 7 (startAlarm 7 initial)))) = 3%nat.
Proof.
  apply (alarm_plays_three_times_then_clears 7 initial). reflexivity.
Defined.

Lemma stopAlarm_clears i st : ringing (stopAlarm i st) !! i = None.
Proof.
  unfold stopAlarm. destruct (ringing st !! i) eqn:E; [|exact E].
  cbn [ringing]. apply lookup_delete_eq.
Qed.

Lemma quiet_step (i : Z) (ev : Event) (st : MainState) :
  ev <> NotificationShow i ->
  ringing st !! i = None -> ringing (handle ev st) !! i = None.
Proof.
  intros Hev H.
  destruct ev as [r|j|[rs|]| |j|r|j|j| |]; cbn [handle ringing]; try exact H.
  - destruct (showNativeReminder_alarm r st) as [-> _]. exact H.
  - unfold stopAlarm. destruct (ringing st !! j) eqn:E; [|exact H]. cbn [ringing].
    apply lookup_delete_None. auto.
  - destruct (forEach_alarm rs st) as [-> _]. exact H.
  - unfold startAlarm. destruct (ringing st !! j) eqn:E; [exact H|].
    cbn [ringing playAlarmOnce]. apply lookup_insert_None. split; [exact H|].
    intros ->. apply Hev. reflexivity.
  - destruct (onClick_surface r st) as (st1 & -> & Hr & _). unfold sendDismiss.
    destruct (send_alarm (ReminderDismissed (id r)) (stopAlarm (id r) st1)) as [-> _].
    unfold stopAlarm. destruct (ringing st1 !! id r) eqn:E; cbn [ringing]; rewrite Hr.
    + apply lookup_delete_None. auto.
    + exact H.
  - unfold sendDismiss.
    destruct (send_alarm (ReminderDismissed j) (stopAlarm j st)) as [-> _].
    unfold stopAlarm. destruct (ringing st !! j) eqn:E; cbn [ringing]; [|exact H].
    apply lookup_delete_None. auto.
  - unfold alarmTick. destruct (ringing st !! j) as [c|] eqn:E; [|exact H].
    destruct (3 <=? S c)%nat; cbn [ringing playAlarmOnce].
    + apply lookup_delete_None. auto.
    + apply lookup_insert_None. split; [exact H|]. intros ->. congruence.
Qed.

Lemma quiet_sounds (i : Z) (st : MainState) :
  ringing st !! i = None -> alarmTick i st = st.
Proof. intros H. unfold alarmTick. rewrite H. reflexivity. Qed.

(** X18. A dismissed alarm stays silent: after the notification of a
    reminder was clicked or closed, or the renderer asked to stop its
    alarm, the reminder is not ringing, it stays so through every later
    event other than a new 'show' of its notification, and a late run of
    its timer changes nothing. *)
Theorem dismissed_alarm_stays_silent (r : Reminder) (st : MainState) (evs : list Event) :
  ~ In (NotificationShow (id r)) evs ->
  forall st0,
    In st0 [onClick r st; sendDismiss (id r) st; stopAlarm (id r) st] ->
    ringing (run evs st0) !! id r = None
    /\ alarmTick (id r) (run evs st0) = run evs st0.
Proof.
  intros Hevs st0 Hst0.
  assert (H0 : ringing st0 !! id r = None).
  { destruct Hst0 as [<-|[<-|[<-|[]]]].
    - destruct (onClick_surface r st) as (st1 & -> & _). unfold sendDismiss.
      destruct (send_alarm (ReminderDismissed (id r)) (stopAlarm (id r) st1)) as [-> _].
      apply stopAlarm_clears.
    - unfold sendDismiss.
      destruct (send_alarm (ReminderDismissed (id r)) (stopAlarm (id r) st)) as [-> _].
      apply stopAlarm_clears.
    - apply stopAlarm_clears. }
  clear Hst0.
  assert (H : ringing (run evs st0) !! id r = None).
  { revert st0 H0. unfold run. induction evs as [|ev evs IH]; intros st0 H0; [exact H0|].
    cbn [fold_left]. apply IH.
    - intros Hin. apply Hevs. right. exact Hin.
    - apply quiet_step; [|exact H0]. intros ->. apply Hevs. left. reflexivity. }
  split; [exact H | apply quiet_sounds, H].
Qed.

Lemma dismissed_alarm_witness :
  let r := mkReminder 7 (Some "Call"%string) None in
  let evs := [AlarmTick 7; NotificationShow 8; AlarmTick 8; AlarmTick 7] in
  ringing (run evs (sendDismiss 7 (startAlarm 7 initial))) !! 7%Z = None
  /\ alarmTick 7 (run evs (sendDismiss 7 (startAlarm 7 initial)))
     = run evs (sendDismiss 7 (startAlarm 7 initial)).
Proof.
  cbv zeta.
  apply (dismissed_alarm_stays_silent (mkReminder 7 (Some "Call"%string) None)
           (startAlarm 7 initial)
           [AlarmTick 7; NotificationShow 8; AlarmTick 8; AlarmTick 7]).
  - intros [H|[H|[H|[H|[]]]]]; discriminate H.
  - right. left. reflexivity.
Defined.

(** X19. A click on a notification tells the renderer what to open and
    then that the reminder is dismissed, in this order and only while the
    window exists: the appointment when the reminder names one, the
    appointments view otherwise. *)
Theorem click_opens_then_dismisses (r : Reminder) (st : MainState) :
  sent (onClick r st)
  = sent st ++
    (if win_alive st
     then [match appointment_id r with
           | Some a => if (a =? 0)%Z then Navigate "/appointments" else AppointmentOpen a
           | None => Navigate "/appointments"
           end;
           ReminderDismissed (id r)]
     else [])
  /\ win_alive (onClick r st) = win_alive st
  /\ sounds (onClick r st) = sounds st.
Proof.
  unfold onClick, sendDismiss, send, stopAlarm.
  destruct (win_alive st) eqn:Ew.
  - destruct (appointment_id r) as [a|]; [destruct (a =? 0)%Z|];
      cbn [win_alive ringing sent sounds];
      destruct (ringing st !! id r); cbn [win_alive ringing sent sounds];
      rewrite ?Ew; cbn [sent win_alive sounds]; rewrite <- ?app_assoc;
      repeat split; try reflexivity; try exact Ew.
  - destruct (ringing st !! id r); cbn [win_alive ringing sent sounds];
      rewrite ?Ew; cbn [sent win_alive sounds]; rewrite ?app_nil_r;
      repeat split; try reflexivity; try exact Ew.
Qed.

End AlarmFacts.

(** ** The wake loop of the voice assistant *)

Section WakeFacts.

Import Js Regex Payload Wake.

Local Open Scope string_scope.

Lemma search_from_some (ic : bool) (subject : string) (r : regex) (rest : string) :
  forall (prev : option ascii) (pos i : nat) (st : MState),
    search_from ic subject r prev pos rest = Some (i, st) ->
    exists a b, rest = a ++ b /\ i = (pos + String.length a)%nat
                /\ Regex.run ic subject r Some (mkM (last_char prev a) i b []) = Some st.
Proof.
  induction rest as [|c rest IH]; intros prev pos i st H; cbn [search_from] in H.
  - exists "", "". cbn [last_char String.length].
    destruct (Regex.run ic subject r Some _) eqn:E; [|discriminate].
    injection H as <- <-. rewrite Nat.add_0_r. auto.
  - destruct (Regex.run ic subject r Some (mkM prev pos (String c rest) [])) eqn:E.
    + exists "", (String c rest). cbn [last_char String.length].
      injection H as <- <-. rewrite Nat.add_0_r. auto.
    + apply IH in H as (a & b & -> & -> & H). exists (String c a), b.
      cbn [last_char String.length]. rewrite <- Nat.add_succ_comm. auto.
Qed.

Lemma search_from_none (ic : bool) (subject : string) (r : regex) (a : string) :
  forall (b : string) (prev : option ascii) (pos : nat),
    search_from ic subject r prev pos (a ++ b) = None ->
    Regex.run ic subject r Some
              (mkM (last_char prev a) (pos + String.length a) b []) = None.
Proof.
  induction a as [|c a IH]; intros b prev pos H.
  - rewrite append_nil in H. cbn [last_char String.length]. rewrite Nat.add_0_r.
    destruct b as [|x b]; cbn [search_from] in H;
      destruct (Regex.run ic subject r Some _); [discriminate | reflexivity
                                                | discriminate | reflexivity].
  - rewrite append_cons in H. cbn [search_from] in H.
    destruct (Regex.run ic subject r Some _); [discriminate|].
    apply IH in H. cbn [last_char String.length]. rewrite <- Nat.add_succ_comm. exact H.
Qed.

(** What a match consumes, with the positions. *)
Lemma matches_span (ic : bool) (subject : string) (r : regex) (st st' : MState) :
  matches ic subject r st st' ->
  exists w, m_rest st = w ++ m_rest st'
            /\ m_pos st' = (m_pos st + String.length w)%nat
            /\ lang ic r w (m_rest st').
Proof.
  induction 1; cbn [lang m_rest m_pos advance set_cap].
  - exists "". cbn [String.length]. rewrite Nat.add_0_r. auto.
  - exists (String x ""). cbn [String.length]. split; [assumption|]. split; [lia | eauto].
  - exists (String x ""). cbn [String.length]. split; [assumption|]. split; [lia | eauto].
  - destruct IHmatches1 as (u & Hu & Pu & Lu). destruct IHmatches2 as (v & Hv & Pv & Lv).
    exists (u ++ v). split; [|split].
    + rewrite Hu, Hv, append_assoc. reflexivity.
    + rewrite Pv, Pu, length_app_str. lia.
    + exists u, v. split; [reflexivity|]. rewrite <- Hv. split; assumption.
  - destruct IHmatches as (w & Hw & Pw & Lw). exists w. auto.
  - destruct IHmatches as (w & Hw & Pw & Lw). exists w. auto.
  - destruct IHmatches as (w & Hw & Pw & Lw). exists w. auto.
  - exists "". cbn [String.length]. rewrite Nat.add_0_r. auto.
  - exists "". cbn [String.length]. rewrite Nat.add_0_r. auto.
  - destruct IHmatches as (w & Hw & Pw & Lw). cbn [m_rest m_pos advance] in *.
    exists (String x w). split; [|split].
    + rewrite append_cons, <- Hw. assumption.
    + rewrite Pw. cbn [String.length]. lia.
    + cbn [all_cls]. rewrite Lw. match goal with Hp : p x = true |- _ => rewrite Hp end.
      reflexivity.
  - destruct IHmatches as (w & Hw & Pw & Lw). exists w. auto.
  - exists "". cbn [String.length]. rewrite Nat.add_0_r. auto.
  - exists "". cbn [String.length]. rewrite Nat.add_0_r. auto.
  - exists "". cbn [String.length]. rewrite Nat.add_0_r. auto.
Qed.

Lemma slice_app (a b : string) : slice (String.length a) (a ++ b) = b.
Proof.
  induction a as [|c a IH]; [destruct b; reflexivity|].
  rewrite append_cons. cbn [String.length slice]. exact IH.
Qed.

Lemma substring_prefix (w b : string) : substring 0 (String.length w) (w ++ b) = w.
Proof.
  induction w as [|c w IH]; [rewrite append_nil; apply substring_0_0|].
  rewrite append_cons. cbn [String.length substring]. rewrite IH. reflexivity.
Qed.

(** The texts the wake pattern consumes: a greeting, blanks, a name. *)
Lemma lang_wake (w rest : string) :
  lang true WAKE_REGEX w rest ->
  exists g ws n,
    w = g ++ ws ++ n
    /\ In (toLowerCase g) ["hey"; "ok"; "okay"]
    /\ ws <> "" /\ all_cls isWhiteSpace ws = true
    /\ In (toLowerCase n) ["nova"; "nora"; "noah"].
Proof.
  unfold WAKE_REGEX, PlusCls. cbn [lang AltOf].
  intros (u0 & v0 & -> & -> & g & v1 & -> & Hg & ws & v2 & -> & Hws & n & e & -> & Hn & ->).
  destruct Hws as (x1 & x2 & -> & (x & -> & Hx) & Hx2).
  exists g, (String x x2), n. rewrite append_nil, append_nil_r.
  split; [reflexivity|]. split; [|split; [discriminate|split]].
  - destruct Hg as [Hg|[Hg|Hg]]; apply lang_lit_lower in Hg; rewrite Hg;
      cbn; auto.
  - cbn [all_cls]. rewrite Hx. exact Hx2.
  - destruct Hn as [Hn|[Hn|Hn]]; apply lang_lit_lower in Hn; rewrite Hn;
      cbn; auto.
Qed.

(** X20. When the wake loop hands over a command, the buffered speech
    contains a wake phrase (hey, ok or okay, blanks, then nova, nora or
    noah, in any letter case), the command is the trimmed text after that
    phrase, the buffer is emptied and the loop cools down; when it hands
    over nothing, the buffer keeps the trimmed speech heard so far. *)
Theorem wake_command_is_the_text_after_the_wake_phrase
        (transcripts : list string) (st st' : State) (out : option string) :
  onresult transcripts st = (st', out) ->
  match out with
  | Some cmd =>
      cooling st = false /\ st' = mkState "" true
      /\ exists pre g ws n post,
           trim (buffer st ++ " " ++ joined transcripts) = pre ++ (g ++ ws ++ n) ++ post
           /\ In (toLowerCase g) ["hey"; "ok"; "okay"]
           /\ ws <> "" /\ all_cls isWhiteSpace ws = true
           /\ In (toLowerCase n) ["nova"; "nora"; "noah"]
           /\ cmd = trim post
  | None =>
      st' = mkState (trim (buffer st ++ " " ++ joined transcripts)) (cooling st)
  end.
Proof.
  unfold onresult. set (B := trim (buffer st ++ " " ++ joined transcripts)).
  unfold match_, search.
  destruct (search_from true B WAKE_REGEX None 0 B) as [[i st1]|] eqn:E;
    [|intros H; injection H as <- <-; reflexivity].
  destruct (cooling st) eqn:Ec; cbn [negb];
    [intros H; injection H as <- <-; reflexivity|].
  intros H. injection H as <- <-. split; [reflexivity|]. split; [reflexivity|].
  apply search_from_some in E as (a & b & HB & Hi & Hrun). cbn [Nat.add] in Hi.
  apply run_sound in Hrun as (st2 & Hm & Hst). injection Hst as <-.
  apply matches_span in Hm as (w & Hw & Hp & Hl). cbn [m_rest m_pos] in Hw, Hp.
  apply lang_wake in Hl as (g & ws & n & -> & Hg & Hws & Hall & Hn).
  exists a, g, ws, n, (m_rest st2).
  assert (HB' : B = a ++ (g ++ ws ++ n) ++ m_rest st2) by (rewrite HB, Hw; reflexivity).
  split; [exact HB'|]. repeat (split; [assumption|]).
  rewrite Hp, Hi, Nat.add_comm, Nat.add_sub.
  clearbody B. rewrite HB', substring_skip, substring_prefix.
  rewrite <- Nat2Z.inj_add, Nat2Z.id, <- length_app_str.
  rewrite <- (append_assoc a (g ++ ws ++ n) (m_rest st2)), slice_app. reflexivity.
Qed.

Lemma wake_command_witness :
  match Some "what is on today" with
  | Some cmd =>
      cooling (mkState "um" false) = false /\ mkState "" true = mkState "" true
      /\ exists pre g ws n post,
           trim (buffer (mkState "um" false) ++ " " ++ joined ["Hey  Nova what is on today"])
           = pre ++ (g ++ ws ++ n) ++ post
           /\ In (toLowerCase g) ["hey"; "ok"; "okay"]
           /\ ws <> "" /\ all_cls isWhiteSpace ws = true
           /\ In (toLowerCase n) ["nova"; "nora"; "noah"]
           /\ cmd = trim post
  | None =>
      mkState "" true
      = mkState (trim (buffer (mkState "um" false) ++ " "
                       ++ joined ["Hey  Nova what is on today"])) false
  end.
Proof.
  apply (wake_command_is_the_text_after_the_wake_phrase
           ["Hey  Nova what is on today"] (mkState "um" false)).
  vm_compute. reflexivity.
Defined.

Lemma char_eq_of_lower (c x : ascii) :
  toLowerChar x = toLowerChar c -> char_eq true c x = true.
Proof.
  assert (H : forallb (fun a => forallb (fun b =>
                implb (Ascii.eqb (toLowerChar a) (toLowerChar b))
                      (Ascii.eqb (canonicalize a) (canonicalize b)))
                (map ascii_of_nat (seq 0 256))) (map ascii_of_nat (seq 0 256)) = true)
    by (vm_compute; reflexivity).
  rewrite forallb_forall in H. specialize (H c (all_ascii c)).
  rewrite forallb_forall in H. specialize (H x (all_ascii x)).
  intros E. rewrite E, Ascii.eqb_refl in H. exact H.
Qed.

Lemma isWordChar_lower (c : ascii) : isWordChar (toLowerChar c) = isWordChar c.
Proof. destruct c as [[] [] [] [] [] [] [] []]; vm_compute; reflexivity. Qed.

(** Under the flag /i a literal matches every text with its lower-case
    form. *)
Lemma matches_lit_lower (subject : string) (w : string) :
  forall (x rest : string) (prev : option ascii) (pos : nat) (caps : Captures),
    toLowerCase x = toLowerCase w ->
    matches true subject (Lit w) (mkM prev pos (x ++ rest) caps)
            (mkM (last_char prev x) (pos + String.length x) rest caps).
Proof.
  induction w as [|c w IH]; intros x rest prev pos caps H.
  - destruct x; [|discriminate H]. rewrite append_nil.
    cbn [last_char String.length Lit]. rewrite Nat.add_0_r. constructor.
  - destruct x as [|y x]; [discriminate H|]. cbn [toLowerCase] in H.
    injection H as Hy Hx. rewrite append_cons. cbn [last_char String.length Lit].
    eapply M_Seq.
    + eapply M_Chr; [reflexivity | apply char_eq_of_lower, Hy].
    + unfold advance. cbn [m_pos m_caps]. rewrite <- Nat.add_succ_comm. apply IH, Hx.
Qed.

Lemma matches_star (subject : string) (p : ascii -> bool) (w : string) :
  forall (rest : string) (prev : option ascii) (pos : nat) (caps : Captures),
    all_cls p w = true ->
    matches true subject (StarCls p) (mkM prev pos (w ++ rest) caps)
            (mkM (last_char prev w) (pos + String.length w) rest caps).
Proof.
  induction w as [|c w IH]; intros rest prev pos caps H.
  - rewrite append_nil. cbn [last_char String.length]. rewrite Nat.add_0_r. constructor.
  - cbn [all_cls] in H. apply andb_prop in H as [Hc Hw]. rewrite append_cons.
    cbn [last_char String.length]. eapply M_StarCons; [reflexivity | exact Hc|].
    unfold advance. cbn [m_pos m_caps]. rewrite <- Nat.add_succ_comm. apply IH, Hw.
Qed.

Lemma word_first (x w : string) (c : ascii) (w' : string) :
  toLowerCase x = w -> w = String c w' -> isWordChar c = true ->
  is_word_opt (next_char (x)) = true /\ exists y x', x = String y x'.
Proof.
  intros H -> Hc. destruct x as [|y x]; [discriminate H|]. cbn [toLowerCase] in H.
  injection H as Hy _. cbn [next_char is_word_opt].
  rewrite <- isWordChar_lower, Hy. eauto.
Qed.

Lemma word_last (x : string) :
  forall prev, x <> "" -> forallb isWordChar (list_ascii_of_string (toLowerCase x)) = true ->
  is_word_opt (last_char prev x) = true.
Proof.
  induction x as [|c x IH]; intros prev Hx H; [contradiction|].
  cbn [toLowerCase list_ascii_of_string forallb] in H. apply andb_prop in H as [Hc H].
  cbn [last_char]. destruct x as [|d x].
  - cbn [last_char is_word_opt]. rewrite <- isWordChar_lower. exact Hc.
  - apply IH; [discriminate | exact H].
Qed.

Lemma next_char_app (x rest : string) (y : ascii) (x' : string) :
  x = String y x' -> next_char (x ++ rest) = next_char x.
Proof. intros ->. reflexivity. Qed.

(** The wake pattern matches a wake phrase that stands between word
    boundaries. *)
Lemma matches_wake (subject : string) (g ws n post : string)
      (prev : option ascii) (pos : nat) (caps : Captures) :
  In (toLowerCase g) ["hey"; "ok"; "okay"] ->
  ws <> "" -> all_cls isWhiteSpace ws = true ->
  In (toLowerCase n) ["nova"; "nora"; "noah"] ->
  is_word_opt prev = false ->
  is_word_opt (next_char post) = false ->
  exists st', matches true subject WAKE_REGEX
                      (mkM prev pos ((g ++ ws ++ n) ++ post) caps) st'.
Proof.
  intros Hg Hws Hall Hn Hprev Hpost.
  rewrite !append_assoc.
  assert (Hg1 : is_word_opt (next_char g) = true /\ exists y x', g = String y x').
  { destruct Hg as [Hg|[Hg|[Hg|[]]]]; symmetry in Hg;
      eapply word_first; try exact Hg; reflexivity. }
  destruct Hg1 as (Hg1 & y & g' & Hge).
  assert (Hn1 : is_word_opt (last_char None n) = true /\ n <> "").
  { split.
    - apply word_last.
      + intros ->. destruct Hn as [Hn|[Hn|[Hn|[]]]]; discriminate Hn.
      + destruct Hn as [Hn|[Hn|[Hn|[]]]]; rewrite <- Hn; reflexivity.
    - intros ->. destruct Hn as [Hn|[Hn|[Hn|[]]]]; discriminate Hn. }
  destruct Hn1 as [Hn1 Hne].
  destruct ws as [|x ws']; [contradiction|]. cbn [all_cls] in Hall.
  apply andb_prop in Hall as [Hx Hall].
  eexists. unfold WAKE_REGEX, PlusCls.
  eapply M_Seq.
  { apply M_WordB. unfold at_word_boundary. cbn [m_prev m_rest].
    rewrite (next_char_app g _ y g' Hge), Hprev, Hg1. reflexivity. }
  eapply M_Seq.
  { apply M_Grp. eapply (matches_alt_of true subject _ (Lit (toLowerCase g))).
    - destruct Hg as [<-|[<-|[<-|[]]]]; cbn [In]; auto.
    - apply matches_lit_lower. symmetry. apply toLowerCase_idem. }
  cbn [set_cap m_prev m_pos m_rest m_caps].
  eapply M_Seq.
  { eapply M_Seq.
    - rewrite append_cons. eapply M_Cls; [reflexivity | exact Hx].
    - unfold advance. cbn [m_pos m_caps]. apply matches_star. exact Hall. }
  eapply M_Seq.
  { apply M_Grp. eapply (matches_alt_of true subject _ (Lit (toLowerCase n))).
    - destruct Hn as [<-|[<-|[<-|[]]]]; cbn [In]; auto.
    - apply matches_lit_lower. symmetry. apply toLowerCase_idem. }
  cbn [set_cap m_prev m_pos m_rest m_caps].
  apply M_WordB. unfold at_word_boundary, set_cap. cbn [m_prev m_rest].
  rewrite Hpost.
  assert (H : forall p, is_word_opt (last_char p n) = true).
  { intros p. destruct n as [|c n']; [contradiction|]. exact Hn1. }
  rewrite H. reflexivity.
Qed.

(** X21. A wake phrase that stands between word boundaries in the buffered
    speech always wakes the assistant when the loop is not cooling down:
    a command is handed over, the buffer is emptied and the loop cools
    down. *)
Theorem wake_phrase_wakes_the_assistant
        (transcripts : list string) (st : State) (pre g ws n post : string) :
  cooling st = false ->
  trim (buffer st ++ " " ++ joined transcripts) = pre ++ (g ++ ws ++ n) ++ post ->
  In (toLowerCase g) ["hey"; "ok"; "okay"] ->
  ws <> "" -> all_cls isWhiteSpace ws = true ->
  In (toLowerCase n) ["nova"; "nora"; "noah"] ->
  is_word_opt (last_char None pre) = false ->
  is_word_opt (next_char post) = false ->
  exists cmd, onresult transcripts st = (mkState "" true, Some cmd).
Proof.
  intros Hc HB Hg Hws Hall Hn Hpre Hpost. unfold onresult.
  set (B := trim (buffer st ++ " " ++ joined transcripts)) in *.
  unfold match_, search.
  destruct (search_from true B WAKE_REGEX None 0 B) as [[i st1]|] eqn:E.
  - rewrite Hc. cbn [negb]. eexists. reflexivity.
  - exfalso. rewrite HB in E at 2. apply search_from_none in E. cbn [Nat.add] in E.
    destruct (matches_wake B g ws n post (last_char None pre) (String.length pre) []
                Hg Hws Hall Hn Hpre Hpost) as (st' & Hm).
    pose proof (run_complete true B WAKE_REGEX Some _ E st' Hm). discriminate.
Qed.

Lemma wake_phrase_witness :
  exists cmd,
    onresult ["so OKAY noah, book a room"] (mkState "well" false)
    = (mkState "" true, Some cmd).
Proof.
  apply (wake_phrase_wakes_the_assistant
           ["so OKAY noah, book a room"] (mkState "well" false)
           "well so " "OKAY" " " "noah" ", book a room").
  - reflexivity.
  - vm_compute. reflexivity.
  - vm_compute. auto.
  - discriminate.
  - reflexivity.
  - vm_compute. auto.
  - reflexivity.
  - reflexivity.
Defined.

(** X22. A voice turn posts the command spoken together with the wake
    phrase when there is one, and otherwise what the one-shot listener
    heard; when both are empty nothing is posted. *)
Theorem handleTurn_posts_command_or_heard (immediateCmd heard : string) :
  handleTurn immediateCmd heard
  = if all_cls isWhiteSpace immediateCmd
    then (if String.eqb heard "" then None else Some (Query heard))
    else Some (Query (trim immediateCmd)).
Proof.
  unfold handleTurn, Speech.str_or, VoiceAssistant.callBackend.
  assert (Ht : forall s, Js.truthy (Some s) = negb (String.eqb s "")).
  { intros [|c s]; reflexivity. }
  rewrite !Ht.
  assert (He : (if negb (immediateCmd =? "") then immediateCmd else "") = immediateCmd).
  { destruct immediateCmd; reflexivity. }
  rewrite He.
  destruct (all_cls isWhiteSpace immediateCmd) eqn:Ea.
  - apply trim_empty_iff in Ea. rewrite Ea. cbn [String.eqb negb].
    destruct heard; reflexivity.
  - assert (Hne : trim immediateCmd <> "").
    { intros H. apply trim_empty_iff in H. congruence. }
    destruct (trim immediateCmd) as [|c t] eqn:Et; [contradiction|]. reflexivity.
Qed.

End WakeFacts.
